(** * Buffer-Variable: a shallow embedding of the schema, view and sync code

    The development follows the layout of the TypeScript sources:

    - [types.ts]              descriptors, templates, schemas, patches;
    - [utils.ts]              [isTypedArray], [isPlainObject], [hasUndefined];
    - [schema-inference.ts]   [inferSchema] and its inner [inferDescriptor];
    - [schema-compiler.ts]    [compileFunctions] and its helpers;
    - [view-core], [view-encode-decode], [view-mutations],
      [view-accessors]        the [View] class and its prototype extensions;
    - [schema-diff-patch.ts]  the stand-alone [diff] and [applyPatch];
    - [view-sync.ts]          the [ViewSync] handle and its registry.

    A [SharedArrayBuffer] is the list of its bytes.  Code that writes to it
    runs in a state-and-exception monad [M] over a [world] made of those
    bytes and of the allocation counter that gives fresh objects their
    identity.  Whatever the ECMAScript platform does and this file does not
    compute (parsing a string as a number, printing a number, ...) is taken
    from a [Platform] record. *)

From Stdlib Require Import ZArith List String Ascii Bool Lia.
From stdpp Require Import gmap strings list.

Open Scope string_scope.
Open Scope list_scope.
Open Scope Z_scope.

(** ** Errors and the monad *)

(** One constructor per [throw] site of the library (the payload is what the
    message interpolates), and three for the exceptions of the platform. *)
Inductive error : Type :=
| BufferTooSmall (have need : Z)
| ImmutableSizeMismatch
| UndefinedNotAllowed
| CannotMutateImmutable
| CannotPatchImmutable
| CannotUpdateImmutable
| MissingValue (path : string)
| InvalidPath (path : string)
| NoTemplate (path : string)
| InvalidOffset (off : Z)
| MissingDataType
| StringExceedsBuffer
| ArrayExceedsBuffer
| TypedArrayExceedsBuffer
| InvalidTypedArrayType
| UnsupportedPrimitive
| UnsupportedDescriptorType
| UnsupportedPatchOperation (op : string)
| InvalidPathSegment (part : string)
| InvalidArrayIndex (part : string)
| NoTypedArrayAt (path : string)
| RangeError
| TypeError
| SyntaxError.

Inductive outcome (A : Type) : Type :=
| Normal (a : A)
| Throw (e : error).
Arguments Normal {A} a.
Arguments Throw {A} e.

(** The bytes of the shared segment and the next unused object identity;
    the objects that the caller passes in carry smaller identities. *)
Record world : Type := World { sab : list Z; heap : N }.

Definition M (A : Type) : Type := world -> outcome A * world.

Definition ret {A} (a : A) : M A := fun w => (Normal a, w).
Definition throw {A} (e : error) : M A := fun w => (Throw e, w).
Definition bind {A B} (m : M A) (k : A -> M B) : M B :=
  fun w => match m w with
           | (Normal a, w') => k a w'
           | (Throw e, w') => (Throw e, w')
           end.
Definition lift {A} (o : outcome A) : M A := fun w => (o, w).

Notation "'let*' x ':=' m 'in' k" := (bind m (fun x => k))
  (at level 10, x pattern, m at level 200, k at level 200).
Notation "m ;; k" := (bind m (fun _ => k))
  (at level 100, k at level 200, right associativity).

(** [for (const x of xs) body(x)] *)
Fixpoint for_each {A} (xs : list A) (body : A -> M unit) : M unit :=
  match xs with
  | [] => ret tt
  | x :: xs' => body x ;; for_each xs' body
  end.

(** A fresh object identity. *)
Definition alloc : M N :=
  fun w => (Normal (heap w), World (sab w) (N.succ (heap w))).

(** ** Bytes, little end first *)

Definition byteLength (b : list Z) : Z := Z.of_nat (length b).

Fixpoint le_bytes (n : nat) (x : Z) : list Z :=
  match n with
  | O => []
  | S n' => x mod 256 :: le_bytes n' (x / 256)
  end.

Fixpoint le_value (bs : list Z) : Z :=
  match bs with
  | [] => 0
  | b :: bs' => b + 256 * le_value bs'
  end.

Definition read_bytes (b : list Z) (off : Z) (n : nat) : list Z :=
  take n (drop (Z.to_nat off) b).

Definition write_bytes (b : list Z) (off : Z) (bs : list Z) : list Z :=
  take (Z.to_nat off) b ++ bs ++ drop (Z.to_nat off + length bs) b.

(** The range check of every [DataView] accessor and typed-array
    constructor: [n] bytes from [off] must lie inside the buffer. *)
Definition in_range (off n : Z) : M unit :=
  fun w => if (0 <=? off) && (off + n <=? byteLength (sab w))
           then (Normal tt, w) else (Throw RangeError, w).

Definition load (off : Z) (n : nat) : M Z :=
  in_range off (Z.of_nat n) ;;
  fun w => (Normal (le_value (read_bytes (sab w) off n)), w).

Definition store_bytes (off : Z) (bs : list Z) : M unit :=
  in_range off (byteLength bs) ;;
  fun w => (Normal tt, World (write_bytes (sab w) off bs) (heap w)).

Definition store (off : Z) (n : nat) (x : Z) : M unit :=
  store_bytes off (le_bytes n x).

(** ** Numbers

    A JavaScript number is its IEEE-754 binary64 bit pattern, a [Z] below
    [2^64].  Only what the code needs of the arithmetic is written out: the
    tests for NaN and zero, the exact embedding of small integers, the
    widening of a binary32 pattern and the truncation behind [ToUint32]. *)

Definition nan_bits : Z := 0x7FF8000000000000.
Definition one_bits : Z := 0x3FF0000000000000.

Definition is_nan (bits : Z) : bool :=
  ((bits / 2 ^ 52) mod 2 ^ 11 =? 2047) && negb (bits mod 2 ^ 52 =? 0).

Definition is_zero (bits : Z) : bool := bits mod 2 ^ 63 =? 0.

(** [x === y] on two numbers. *)
Definition number_equal (x y : Z) : bool :=
  negb (is_nan x) && negb (is_nan y) && ((x =? y) || (is_zero x && is_zero y)).

(** The number that an integer of magnitude below [2^53] denotes. *)
Definition number_of_Z (z : Z) : Z :=
  if z =? 0 then 0
  else
    let a := Z.abs z in
    let e := Z.log2 a in
    (if z <? 0 then 2 ^ 63 else 0) + (e + 1023) * 2 ^ 52 + (a * 2 ^ (52 - e) - 2 ^ 52).

(** The number that a binary32 pattern denotes. *)
Definition number_of_float32 (b : Z) : Z :=
  let s := (b / 2 ^ 31) mod 2 in
  let e := (b / 2 ^ 23) mod 2 ^ 8 in
  let m := b mod 2 ^ 23 in
  s * 2 ^ 63 +
  (if e =? 255 then 2047 * 2 ^ 52 + m * 2 ^ 29
   else if e =? 0 then
     (if m =? 0 then 0
      else let k := Z.log2 m in (k + 874) * 2 ^ 52 + (m * 2 ^ (52 - k) - 2 ^ 52))
   else (e + 896) * 2 ^ 52 + m * 2 ^ 29).

(** Integer part of a number; [None] for NaN and the infinities. *)
Definition number_trunc (bits : Z) : option Z :=
  let s := (bits / 2 ^ 63) mod 2 in
  let e := (bits / 2 ^ 52) mod 2 ^ 11 in
  let m := bits mod 2 ^ 52 in
  if e =? 2047 then None
  else
    let mag :=
      if e =? 0 then 0
      else if 1075 <=? e then (m + 2 ^ 52) * 2 ^ (e - 1075)
      else (m + 2 ^ 52) / 2 ^ (1075 - e) in
    Some (if s =? 1 then - mag else mag).

(** A finite number has a fractional part. *)
Definition has_fraction (bits : Z) : bool :=
  let e := (bits / 2 ^ 52) mod 2 ^ 11 in
  let m := bits mod 2 ^ 52 in
  if e =? 0 then negb (m =? 0)
  else if 1075 <=? e then false
  else negb ((m + 2 ^ 52) mod 2 ^ (1075 - e) =? 0).

Definition is_negative (bits : Z) : bool := (bits / 2 ^ 63) mod 2 =? 1.

Definition ToUint32_number (bits : Z) : Z :=
  match number_trunc bits with
  | None => 0
  | Some z => z mod 2 ^ 32
  end.

Definition signed (width : Z) (x : Z) : Z :=
  let y := x mod 2 ^ width in
  if y <? 2 ^ (width - 1) then y else y - 2 ^ width.

(** ** Strings

    A JavaScript string is the Rocq string of its UTF-8 bytes, so
    [TextEncoder.encode] is the list of those bytes.  Strings with a lone
    surrogate have no such form and are outside the model. *)

Definition TextEncoder_encode (s : string) : list Z :=
  map (fun c => Z.of_N (N_of_ascii c)) (list_ascii_of_string s).

Definition string_of_bytes (bs : list Z) : string :=
  string_of_list_ascii (map (fun b => ascii_of_N (Z.to_N b)) bs).

(** WHATWG UTF-8 decoder with replacement, as [new TextDecoder().decode]
    runs it: [need] continuation bytes are still expected, each between [lo]
    and [hi]; [seen] holds the bytes of the sequence read so far.  A
    malformed sequence becomes U+FFFD and a leading byte-order mark is
    dropped. *)
Definition replacement : list Z := [0xEF; 0xBF; 0xBD].

Definition utf8_lead (b : Z) : list Z * (nat * Z * Z * list Z) :=
  if b <=? 0x7F then ([b], (O, 0x80, 0xBF, []))
  else if (0xC2 <=? b) && (b <=? 0xDF) then ([], (1%nat, 0x80, 0xBF, [b]))
  else if (0xE0 <=? b) && (b <=? 0xEF) then
    ([], (2%nat, (if b =? 0xE0 then 0xA0 else 0x80), (if b =? 0xED then 0x9F else 0xBF), [b]))
  else if (0xF0 <=? b) && (b <=? 0xF4) then
    ([], (3%nat, (if b =? 0xF0 then 0x90 else 0x80), (if b =? 0xF4 then 0x8F else 0xBF), [b]))
  else (replacement, (O, 0x80, 0xBF, [])).

Fixpoint utf8_decode (bs : list Z) (st : nat * Z * Z * list Z) : list Z :=
  let '(need, lo, hi, seen) := st in
  match bs with
  | [] => match need with O => [] | S _ => replacement end
  | b :: bs' =>
      match need with
      | O => let '(out, st') := utf8_lead b in out ++ utf8_decode bs' st'
      | S need' =>
          if (lo <=? b) && (b <=? hi) then
            match need' with
            | O => (seen ++ [b]) ++ utf8_decode bs' (O, 0x80, 0xBF, [])
            | S _ => utf8_decode bs' (need', 0x80, 0xBF, seen ++ [b])
            end
          else
            let '(out, st') := utf8_lead b in
            replacement ++ out ++ utf8_decode bs' st'
      end
  end.

Definition strip_bom (bs : list Z) : list Z :=
  match bs with
  | 0xEF :: 0xBB :: 0xBF :: bs' => bs'
  | _ => bs
  end.

Definition TextDecoder_decode (bs : list Z) : string :=
  string_of_bytes (strip_bom (utf8_decode (map (fun b => b mod 256) bs) (O, 0x80, 0xBF, []))).

(** [s.length], in UTF-16 code units: one per character, two for a
    character of four bytes. *)
Definition string_length (s : string) : Z :=
  fold_right (fun b n => (if (0x80 <=? b) && (b <=? 0xBF) then 0
                          else if 0xF0 <=? b then 2 else 1) + n)
             0 (TextEncoder_encode s).

(** Decimal form of a natural number, as template literals print an
    index. *)
Definition digit (n : N) : ascii := ascii_of_N (48 + n).

Fixpoint decimal_go (fuel : nat) (n : N) (acc : string) : string :=
  match fuel with
  | O => acc
  | S fuel' =>
      let acc' := String (digit (n mod 10)%N) acc in
      match (n / 10)%N with
      | N0 => acc'
      | q => decimal_go fuel' q acc'
      end
  end.

Definition decimal (n : N) : string := decimal_go (S (N.size_nat n)) n "".

(** [s.split(sep)] for a set of one-character separators. *)
Fixpoint split_on (sep : ascii -> bool) (s : string) (cur : string) : list string :=
  match s with
  | EmptyString => [cur]
  | String c s' =>
      if sep c then cur :: split_on sep s' ""
      else split_on sep s' (cur +:+ String c "")
  end.

(** [path.split('.').pop()] *)
Definition last_segment (path : string) : string :=
  List.last (split_on (fun c => Ascii.eqb c ".") path "") "".

(** [path.split(/[\.\[\]]/).filter(p => p)] *)
Definition path_parts (path : string) : list string :=
  filter (fun p => p ≠ "")
         (split_on (fun c => Ascii.eqb c "." || Ascii.eqb c "[" || Ascii.eqb c "]") path "").


(** A canonical array index: the decimal form of an integer below
    [2^32 - 1]. *)
Fixpoint parse_digits (s : string) (acc : N) : option N :=
  match s with
  | EmptyString => Some acc
  | String c s' =>
      let d := N_of_ascii c in
      if ((48 <=? d) && (d <=? 57))%N then parse_digits s' (10 * acc + (d - 48))%N
      else None
  end.

Definition array_index (key : string) : option nat :=
  match key with
  | EmptyString => None
  | _ =>
      match parse_digits key 0%N with
      | Some n => if String.eqb (decimal n) key && (n <? 2 ^ 32 - 1)%N
                  then Some (N.to_nat n) else None
      | None => None
      end
  end.

(** ** Values *)

Inductive TypedArrayType : Type :=
| Int8Array | Uint8Array | Int16Array | Uint16Array | Int32Array
| Uint32Array | Float32Array | Float64Array | BigInt64Array | BigUint64Array.

(** A JavaScript value as the library can meet it.  Objects carry the
    identity [ref] that [===] compares.  A [Date] holds its time value
    ([None] when invalid); a typed array the bit patterns of its elements;
    an array its elements ([None] is a hole) and its other own properties;
    a plain object its own enumerable properties in enumeration order.
    Class instances, functions and symbols are not represented, nor are
    the members that objects inherit from the built-in prototypes. *)
#[local] Unset Elimination Schemes.
Inductive value : Type :=
| VUndefined
| VNull
| VBoolean (b : bool)
| VNumber (bits : Z)
| VBigInt (z : Z)
| VString (s : string)
| VDate (ref : N) (time : option Z)
| VTypedArray (ref : N) (ty : TypedArrayType) (elems : list Z)
| VArray (ref : N) (items : list (option value)) (props : list (string * value))
| VObject (ref : N) (props : list (string * value)).
#[local] Set Elimination Schemes.

Definition TypedArrayType_eqb (a b : TypedArrayType) : bool :=
  match a, b with
  | Int8Array, Int8Array | Uint8Array, Uint8Array | Int16Array, Int16Array
  | Uint16Array, Uint16Array | Int32Array, Int32Array | Uint32Array, Uint32Array
  | Float32Array, Float32Array | Float64Array, Float64Array
  | BigInt64Array, BigInt64Array | BigUint64Array, BigUint64Array => true
  | _, _ => false
  end.

Definition ref_of (v : value) : option N :=
  match v with
  | VDate r _ | VTypedArray r _ _ | VArray r _ _ | VObject r _ => Some r
  | _ => None
  end.

(** [a === b] *)
Definition strict_equals (a b : value) : bool :=
  match a, b with
  | VUndefined, VUndefined | VNull, VNull => true
  | VBoolean x, VBoolean y => Bool.eqb x y
  | VNumber x, VNumber y => number_equal x y
  | VBigInt x, VBigInt y => x =? y
  | VString x, VString y => String.eqb x y
  | _, _ =>
      match ref_of a, ref_of b with
      | Some r, Some r' => (r =? r')%N
      | _, _ => false
      end
  end.

(** [v ? ... : ...] and [v || ...] *)
Definition ToBoolean (v : value) : bool :=
  match v with
  | VUndefined | VNull => false
  | VBoolean b => b
  | VNumber bits => negb (is_nan bits || is_zero bits)
  | VBigInt z => negb (z =? 0)
  | VString s => negb (String.eqb s "")
  | _ => true
  end.

(** *** Typed arrays *)

Definition getTypedArrayByteSize (type : TypedArrayType) : Z :=
  match type with
  | Int8Array | Uint8Array => 1
  | Int16Array | Uint16Array => 2
  | Int32Array | Uint32Array | Float32Array => 4
  | Float64Array | BigInt64Array | BigUint64Array => 8
  end.

(** The value [ta[i]] of an element with the given bit pattern. *)
Definition element_value (type : TypedArrayType) (bits : Z) : value :=
  match type with
  | Int8Array => VNumber (number_of_Z (signed 8 bits))
  | Int16Array => VNumber (number_of_Z (signed 16 bits))
  | Int32Array => VNumber (number_of_Z (signed 32 bits))
  | Uint8Array | Uint16Array | Uint32Array => VNumber (number_of_Z bits)
  | Float32Array => VNumber (number_of_float32 bits)
  | Float64Array => VNumber bits
  | BigInt64Array => VBigInt (signed 64 bits)
  | BigUint64Array => VBigInt bits
  end.

Fixpoint chunks (width : nat) (count : nat) (bs : list Z) : list Z :=
  match count with
  | O => []
  | S count' => le_value (take width bs) :: chunks width count' (drop width bs)
  end.

(** [new T(buffer, off, len)]: the offset must be a multiple of the element
    size and the elements must fit. *)
Definition new_typed_array (type : TypedArrayType) (off len : Z) : M unit :=
  let size := getTypedArrayByteSize type in
  if (len <? 0) || negb (off mod size =? 0) then throw RangeError
  else in_range off (len * size).

(** The elements seen through such a view. *)
Definition typed_array_elements (type : TypedArrayType) (off len : Z) : M (list Z) :=
  let size := getTypedArrayByteSize type in
  fun w => (Normal (chunks (Z.to_nat size) (Z.to_nat len)
                           (drop (Z.to_nat off) (sab w))), w).

(** *** Own properties *)

Definition comes_before (k k' : string) : bool :=
  match array_index k, array_index k' with
  | Some i, Some j => (i <? j)%nat
  | Some _, None => true
  | None, _ => false
  end.

(** The own properties of an ordinary object, as a list in enumeration
    order: array indices in ascending order, then the other keys in the
    order of their creation. *)
Fixpoint entries_get {A} (key : string) (entries : list (string * A)) : option A :=
  match entries with
  | [] => None
  | (k, x) :: entries' => if String.eqb key k then Some x else entries_get key entries'
  end.

(** [o[key] = x]: an existing key keeps its place, a new array index goes
    among the indices, any other new key goes last. *)
Fixpoint entries_set {A} (key : string) (x : A) (entries : list (string * A))
  : list (string * A) :=
  match entries with
  | [] => [(key, x)]
  | (k, y) :: entries' =>
      if String.eqb key k then (key, x) :: entries'
      else if comes_before key k then (key, x) :: entries
      else (k, y) :: entries_set key x entries'
  end.

Definition props_get (key : string) (props : list (string * value)) : value :=
  default VUndefined (entries_get key props).

Definition props_set (key : string) (x : value) (props : list (string * value))
  : list (string * value) := entries_set key x props.

Fixpoint utf8_chars (bs : list Z) (cur : list Z) : list (list Z) :=
  match bs with
  | [] => match cur with [] => [] | _ => [cur] end
  | b :: bs' =>
      if (0x80 <=? b) && (b <=? 0xBF) then utf8_chars bs' (cur ++ [b])
      else match cur with
           | [] => utf8_chars bs' [b]
           | _ => cur :: utf8_chars bs' [b]
           end
  end.

(** The characters of a string, one entry per code unit; exact for strings
    of the Basic Multilingual Plane. *)
Definition string_chars (s : string) : list string :=
  map string_of_bytes (utf8_chars (TextEncoder_encode s) []).

Definition indices (n : nat) : list string := map (fun i => decimal (N.of_nat i)) (seq 0 n).

Fixpoint present_indices (i : nat) (items : list (option value)) : list string :=
  match items with
  | [] => []
  | Some _ :: items' => decimal (N.of_nat i) :: present_indices (S i) items'
  | None :: items' => present_indices (S i) items'
  end.

(** [Object.keys(v)] *)
Definition Object_keys (v : value) : list string :=
  match v with
  | VObject _ props => map fst props
  | VArray _ items props => present_indices O items ++ map fst props
  | VTypedArray _ _ elems => indices (length elems)
  | VString s => indices (length (string_chars s))
  | _ => []
  end.

Definition item_value (it : option value) : value :=
  match it with
  | Some x => x
  | None => VUndefined
  end.

(** [v[key]] for [v] other than [undefined] and [null]. *)
Definition get (v : value) (key : string) : value :=
  match v with
  | VObject _ props => props_get key props
  | VArray _ items props =>
      match array_index key with
      | Some i => item_value (nth i items None)
      | None =>
          if String.eqb key "length" then VNumber (number_of_Z (Z.of_nat (length items)))
          else props_get key props
      end
  | VTypedArray _ type elems =>
      match array_index key with
      | Some i => match elems !! i with
                  | Some bits => element_value type bits
                  | None => VUndefined
                  end
      | None =>
          if String.eqb key "length" then VNumber (number_of_Z (Z.of_nat (length elems)))
          else VUndefined
      end
  | VString s =>
      match array_index key with
      | Some i => match string_chars s !! i with
                  | Some c => VString c
                  | None => VUndefined
                  end
      | None =>
          if String.eqb key "length" then VNumber (number_of_Z (string_length s))
          else VUndefined
      end
  | _ => VUndefined
  end.

(** [v?.[key]] *)
Definition optional_get (v : value) (key : string) : value :=
  match v with
  | VUndefined | VNull => VUndefined
  | _ => get v key
  end.

(** [v[key] = x].  The code assigns into plain objects and arrays only.
    Storing at an index beyond the end of an array extends it with holes;
    storing anything but a length into [length] is a [RangeError].  On a
    primitive the assignment is a [TypeError] (modules are strict code);
    the own properties of dates and typed arrays are not represented. *)
Definition set_property (v : value) (key : string) (x : value) : outcome value :=
  match v with
  | VObject r props => Normal (VObject r (props_set key x props))
  | VArray r items props =>
      match array_index key with
      | Some i =>
          Normal (VArray r (<[i := Some x]> (items ++ replicate (S i - length items) None)) props)
      | None =>
          if String.eqb key "length" then
            match x with
            | VNumber bits =>
                match number_trunc bits with
                | Some n =>
                    if (0 <=? n) && (n <? 2 ^ 32) && negb (has_fraction bits) then
                      Normal (VArray r (take (Z.to_nat n)
                                (items ++ replicate (Z.to_nat n - length items) None)) props)
                    else Throw RangeError
                | None => Throw RangeError
                end
            | _ => Throw RangeError
            end
          else Normal (VArray r items (props_set key x props))
      end
  | VDate _ _ | VTypedArray _ _ _ => Normal v
  | _ => Throw TypeError
  end.

(** ** What the platform computes

    The conversions of ECMAScript on the operands this file does not work
    out itself: a string or an object where a number or a BigInt is wanted,
    a number or an object where a string is wanted, and the elements that
    [TypedArray.prototype.set] stores when its source is not a typed array
    of the same element type. *)
Record Platform : Type := {
  ToNumber_other : value -> outcome Z;
  ToString_other : value -> outcome string;
  ToBigInt_other : value -> outcome Z;
  set_elements_other : TypedArrayType -> value -> outcome (list Z)
}.

(** ** types.ts *)

Inductive PrimitiveType : Type :=
| TString | TNumber | TBoolean | TNull | TBigInt | TDate | TUndefined.

Inductive DataType : Type :=
| OfPrimitive (p : PrimitiveType)
| OfTypedArray (t : TypedArrayType).

Inductive DescriptorType : Type := Primitive | Object | Array | TypedArray.

#[local] Unset Elimination Schemes.
Inductive Descriptor : Type := mkDescriptor {
  d_type : DescriptorType;
  d_byteOffset : Z;
  d_byteSize : Z;
  d_dataType : option DataType;
  d_children : option (list (string * Descriptor));
  d_length : option Z
}.
#[local] Set Elimination Schemes.

Definition PrimitiveType_name (p : PrimitiveType) : string :=
  match p with
  | TString => "String" | TNumber => "Number" | TBoolean => "Boolean"
  | TNull => "Null" | TBigInt => "BigInt" | TDate => "Date"
  | TUndefined => "Undefined"
  end.

Definition TypedArrayType_name (t : TypedArrayType) : string :=
  match t with
  | Int8Array => "Int8Array" | Uint8Array => "Uint8Array"
  | Int16Array => "Int16Array" | Uint16Array => "Uint16Array"
  | Int32Array => "Int32Array" | Uint32Array => "Uint32Array"
  | Float32Array => "Float32Array" | Float64Array => "Float64Array"
  | BigInt64Array => "BigInt64Array" | BigUint64Array => "BigUint64Array"
  end.

Record FlatIndexEntry : Type := { fi_offset : Z; fi_type : string }.

Record TypedArrayView : Type := { tv_type : TypedArrayType; tv_offset : Z; tv_length : Z }.

(** A template entry.  [t_type] holds the path of the field.  The closures
    [setter] and [getter] may refer to the variable [currentOffset] of the
    [inferSchema] call that made them; they receive its content at the time
    of the call as their first argument. *)
Record TemplateEntry : Type := {
  t_offset : Z;
  t_type : string;
  t_size : Z;
  setter : Z -> value -> M unit;
  getter : Z -> M value
}.

(** A schema, together with the variable [currentOffset] that the closures
    of its templates captured.  Nothing assigns to that variable once
    [inferSchema] has returned. *)
Record Schema : Type := {
  descriptorTree : Descriptor;
  byteSize : Z;
  flatIndex : gmap string FlatIndexEntry;
  encodingTemplate : list TemplateEntry;
  typedArrayViews : gmap string TypedArrayView;
  currentOffset_var : Z
}.

(** The options of a view, each of which may be left out. *)
Record ViewOptions : Type := {
  opt_mutable : option bool;
  opt_exposedLowLevelApi : option bool
}.

Inductive PatchOp : Type := op_add | op_remove | op_replace | op_other (name : string).

(** A patch; an absent [value] reads as [undefined]. *)
Record Patch : Type := { op : PatchOp; path : string; p_value : value }.

(** ** utils.ts *)

Definition isTypedArray (v : value) : bool :=
  match v with VTypedArray _ _ _ => true | _ => false end.

Definition isPlainObject (v : value) : bool :=
  match v with VObject _ _ => true | _ => false end.

Fixpoint hasUndefined (v : value) : bool :=
  match v with
  | VUndefined => true
  | VNull | VBoolean _ | VNumber _ | VBigInt _ | VString _ => false
  | VTypedArray _ _ _ => false
  | VArray _ items _ =>
      (fix some (its : list (option value)) : bool :=
         match its with
         | [] => false
         | Some x :: its' => hasUndefined x || some its'
         | None :: its' => some its'
         end) items
  | VDate _ _ => false
  | VObject _ props =>
      (fix some (ps : list (string * value)) : bool :=
         match ps with
         | [] => false
         | (_, x) :: ps' => hasUndefined x || some ps'
         end) props
  end.

Section Library.

Context (P : Platform).

(** ** Conversions *)

Definition ToNumber (v : value) : outcome Z :=
  match v with
  | VUndefined => Normal nan_bits
  | VNull => Normal 0
  | VBoolean b => Normal (if b then one_bits else 0)
  | VNumber bits => Normal bits
  | VBigInt _ => Throw TypeError
  | VDate _ (Some t) => Normal (number_of_Z t)
  | VDate _ None => Normal nan_bits
  | _ => ToNumber_other P v
  end.

Definition ToBigInt (v : value) : outcome Z :=
  match v with
  | VBigInt z => Normal z
  | VBoolean b => Normal (if b then 1 else 0)
  | VUndefined | VNull | VNumber _ | VDate _ _ => Throw TypeError
  | _ => ToBigInt_other P v
  end.

Definition decimal_Z (z : Z) : string :=
  if z <? 0 then "-" +:+ decimal (Z.to_N (- z)) else decimal (Z.to_N z).

(** The string that [new TextEncoder().encode(v)] encodes; the parameter
    defaults to the empty string. *)
Definition encoder_input (v : value) : outcome string :=
  match v with
  | VUndefined => Normal ""
  | VString s => Normal s
  | VNull => Normal "null"
  | VBoolean b => Normal (if b then "true" else "false")
  | VBigInt z => Normal (decimal_Z z)
  | _ => ToString_other P v
  end.

(** [v.length] *)
Definition length_of (v : value) : outcome value :=
  match v with
  | VUndefined | VNull => Throw TypeError
  | _ => Normal (get v "length")
  end.

(** ** DataView *)

Definition ToIndex (off : Z) : M unit :=
  if off <? 0 then throw RangeError else ret tt.

Definition getUint8 (off : Z) : M Z := load off 1.
Definition setUint8 (off : Z) (x : Z) : M unit := store off 1 x.
Definition getUint32 (off : Z) : M Z := load off 4.
Definition setUint32 (off : Z) (x : Z) : M unit := store off 4 x.
Definition getFloat64 (off : Z) : M Z := load off 8.
Definition getBigInt64 (off : Z) : M Z :=
  let* x := load off 8 in ret (signed 64 x).

Definition setFloat64 (off : Z) (v : value) : M unit :=
  ToIndex off ;;
  let* bits := lift (ToNumber v) in
  store off 8 bits.

Definition setBigInt64 (off : Z) (v : value) : M unit :=
  ToIndex off ;;
  let* z := lift (ToBigInt v) in
  store off 8 z.

(** [dv.setUint32(off, x, true)] for an operand that is a value. *)
Definition setUint32_value (off : Z) (x : value) : M unit :=
  ToIndex off ;;
  let* bits := lift (ToNumber x) in
  store off 4 (ToUint32_number bits).

(** [new T(buffer, off, len)] where [len] is a value: the number of
    elements of the view. *)
Definition typed_array_over (type : TypedArrayType) (off : Z) (len : value) : M Z :=
  let size := getTypedArrayByteSize type in
  ToIndex off ;;
  if negb (off mod size =? 0) then throw RangeError
  else
    match len with
    | VUndefined =>
        fun w =>
          let total := byteLength (sab w) in
          if negb (total mod size =? 0) || (total - off <? 0) then (Throw RangeError, w)
          else (Normal ((total - off) / size), w)
    | _ =>
        let* bits := lift (ToNumber len) in
        if is_nan bits then in_range off 0 ;; ret 0
        else
          match number_trunc bits with
          | None => throw RangeError
          | Some n =>
              if (n <? 0) || (2 ^ 53 - 1 <? n) then throw RangeError
              else in_range off (n * size) ;; ret n
          end
    end.

(** The bit patterns that [target.set(v)] stores in a target of the given
    element type. *)
Definition set_elements (type : TypedArrayType) (v : value) : outcome (list Z) :=
  match v with
  | VTypedArray _ type' elems =>
      if TypedArrayType_eqb type type' then Normal elems
      else set_elements_other P type v
  | VUndefined | VNull => Throw TypeError
  | _ =>
      match get v "length" with
      | VUndefined => Normal []
      | _ => set_elements_other P type v
      end
  end.

Definition element_bytes (type : TypedArrayType) (elems : list Z) : list Z :=
  concat (map (le_bytes (Z.to_nat (getTypedArrayByteSize type))) elems).

(** [new Date(Number(z))]: the time value is kept when it is within the
    range of a [Date]. *)
Definition new_Date (z : Z) : M value :=
  let* r := alloc in
  ret (VDate r (if Z.abs z <=? 8640000000000000 then Some z else None)).

Definition new_Object : M value :=
  let* r := alloc in ret (VObject r []).

Definition new_Array (len : Z) : M value :=
  let* r := alloc in ret (VArray r (replicate (Z.to_nat len) None) []).

Definition new_TypedArray (type : TypedArrayType) (off len : Z) : M value :=
  new_typed_array type off len ;;
  let* elems := typed_array_elements type off len in
  let* r := alloc in
  ret (VTypedArray r type elems).

(** ** schema-inference.ts *)

(** The variables of one [inferSchema] call. *)
Record InferState : Type := {
  currentOffset : Z;
  st_flatIndex : gmap string FlatIndexEntry;
  st_encodingTemplate : list TemplateEntry;
  st_typedArrayViews : gmap string TypedArrayView
}.

Definition flatIndex_set (path : string) (offset : Z) (type : string) (st : InferState)
  : InferState :=
  {| currentOffset := currentOffset st;
     st_flatIndex := <[path := {| fi_offset := offset; fi_type := type |}]> (st_flatIndex st);
     st_encodingTemplate := st_encodingTemplate st;
     st_typedArrayViews := st_typedArrayViews st |}.

Definition encodingTemplate_push (entry : TemplateEntry) (st : InferState) : InferState :=
  {| currentOffset := currentOffset st;
     st_flatIndex := st_flatIndex st;
     st_encodingTemplate := st_encodingTemplate st ++ [entry];
     st_typedArrayViews := st_typedArrayViews st |}.

Definition typedArrayViews_set (path : string) (view : TypedArrayView) (st : InferState)
  : InferState :=
  {| currentOffset := currentOffset st;
     st_flatIndex := st_flatIndex st;
     st_encodingTemplate := st_encodingTemplate st;
     st_typedArrayViews := <[path := view]> (st_typedArrayViews st) |}.

(** [currentOffset += n] *)
Definition advance (n : Z) (st : InferState) : InferState :=
  {| currentOffset := currentOffset st + n;
     st_flatIndex := st_flatIndex st;
     st_encodingTemplate := st_encodingTemplate st;
     st_typedArrayViews := st_typedArrayViews st |}.

Definition primitive (dataType : PrimitiveType) (offset size : Z) : Descriptor :=
  {| d_type := Primitive; d_byteOffset := offset; d_byteSize := size;
     d_dataType := Some (OfPrimitive dataType); d_children := None; d_length := None |}.

(** The closures of the scalar branches.  Their bodies name [currentOffset],
    the variable, so they take its content [cur] as an argument. *)

Definition number_setter (cur : Z) (v : value) : M unit := setFloat64 cur v.
Definition number_getter (cur : Z) : M value :=
  let* bits := getFloat64 cur in ret (VNumber bits).

Definition string_setter (cur : Z) (v : value) : M unit :=
  let* s := lift (encoder_input v) in
  let b := TextEncoder_encode s in
  setUint32 cur (byteLength b) ;;
  new_typed_array Uint8Array (cur + 4) (byteLength b) ;;
  store_bytes (cur + 4) b.
Definition string_getter (cur : Z) : M value :=
  let* len := getUint32 cur in
  new_typed_array Uint8Array (cur + 4) len ;;
  fun w => (Normal (VString (TextDecoder_decode (read_bytes (sab w) (cur + 4) (Z.to_nat len)))), w).

Definition boolean_setter (cur : Z) (v : value) : M unit :=
  setUint8 cur (if ToBoolean v then 1 else 0).
Definition boolean_getter (cur : Z) : M value :=
  let* x := getUint8 cur in ret (VBoolean (negb (x =? 0))).

Definition bigint_setter (cur : Z) (v : value) : M unit := setBigInt64 cur v.
Definition bigint_getter (cur : Z) : M value :=
  let* z := getBigInt64 cur in ret (VBigInt z).

Definition date_setter (cur : Z) (v : value) : M unit :=
  match v with
  | VDate _ (Some t) => setBigInt64 cur (VBigInt t)
  | VDate _ None => throw RangeError
  | _ => throw TypeError
  end.
Definition date_getter (cur : Z) : M value :=
  let* z := getBigInt64 cur in new_Date z.

Definition typed_array_setter (type : TypedArrayType) (cur : Z) (v : value) : M unit :=
  let* len := lift (length_of v) in
  setUint32_value cur len ;;
  let* n := typed_array_over type (cur + 4) len in
  let* elems := lift (set_elements type v) in
  if n <? Z.of_nat (length elems) then throw RangeError
  else store_bytes (cur + 4) (element_bytes type elems).
Definition typed_array_getter (type : TypedArrayType) (cur : Z) : M value :=
  let* len := getUint32 cur in
  new_TypedArray type (cur + 4) len.

(** The closures of the array and object branches use the constant
    [offset] of their own call. *)

Definition array_setter (offset : Z) (_ : Z) (v : value) : M unit :=
  let* len := lift (length_of v) in
  setUint32_value offset len.
Definition array_getter (offset : Z) (_ : Z) : M value :=
  let* len := getUint32 offset in new_Array len.

Definition object_setter (_ : Z) (_ : value) : M unit := ret tt.
Definition object_getter (_ : Z) : M value := new_Object.

Definition with_byteSize (d : Descriptor) (n : Z) : Descriptor :=
  {| d_type := d_type d; d_byteOffset := d_byteOffset d; d_byteSize := n;
     d_dataType := d_dataType d; d_children := d_children d; d_length := d_length d |}.

(** The branch of [inferDescriptor] for a scalar: index the path, push the
    template, then move [currentOffset] past the field. *)
Definition infer_scalar (dataType : PrimitiveType) (size : Z)
    (set : Z -> value -> M unit) (get : Z -> M value)
    (path : string) (st : InferState) : Descriptor * InferState :=
  let st := flatIndex_set path (currentOffset st) (PrimitiveType_name dataType) st in
  let st := encodingTemplate_push
              {| t_offset := currentOffset st; t_type := path; t_size := size;
                 setter := set; getter := get |} st in
  let offset := currentOffset st in
  let st := advance size st in
  (primitive dataType offset size, st).

Fixpoint inferDescriptor (v : value) (path : string) (st : InferState) {struct v}
  : Descriptor * InferState :=
  match v with
  | VNull => (primitive TNull (currentOffset st) 0, st)
  | VUndefined => (primitive TUndefined (currentOffset st) 0, st)
  | VNumber _ => infer_scalar TNumber 8 number_setter number_getter path st
  | VString s =>
      let bytes := TextEncoder_encode s in
      infer_scalar TString (4 + byteLength bytes) string_setter string_getter path st
  | VBoolean _ => infer_scalar TBoolean 1 boolean_setter boolean_getter path st
  | VBigInt _ => infer_scalar TBigInt 8 bigint_setter bigint_getter path st
  | VDate _ _ => infer_scalar TDate 8 date_setter date_getter path st
  | VTypedArray _ type elems =>
      let len := Z.of_nat (length elems) in
      let size := 4 + len * getTypedArrayByteSize type in
      let st := flatIndex_set path (currentOffset st) (TypedArrayType_name type) st in
      let st := encodingTemplate_push
                  {| t_offset := currentOffset st; t_type := path; t_size := size;
                     setter := typed_array_setter type;
                     getter := typed_array_getter type |} st in
      let st := typedArrayViews_set path
                  {| tv_type := type; tv_offset := currentOffset st; tv_length := len |} st in
      let offset := currentOffset st in
      let st := advance size st in
      ({| d_type := TypedArray; d_byteOffset := offset; d_byteSize := size;
          d_dataType := Some (OfTypedArray type); d_children := None;
          d_length := Some len |}, st)
  | VArray _ items _ =>
      let offset := currentOffset st in
      let st := advance 4 st in
      let '(child, st) :=
        match items with
        | [] => (primitive TNull 0 0, st)
        | first :: rest =>
            let '(child, st) :=
              match first with
              | Some x => inferDescriptor x (path +:+ "[]") st
              | None => (primitive TUndefined (currentOffset st) 0, st)
              end in
            (fix loop (its : list (option value)) (i : nat)
                 (child : Descriptor) (st : InferState) {struct its}
               : Descriptor * InferState :=
               match its with
               | [] => (child, st)
               | it :: its' =>
                   let '(itemDesc, st) :=
                     match it with
                     | Some x =>
                         inferDescriptor x (path +:+ "[" +:+ decimal (N.of_nat i) +:+ "]") st
                     | None => (primitive TUndefined (currentOffset st) 0, st)
                     end in
                   loop its' (S i)
                        (with_byteSize child (Z.max (d_byteSize child) (d_byteSize itemDesc)))
                        st
               end) rest 1%nat child st
        end in
      let len := Z.of_nat (length items) in
      let st := flatIndex_set path offset "Array" st in
      let st := encodingTemplate_push
                  {| t_offset := offset; t_type := path;
                     t_size := 4 + len * d_byteSize child;
                     setter := array_setter offset; getter := array_getter offset |} st in
      ({| d_type := Array; d_byteOffset := offset;
          d_byteSize := 4 + len * d_byteSize child;
          d_dataType := None; d_children := Some [("[]", child)];
          d_length := Some len |}, st)
  | VObject _ props =>
      let offset := currentOffset st in
      let '(children, byteSize, st) :=
        (fix loop (ps : list (string * value)) (children : list (string * Descriptor))
             (byteSize : Z) (st : InferState) {struct ps}
           : list (string * Descriptor) * Z * InferState :=
           match ps with
           | [] => (children, byteSize, st)
           | (key, val) :: ps' =>
               let childPath := if String.eqb path "" then key else path +:+ "." +:+ key in
               let '(child, st) := inferDescriptor val childPath st in
               loop ps' (entries_set key child children)
                    (Z.max byteSize (d_byteOffset child + d_byteSize child - offset)) st
           end) props [] 0 st in
      let st := flatIndex_set path offset "Object" st in
      let st := encodingTemplate_push
                  {| t_offset := offset; t_type := path; t_size := byteSize;
                     setter := object_setter; getter := object_getter |} st in
      ({| d_type := Object; d_byteOffset := offset; d_byteSize := byteSize;
          d_dataType := None; d_children := Some children; d_length := None |}, st)
  end.

Definition inferSchema (data : value) : Schema :=
  let st := {| currentOffset := 8; st_flatIndex := ∅;
               st_encodingTemplate := []; st_typedArrayViews := ∅ |} in
  let '(descriptorTree, st) := inferDescriptor data "" st in
  {| descriptorTree := descriptorTree;
     byteSize := Z.max (currentOffset st) 8;
     flatIndex := st_flatIndex st;
     encodingTemplate := st_encodingTemplate st;
     typedArrayViews := st_typedArrayViews st;
     currentOffset_var := currentOffset st |}.

(** ** schema-compiler.ts *)

(** [if (offset < 0 || offset >= dv.byteLength) throw ...] *)
Definition offset_check (offset : Z) : M unit :=
  fun w => if (offset <? 0) || (byteLength (sab w) <=? offset)
           then (Throw (InvalidOffset offset), w) else (Normal tt, w).

(** [if (limit > dv.byteLength) throw e] *)
Definition exceeds_check (limit : Z) (e : error) : M unit :=
  fun w => if byteLength (sab w) <? limit then (Throw e, w) else (Normal tt, w).

Definition getValueByPath (data : value) (path : string) : value :=
  (fix walk (parts : list string) (current : value) : value :=
     match parts with
     | [] => current
     | part :: parts' =>
         match optional_get current part with
         | VUndefined => VUndefined
         | next => walk parts' next
         end
     end) (path_parts path) data.

Definition readPrimitive (offset : Z) (dataType : DataType) : M value :=
  offset_check offset ;;
  match dataType with
  | OfPrimitive TNumber => let* bits := getFloat64 offset in ret (VNumber bits)
  | OfPrimitive TString =>
      let* len := getUint32 offset in
      exceeds_check (offset + 4 + len) StringExceedsBuffer ;;
      new_typed_array Uint8Array (offset + 4) len ;;
      fun w => (Normal (VString (TextDecoder_decode
                                   (read_bytes (sab w) (offset + 4) (Z.to_nat len)))), w)
  | OfPrimitive TBoolean => let* x := getUint8 offset in ret (VBoolean (negb (x =? 0)))
  | OfPrimitive TBigInt => let* z := getBigInt64 offset in ret (VBigInt z)
  | OfPrimitive TDate => let* z := getBigInt64 offset in new_Date z
  | OfPrimitive TNull => ret VNull
  | OfPrimitive TUndefined => ret VUndefined
  | OfTypedArray _ => throw UnsupportedPrimitive
  end.

Definition child_path (path key : string) : string :=
  if String.eqb path "" then key else path +:+ "." +:+ key.

Definition index_path (path : string) (i : nat) : string :=
  path +:+ "[" +:+ decimal (N.of_nat i) +:+ "]".

(** [traverseDescriptor] fills the object it is given; the filled object is
    returned here.  Assigning the result of a nested call back into its
    parent stands for the mutation in place. *)
Fixpoint traverseDescriptor (descriptor : Descriptor) (offset : Z) (result : value)
    (path : string) {struct descriptor} : M value :=
  let below :=
    match d_children descriptor with
    | Some children => map (fun '(key, child) => (key, (child, traverseDescriptor child))) children
    | None => []
    end in
  offset_check offset ;;
  match d_type descriptor with
  | Primitive =>
      match d_dataType descriptor with
      | None => throw MissingDataType
      | Some dataType =>
          let* x := readPrimitive offset dataType in
          lift (set_property result (last_segment path) x)
      end
  | Object =>
      (fix each (entries : list (string * (Descriptor * (Z -> value -> string -> M value))))
           (result : value) {struct entries} : M value :=
         match entries with
         | [] => ret result
         | (key, (child, traverse_child)) :: entries' =>
             let newPath := child_path path key in
             let* fresh := new_Object in
             let* result := lift (set_property result key fresh) in
             let* filled := traverse_child (offset + d_byteOffset child) (get result key) newPath in
             let* result := lift (set_property result key filled) in
             each entries' result
         end) below result
  | Array =>
      let* len := getUint32 offset in
      match entries_get "[]" below with
      | None => throw TypeError
      | Some (child, traverse_child) =>
          exceeds_check (offset + 4 + len * d_byteSize child) ArrayExceedsBuffer ;;
          let* arr := new_Array len in
          let* result := lift (set_property result (last_segment path) arr) in
          let* filled :=
            (fix each (n : nat) (i : nat) (arr : value) {struct n} : M value :=
               match n with
               | O => ret arr
               | S n' =>
                   let* arr := traverse_child (offset + 4 + Z.of_nat i * d_byteSize child)
                                 arr (index_path path i) in
                   each n' (S i) arr
               end) (Z.to_nat len) O (get result (last_segment path)) in
          lift (set_property result (last_segment path) filled)
      end
  | TypedArray =>
      match d_dataType descriptor with
      | Some (OfTypedArray type) =>
          let* len := getUint32 offset in
          exceeds_check (offset + 4 + len * getTypedArrayByteSize type) TypedArrayExceedsBuffer ;;
          let* ta := new_TypedArray type (offset + 4) len in
          lift (set_property result (last_segment path) ta)
      | _ => throw InvalidTypedArrayType
      end
  end.

(** [oldValue || {}]: the operand itself when it is truthy, else a new
    object with no property; the code looks only at its keys. *)
Definition or_empty (v : value) : value :=
  if ToBoolean v then v else VObject 0 [].

(** [oldValue || []]: the operand itself when it is truthy, else a new
    array with no element; the code looks only at its length and its
    elements. *)
Definition or_empty_array (v : value) : value :=
  if ToBoolean v then v else VArray 0 [] [].

(** A JavaScript [Set] of strings, in insertion order. *)
Definition Set_add (s : list string) (x : string) : list string :=
  if existsb (String.eqb x) s then s else s ++ [x].

Definition Set_from (xs : list string) : list string := fold_left Set_add xs [].

(** The number of rounds of [for (let i = 0; i < a.length; i++)]: the
    length of an array, a typed array or a string; for any other value the
    least integer not below its own property [length], and none when that
    is [undefined] or NaN.  A [length] that is neither a number nor absent
    can only be an own property of a plain object; it is read as absent,
    and so is an infinite one, with which the loop would not end. *)
Definition rounds (v : value) : option nat :=
  match v with
  | VArray _ items _ => Some (length items)
  | VTypedArray _ _ elems => Some (length elems)
  | VString s => Some (Z.to_nat (string_length s))
  | _ =>
      match get v "length" with
      | VNumber bits =>
          if is_nan bits then None
          else if is_negative bits then Some O
          else match number_trunc bits with
               | Some n => Some (Z.to_nat (if has_fraction bits then n + 1 else n))
               | None => None
               end
      | _ => None
      end
  end.

(** [Math.max(a.length, b.length)] as a number of rounds. *)
Definition max_length (a b : value) : nat :=
  match rounds a, rounds b with
  | Some n, Some m => Nat.max n m
  | _, _ => O
  end.

Definition replace_patch (path : string) (newValue : value) : Patch :=
  {| op := op_replace; path := path; p_value := newValue |}.

(** [compareValues] of the compiled [diff]; [patches] is the array it
    pushes to.  Every Array descriptor that [inferSchema] makes has its
    element descriptor [children['[]']]; for a descriptor without one,
    where the code would fail on the first pair of elements that differ,
    the patches are returned as they are. *)
Fixpoint compareValues (descriptor : Descriptor) (path : string) (oldValue newValue : value)
    (patches : list Patch) {struct descriptor} : list Patch :=
  let below :=
    match d_children descriptor with
    | Some children => map (fun '(key, child) => (key, compareValues child)) children
    | None => []
    end in
  if strict_equals oldValue newValue then patches
  else
    match d_type descriptor with
    | Primitive | TypedArray => patches ++ [replace_patch path newValue]
    | Object =>
        let oldKeys := Object_keys (or_empty oldValue) in
        let newKeys := Object_keys (or_empty newValue) in
        let allKeys := Set_from (oldKeys ++ newKeys) in
        fold_left
          (fun patches key =>
             match entries_get key below with
             | None => patches
             | Some compare_child =>
                 compare_child (child_path path key)
                               (optional_get oldValue key) (optional_get newValue key) patches
             end)
          allKeys patches
    | Array =>
        let oldArray := or_empty_array oldValue in
        let newArray := or_empty_array newValue in
        let len := max_length oldArray newArray in
        match entries_get "[]" below with
        | None => patches
        | Some compare_child =>
            fold_left
              (fun patches i =>
                 compare_child (index_path path i)
                               (get oldArray (decimal (N.of_nat i)))
                               (get newArray (decimal (N.of_nat i))) patches)
              (seq 0 len) patches
        end
    end.

Definition decode (schema : Schema) : M value :=
  let* result := new_Object in
  traverseDescriptor (descriptorTree schema) 0 result "".

(** [compileFunctions(schema).encode]; [dirtyFields] is [None] when the
    argument is left out. *)
Definition encode (schema : Schema) (data : value) (dirtyFields : option (gset string))
  : M unit :=
  for_each (encodingTemplate schema)
    (fun entry =>
       let skip := match dirtyFields with
                   | Some dirty => negb (bool_decide (t_type entry ∈ dirty))
                   | None => false
                   end in
       if skip then ret tt
       else
         match getValueByPath data (t_type entry) with
         | VUndefined => throw (MissingValue (t_type entry))
         | v => setter entry (currentOffset_var schema) v
         end).

(** [compileFunctions(schema).set].  The template is searched by comparing
    its [type], which holds a path, with the [type] of the index entry. *)
Definition set (schema : Schema) (path : string) (v : value) : M unit :=
  match flatIndex schema !! path with
  | None => throw (InvalidPath path)
  | Some entry =>
      match List.find (fun t => String.eqb (t_type t) (fi_type entry)) (encodingTemplate schema) with
      | None => throw (NoTemplate path)
      | Some template => setter template (currentOffset_var schema) v
      end
  end.

Definition compiled_diff (schema : Schema) (newData : value) : M (list Patch) :=
  let* oldData := decode schema in
  ret (compareValues (descriptorTree schema) "" oldData newData []).

Definition compiled_applyPatch (schema : Schema) (patch : Patch) : M unit :=
  set schema (path patch) (p_value patch).

(** ** view-core *)

(** A view.  Its compiled functions are those of [compileFunctions schema]
    above.  The two callbacks are code of the caller: they see their
    argument and may throw. *)
Record View : Type := {
  mutable : bool;
  schema : Schema;
  view_byteSize : Z;
  onDiff : option (list Patch -> outcome unit);
  beforePatch : option (Patch -> outcome unit)
}.

(** [new View(data, options)]; [options.mutable ?? false] *)
Definition createView (data : value) (options : ViewOptions) : View :=
  let schema := inferSchema data in
  {| mutable := default false (opt_mutable options);
     schema := schema;
     view_byteSize := byteSize schema;
     onDiff := None;
     beforePatch := None |}.

Definition setOnDiff (callback : list Patch -> outcome unit) (view : View) : View :=
  {| mutable := mutable view; schema := schema view; view_byteSize := view_byteSize view;
     onDiff := Some callback; beforePatch := beforePatch view |}.

Definition setBeforePatch (callback : Patch -> outcome unit) (view : View) : View :=
  {| mutable := mutable view; schema := schema view; view_byteSize := view_byteSize view;
     onDiff := onDiff view; beforePatch := Some callback |}.

(** [if (sab.byteLength < this.schema.byteSize) throw ...] *)
Definition size_check (view : View) : M unit :=
  fun w => if byteLength (sab w) <? byteSize (schema view)
           then (Throw (BufferTooSmall (byteLength (sab w)) (byteSize (schema view))), w)
           else (Normal tt, w).

Definition getDescriptor (view : View) (path : string) : outcome Descriptor :=
  (fix walk (parts : list string) (current : Descriptor) : outcome Descriptor :=
     match parts with
     | [] => Normal current
     | part :: parts' =>
         match d_type current, d_children current with
         | Object, Some children =>
             match entries_get part children with
             | Some child => walk parts' child
             | None => Throw (InvalidPathSegment part)
             end
         | Array, children =>
             match ToNumber (VString part) with
             | Throw e => Throw e
             | Normal bits =>
                 if is_nan bits then Throw (InvalidPathSegment part)
                 else
                   match children with
                   | None => Throw TypeError
                   | Some children =>
                       match entries_get "[]" children with
                       | Some child => walk parts' child
                       | None => Throw (InvalidArrayIndex part)
                       end
                   end
             end
         | _, _ => Throw (InvalidPathSegment part)
         end
     end) (path_parts path) (descriptorTree (schema view)).

Fixpoint readValue (descriptor : Descriptor) (offset : Z) {struct descriptor} : M value :=
  let below :=
    match d_children descriptor with
    | Some children => map (fun '(key, child) => (key, (child, readValue child))) children
    | None => []
    end in
  offset_check offset ;;
  match d_type descriptor with
  | Primitive =>
      match d_dataType descriptor with
      | None => throw MissingDataType
      | Some (OfPrimitive TNumber) => let* bits := getFloat64 offset in ret (VNumber bits)
      | Some (OfPrimitive TString) =>
          let* len := getUint32 offset in
          exceeds_check (offset + 4 + len) StringExceedsBuffer ;;
          new_typed_array Uint8Array (offset + 4) len ;;
          fun w => (Normal (VString (TextDecoder_decode
                                       (read_bytes (sab w) (offset + 4) (Z.to_nat len)))), w)
      | Some (OfPrimitive TBoolean) =>
          let* x := getUint8 offset in ret (VBoolean (negb (x =? 0)))
      | Some (OfPrimitive TBigInt) => let* z := getBigInt64 offset in ret (VBigInt z)
      | Some (OfPrimitive TDate) => let* z := getBigInt64 offset in new_Date z
      | Some (OfPrimitive TNull) => ret VNull
      | Some (OfPrimitive TUndefined) => ret VUndefined
      | Some (OfTypedArray _) => throw UnsupportedPrimitive
      end
  | Object =>
      let* result := new_Object in
      (fix each (entries : list (string * (Descriptor * (Z -> M value))))
           (result : value) {struct entries} : M value :=
         match entries with
         | [] => ret result
         | (key, (child, read_child)) :: entries' =>
             let* x := read_child (offset + d_byteOffset child) in
             let* result := lift (set_property result key x) in
             each entries' result
         end) below result
  | Array =>
      let* len := getUint32 offset in
      match entries_get "[]" below with
      | None => throw TypeError
      | Some (child, read_child) =>
          exceeds_check (offset + 4 + len * d_byteSize child) ArrayExceedsBuffer ;;
          let* result := new_Array len in
          (fix each (n : nat) (i : nat) (result : value) {struct n} : M value :=
             match n with
             | O => ret result
             | S n' =>
                 let* x := read_child (offset + 4 + Z.of_nat i * d_byteSize child) in
                 let* result := lift (set_property result (decimal (N.of_nat i)) x) in
                 each n' (S i) result
             end) (Z.to_nat len) O result
      end
  | TypedArray =>
      match d_dataType descriptor with
      | Some (OfTypedArray type) =>
          let* len := getUint32 offset in
          exceeds_check (offset + 4 + len * getTypedArrayByteSize type) TypedArrayExceedsBuffer ;;
          new_TypedArray type (offset + 4) len
      | _ => throw InvalidTypedArrayType
      end
  end.

(** ** view-encode-decode *)

(** [Atomics.add(new Int32Array(sab, 0, 1), 0, 1)]: one indivisible
    read-modify-write of the first four bytes. *)
Definition Atomics_add_version : M unit :=
  new_typed_array Int32Array 0 1 ;;
  fun w => (Normal tt,
            World (write_bytes (sab w) 0 (le_bytes 4 (le_value (read_bytes (sab w) 0 4) + 1)))
                  (heap w)).

Definition View_encode (view : View) (data : value) : M unit :=
  size_check view ;;
  (fun w => if negb (mutable view) && negb (byteSize (schema view) =? byteLength (sab w))
            then (Throw ImmutableSizeMismatch, w) else (Normal tt, w)) ;;
  (if hasUndefined data then throw UndefinedNotAllowed else ret tt) ;;
  encode (schema view) data (Some ∅) ;;
  Atomics_add_version.

Definition View_decode (view : View) : M value :=
  size_check view ;;
  decode (schema view).

Definition View_decodePartial (view : View) (path : string) : M value :=
  size_check view ;;
  match flatIndex (schema view) !! path with
  | None => throw (InvalidPath path)
  | Some entry =>
      let* descriptor := lift (getDescriptor view path) in
      readValue descriptor (fi_offset entry)
  end.

(** ** view-mutations *)

Definition mutable_check (view : View) : M unit :=
  if mutable view then ret tt else throw CannotMutateImmutable.

Definition View_set (view : View) (path : string) (v : value) : M unit :=
  mutable_check view ;;
  size_check view ;;
  set (schema view) path v ;;
  Atomics_add_version.

Definition View_bulkSet (view : View) (pathsAndValues : list (string * value)) : M unit :=
  mutable_check view ;;
  size_check view ;;
  for_each pathsAndValues (fun '(path, v) => set (schema view) path v) ;;
  Atomics_add_version.

(** [{...current, ...partial}] *)
Definition spread (sources : list value) : M value :=
  let* r := alloc in
  ret (VObject r
         (fold_left (fun props source =>
                       fold_left (fun props key => props_set key (get source key) props)
                                 (Object_keys source) props)
                    sources [])).

Definition View_patch (view : View) (path : string) (partial : value) : M unit :=
  mutable_check view ;;
  size_check view ;;
  let* current := View_decodePartial view path in
  let* updated := spread [current; partial] in
  View_set view path updated.

(** ** view-accessors *)

Definition View_getTypedArray (view : View) (path : string) : M value :=
  size_check view ;;
  match typedArrayViews (schema view) !! path with
  | None => throw (NoTypedArrayAt path)
  | Some v => new_TypedArray (tv_type v) (tv_offset v + 4) (tv_length v)
  end.

Definition View_schemaUpdate (view : View) (path : string) (v : value) : M unit :=
  (if mutable view then ret tt else throw CannotUpdateImmutable) ;;
  size_check view ;;
  View_set view path v.

(** ** schema-diff-patch.ts *)

(** The inner function [compare] of [diff]; [patches] is the array it
    pushes to.  As in [compareValues], an Array descriptor without an
    element descriptor, which [inferSchema] never makes, returns the
    patches as they are. *)
Fixpoint compare (desc : Descriptor) (path : string) (oldValue newValue : value)
    (patches : list Patch) {struct desc} : list Patch :=
  let below :=
    match d_children desc with
    | Some children => map (fun '(key, child) => (key, compare child)) children
    | None => []
    end in
  if strict_equals oldValue newValue then patches
  else
    match d_type desc with
    | Primitive | TypedArray => patches ++ [replace_patch path newValue]
    | Object =>
        let oldKeys := Object_keys (or_empty oldValue) in
        let newKeys := Object_keys (or_empty newValue) in
        let allKeys := Set_from (oldKeys ++ newKeys) in
        fold_left
          (fun patches key =>
             match entries_get key below with
             | None => patches
             | Some compare_child =>
                 compare_child (child_path path key)
                               (optional_get oldValue key) (optional_get newValue key) patches
             end)
          allKeys patches
    | Array =>
        let oldArray := or_empty_array oldValue in
        let newArray := or_empty_array newValue in
        let len := max_length oldArray newArray in
        match entries_get "[]" below with
        | None => patches
        | Some compare_child =>
            fold_left
              (fun patches i =>
                 compare_child (index_path path i)
                               (get oldArray (decimal (N.of_nat i)))
                               (get newArray (decimal (N.of_nat i))) patches)
              (seq 0 len) patches
        end
    end.

Definition call {A} (callback : option (A -> outcome unit)) (a : A) : M unit :=
  match callback with
  | Some f => lift (f a)
  | None => ret tt
  end.

Definition diff (view : View) (newData : value) : M (list Patch) :=
  size_check view ;;
  let* oldData := View_decode view in
  let patches := compare (descriptorTree (schema view)) "" oldData newData [] in
  call (onDiff view) patches ;;
  ret patches.

Definition applyPatch (view : View) (patch : Patch) : M unit :=
  (if mutable view then ret tt else throw CannotPatchImmutable) ;;
  size_check view ;;
  call (beforePatch view) patch ;;
  match op patch with
  | op_replace | op_add => View_set view (path patch) (p_value patch)
  | op_remove => View_set view (path patch) VUndefined
  | op_other name => throw (UnsupportedPatchOperation name)
  end.

End Library.

(** ** view-sync.ts

    The bookkeeping of a [ViewSync] handle: its entry in the registry, the
    request for the next run of [poll], and the references it holds.  What
    [poll] does between reading the version and requesting its next run
    (decoding, merging into the bound object, the callbacks) works on the
    segment and on the bound object and is not part of this model. *)

Record ViewSync : Type := {
  sync_view : View;
  sync_sab : N;
  boundVariable : option value;
  boundPaths : gset string;
  lastVersion : Z;
  onUpdate : option (value -> outcome unit);
  pollHandle : option N
}.

(** The state that the handles of one context share: the registry, the
    handles by identity, and the callbacks that the event loop has been
    asked to run, each with the handle whose [poll] it is. *)
Record Runtime : Type := {
  viewSyncRegistry : gmap N (gset N);
  instances : gmap N ViewSync;
  animationFrames : gmap N N;
  timeouts : gmap N N;
  next_request : N;
  has_requestAnimationFrame : bool;
  has_cancelAnimationFrame : bool
}.

Definition with_instance (h : N) (this : ViewSync) (rt : Runtime) : Runtime :=
  {| viewSyncRegistry := viewSyncRegistry rt;
     instances := <[h := this]> (instances rt);
     animationFrames := animationFrames rt;
     timeouts := timeouts rt;
     next_request := next_request rt;
     has_requestAnimationFrame := has_requestAnimationFrame rt;
     has_cancelAnimationFrame := has_cancelAnimationFrame rt |}.

Definition with_registry (registry : gmap N (gset N)) (rt : Runtime) : Runtime :=
  {| viewSyncRegistry := registry;
     instances := instances rt;
     animationFrames := animationFrames rt;
     timeouts := timeouts rt;
     next_request := next_request rt;
     has_requestAnimationFrame := has_requestAnimationFrame rt;
     has_cancelAnimationFrame := has_cancelAnimationFrame rt |}.

Definition with_pollHandle (handle : option N) (this : ViewSync) : ViewSync :=
  {| sync_view := sync_view this; sync_sab := sync_sab this;
     boundVariable := boundVariable this; boundPaths := boundPaths this;
     lastVersion := lastVersion this; onUpdate := onUpdate this;
     pollHandle := handle |}.

(** [requestAnimationFrame(poll)] and [setTimeout(poll, intervalMs)] return
    the identifier of the request. *)
Definition requestAnimationFrame (h : N) (rt : Runtime) : N * Runtime :=
  (next_request rt,
   {| viewSyncRegistry := viewSyncRegistry rt;
      instances := instances rt;
      animationFrames := <[next_request rt := h]> (animationFrames rt);
      timeouts := timeouts rt;
      next_request := N.succ (next_request rt);
      has_requestAnimationFrame := has_requestAnimationFrame rt;
      has_cancelAnimationFrame := has_cancelAnimationFrame rt |}).

Definition setTimeout (h : N) (rt : Runtime) : N * Runtime :=
  (next_request rt,
   {| viewSyncRegistry := viewSyncRegistry rt;
      instances := instances rt;
      animationFrames := animationFrames rt;
      timeouts := <[next_request rt := h]> (timeouts rt);
      next_request := N.succ (next_request rt);
      has_requestAnimationFrame := has_requestAnimationFrame rt;
      has_cancelAnimationFrame := has_cancelAnimationFrame rt |}).

Definition cancelAnimationFrame (id : N) (rt : Runtime) : Runtime :=
  {| viewSyncRegistry := viewSyncRegistry rt;
     instances := instances rt;
     animationFrames := delete id (animationFrames rt);
     timeouts := timeouts rt;
     next_request := next_request rt;
     has_requestAnimationFrame := has_requestAnimationFrame rt;
     has_cancelAnimationFrame := has_cancelAnimationFrame rt |}.

Definition clearTimeout (id : N) (rt : Runtime) : Runtime :=
  {| viewSyncRegistry := viewSyncRegistry rt;
     instances := instances rt;
     animationFrames := animationFrames rt;
     timeouts := delete id (timeouts rt);
     next_request := next_request rt;
     has_requestAnimationFrame := has_requestAnimationFrame rt;
     has_cancelAnimationFrame := has_cancelAnimationFrame rt |}.

(** The last statement of [poll]:
    [this.pollHandle = typeof requestAnimationFrame !== 'undefined'
       ? requestAnimationFrame(poll) : setTimeout(poll, intervalMs)]. *)
Definition poll_again (h : N) (rt : Runtime) : Runtime :=
  match instances rt !! h with
  | None => rt
  | Some _ =>
      let '(id, rt) := if has_requestAnimationFrame rt then requestAnimationFrame h rt
                       else setTimeout h rt in
      match instances rt !! h with
      | None => rt
      | Some this => with_instance h (with_pollHandle (Some id) this) rt
      end
  end.

(** The event loop runs the request [id]: it leaves the pending requests
    and [poll] runs to its last statement. *)
Definition poll_runs (id : N) (rt : Runtime) : Runtime :=
  match animationFrames rt !! id, timeouts rt !! id with
  | Some h, _ => poll_again h (cancelAnimationFrame id rt)
  | None, Some h => poll_again h (clearTimeout id rt)
  | None, None => rt
  end.


Definition ViewSync_destroy (h : N) (rt : Runtime) : Runtime :=
  match instances rt !! h with
  | None => rt
  | Some this =>
      let rt :=
        match pollHandle this with
        | Some id =>
            if has_cancelAnimationFrame rt then cancelAnimationFrame id rt
            else clearTimeout id rt
        | None => rt
        end in
      let registry :=
        match viewSyncRegistry rt !! sync_sab this with
        | Some handles => <[sync_sab this := handles ∖ {[h]}]> (viewSyncRegistry rt)
        | None => viewSyncRegistry rt
        end in
      let rt := with_registry registry rt in
      with_instance h
        {| sync_view := sync_view this; sync_sab := sync_sab this;
           boundVariable := None; boundPaths := boundPaths this;
           lastVersion := lastVersion this; onUpdate := None;
           pollHandle := None |} rt
  end.

(** The requests of the kind that [poll] makes in this context. *)
Definition poll_requests (rt : Runtime) : gmap N N :=
  if has_requestAnimationFrame rt then animationFrames rt else timeouts rt.

(** The requests of the other kind. *)
Definition other_requests (rt : Runtime) : gmap N N :=
  if has_requestAnimationFrame rt then timeouts rt else animationFrames rt.

(** The context has both of [requestAnimationFrame] and
    [cancelAnimationFrame] or neither, and every pending request for the
    [poll] of [h] is of the kind that [poll] makes and is the one that
    [pollHandle] names. *)
Definition poll_tracked (h : N) (rt : Runtime) : Prop :=
  has_requestAnimationFrame rt = has_cancelAnimationFrame rt /\
  (forall id, other_requests rt !! id <> Some h) /\
  (forall id, poll_requests rt !! id = Some h ->
     exists this, instances rt !! h = Some this /\ pollHandle this = Some id).

(** Request identifiers are handed out in increasing order. *)
Definition requests_below (rt : Runtime) : Prop :=
  forall id, is_Some (animationFrames rt !! id) \/ is_Some (timeouts rt !! id) ->
             (id < next_request rt)%N.

(** No request for the [poll] of [h] is pending. *)
Definition no_requests (h : N) (rt : Runtime) : Prop :=
  forall id, animationFrames rt !! id <> Some h /\ timeouts rt !! id <> Some h.

(** ** The vocabulary of the properties *)

(** The version counter: bytes 0 to 3 read as an unsigned integer. *)
Definition version (w : world) : Z := le_value (read_bytes (sab w) 0 4).

(** The bytes of the segment from [off] (included) to [off + n]. *)
Definition bytes_at (w : world) (off : Z) (n : nat) : list Z := read_bytes (sab w) off n.


(** Each string of the list once, in the order of first occurrence. *)
Fixpoint first_occurrences (keys : list string) : list string :=
  match keys with
  | [] => []
  | k :: keys' => k :: filter (fun k' => k' ≠ k) (first_occurrences keys')
  end.

(** The keys of the old value first, then the keys that only the new value
    has, each once. *)
Definition union_keys (oldKeys newKeys : list string) : list string :=
  first_occurrences oldKeys ++ filter (fun k => k ∉ oldKeys) (first_occurrences newKeys).

(** The patches of a pre-order walk of the descriptor tree, as section 4.3
    of the specification words it: nothing below a node whose two values
    are identical; one [replace] with the whole new value at a leaf; at an
    object the keys of [union_keys] that the descriptor has; at an array
    the indices below the greater length, all with the one element
    descriptor. *)
Fixpoint walk (desc : Descriptor) (path : string) (oldValue newValue : value)
    {struct desc} : list Patch :=
  let below :=
    match d_children desc with
    | Some children => map (fun '(key, child) => (key, walk child)) children
    | None => []
    end in
  if strict_equals oldValue newValue then []
  else
    match d_type desc with
    | Primitive | TypedArray => [replace_patch path newValue]
    | Object =>
        flat_map
          (fun key =>
             match entries_get key below with
             | Some walk_child =>
                 walk_child (child_path path key)
                            (optional_get oldValue key) (optional_get newValue key)
             | None => []
             end)
          (union_keys (Object_keys (or_empty oldValue)) (Object_keys (or_empty newValue)))
    | Array =>
        match entries_get "[]" below with
        | Some walk_element =>
            flat_map
              (fun i =>
                 walk_element (index_path path i)
                              (get (or_empty_array oldValue) (decimal (N.of_nat i)))
                              (get (or_empty_array newValue) (decimal (N.of_nat i))))
              (seq 0 (max_length (or_empty_array oldValue) (or_empty_array newValue)))
        | None => []
        end
    end.

(** [m] changes the bytes of the segment only within the relation [R]. *)
Definition preserves (R : list Z -> list Z -> Prop) {A} (m : M A) : Prop :=
  forall w r w', m w = (r, w') -> R (sab w) (sab w').

(** [m] writes nothing to the segment. *)
Definition read_only {A} (m : M A) : Prop := preserves eq m.

(** The eight bytes of the header and the length are the same. *)
Definition same_header (b b' : list Z) : Prop :=
  take 8 b' = take 8 b /\ length b' = length b.

Definition children_of (ch : option (list (string * Descriptor))) : list (string * Descriptor) :=
  match ch with
  | Some children => children
  | None => []
  end.

(** A closure made by [inferDescriptor] that, called with the cursor past
    the header, stays clear of the header. *)
Definition safe_setter (set : Z -> value -> M unit) : Prop :=
  forall cur v, 8 <= cur -> preserves same_header (set cur v).

(** The cursor is past the header and every template made so far has a
    setter that stays clear of it. *)
Definition good_state (st : InferState) : Prop :=
  8 <= currentOffset st /\ Forall (fun t => safe_setter (setter t)) (st_encodingTemplate st).

(** A run of [m] that returns has added one to the version, modulo
    [2^32]. *)
Definition bumps {A} (m : M A) : Prop :=
  forall w a w', m w = (Normal a, w') -> version w' = (version w + 1) mod 2 ^ 32.

(** ** Sample data *)

(** A platform to run the examples with; none of them reaches a conversion
    that the platform would have to supply. *)
Definition plain_platform : Platform :=
  {| ToNumber_other := fun _ => Normal nan_bits;
     ToString_other := fun _ => Normal "";
     ToBigInt_other := fun _ => Throw SyntaxError;
     set_elements_other := fun _ _ => Normal [] |}.

(** A segment of [n] zero bytes, as [new SharedArrayBuffer(n)] makes it. *)
Definition fresh_segment (n : nat) : world := World (replicate n 0) 1.

Definition number (z : Z) : value := VNumber (number_of_Z z).

(** [{ num: 42, str: 'hello' }] *)
Definition num_str : value := VObject 0 [("num", number 42); ("str", VString "hello")].

Definition mutable_options : ViewOptions :=
  {| opt_mutable := Some true; opt_exposedLowLevelApi := None |}.
Definition immutable_options : ViewOptions :=
  {| opt_mutable := Some false; opt_exposedLowLevelApi := None |}.

(** The views of the examples. *)
Definition num_str_view : View := createView plain_platform num_str mutable_options.
Definition readonly_view : View := createView plain_platform num_str immutable_options.

(** [{ Number: 1 }]: a field whose path reads like the name of its type. *)
Definition number_named : value := VObject 0 [("Number", number 1)].
Definition number_named_view : View :=
  createView plain_platform number_named mutable_options.

(** [{ Array: [] }] *)
Definition array_named : value := VObject 0 [("Array", VArray 1 [] [])].
Definition array_named_view : View :=
  createView plain_platform array_named mutable_options.

(** A context without animation frames (Node.js) in which nothing has
    happened yet. *)
Definition empty_runtime : Runtime :=
  {| viewSyncRegistry := ∅; instances := ∅; animationFrames := ∅; timeouts := ∅;
     next_request := 1; has_requestAnimationFrame := false;
     has_cancelAnimationFrame := false |}.

(** [schema.encodingTemplate[index].setter(dv, v)] and
    [schema.encodingTemplate[index].getter(dv)] *)
Definition template_set (s : Schema) (index : nat) (v : value) : M unit :=
  match encodingTemplate s !! index with
  | Some t => setter t (currentOffset_var s) v
  | None => throw TypeError
  end.

Definition template_get (s : Schema) (index : nat) : M value :=
  match encodingTemplate s !! index with
  | Some t => getter t (currentOffset_var s)
  | None => throw TypeError
  end.


Definition remove_patch (path : string) : Patch :=
  {| op := op_remove; path := path; p_value := VUndefined |}.

(** [{ a: [first, second] }]; [r] and [r + 1] are the identities of the
    object and of the array. *)
Definition pair_of (r : N) (first second : Z) : value :=
  VObject r [("a", VArray (r + 1) [Some (number first); Some (number second)] [])].

(** The view of [{ a: [1, 2] }]: the length of the array at byte 8, its
    elements at bytes 12 and 20. *)
Definition array_pair_view : View :=
  createView plain_platform (pair_of 0 1 2) mutable_options.

(** A segment of the 28 bytes of that view which holds the array
    [[first, second]]: a header of zeros, the length 2, the two numbers. *)
Definition holding_pair (first second : Z) : world :=
  World (replicate 8 0 ++ le_bytes 4 2 ++ le_bytes 8 (number_of_Z first)
           ++ le_bytes 8 (number_of_Z second)) 20.

(** A segment of the 25 bytes of [num_str_view] which holds the number 42
    and the string [hello]. *)
Definition holding_num_str : world :=
  World (replicate 8 0 ++ le_bytes 8 (number_of_Z 42) ++ le_bytes 4 5
           ++ TextEncoder_encode "hello") 20.

(** [{ num: 42, str: 'hello' }] once more: another object with the same
    properties. *)
Definition num_str_again : value := VObject 10 [("num", number 42); ("str", VString "hello")].

(** * The rest of the library

    The functions of the same files that the sections above leave out: the
    cache of [view-sync.ts], the low-level API of [view-core],
    [View.destroy], and the proxy of [ViewSync.bind]. *)

(** ** Further throw sites

    The messages of these functions that are not among those of [error];
    [Thrown] carries an error of the sections above. *)
Inductive thrown : Type :=
| Thrown (e : error)
| UnsupportedType (type : string)
| BufferTooSmallForVersion
| BufferTooSmallForSchemaId
| BufferTooSmallForTemplate
| InvalidTemplateIndex (index : Z)
| InvalidByteRange
| MaxSizeNotPositive
| UndefinedValuesNotAllowed
| NoBoundVariable.

Inductive result (A : Type) : Type :=
| Returned (a : A)
| Threw (e : thrown).
Arguments Returned {A} a.
Arguments Threw {A} e.

(** The monad [M] with the wider type of errors. *)
Definition L (A : Type) : Type := world -> result A * world.

Definition raise {A} (e : thrown) : L A := fun w => (Threw e, w).

Definition from_M {A} (m : M A) : L A :=
  fun w => match m w with
           | (Normal a, w') => (Returned a, w')
           | (Throw e, w') => (Threw (Thrown e), w')
           end.

Definition and_then {A B} (m : L A) (k : A -> L B) : L B :=
  fun w => match m w with
           | (Returned a, w') => k a w'
           | (Threw e, w') => (Threw e, w')
           end.

(** ** view-sync.ts: [LRUCache]

    A JavaScript [Map] is the list of its entries in insertion order; its
    keys are compared with [SameValueZero]. *)

(** [SameValueZero(a, b)]: [a === b], except that NaN is the same as
    itself. *)
Definition SameValueZero (a b : value) : bool :=
  match a, b with
  | VNumber x, VNumber y => (is_nan x && is_nan y) || number_equal x y
  | _, _ => strict_equals a b
  end.

(** The key that [Map.prototype.set] stores: [-0] becomes [+0]. *)
Definition Map_key (key : value) : value :=
  match key with
  | VNumber bits => if is_zero bits then VNumber 0 else key
  | _ => key
  end.

(** [map.get(key)] *)
Fixpoint Map_get (key : value) (m : list (value * value)) : value :=
  match m with
  | [] => VUndefined
  | (k, x) :: m' => if SameValueZero k key then x else Map_get key m'
  end.

(** [map.set(key, x)]: the entry of an existing key keeps its place. *)
Fixpoint Map_set (key x : value) (m : list (value * value)) : list (value * value) :=
  match m with
  | [] => [(Map_key key, x)]
  | (k, y) :: m' => if SameValueZero k key then (k, x) :: m' else (k, y) :: Map_set key x m'
  end.

(** [map.delete(key)] *)
Fixpoint Map_delete (key : value) (m : list (value * value)) : list (value * value) :=
  match m with
  | [] => []
  | (k, y) :: m' => if SameValueZero k key then m' else (k, y) :: Map_delete key m'
  end.

(** [map.keys().next().value] *)
Definition Map_first_key (m : list (value * value)) : value :=
  match m with
  | [] => VUndefined
  | (k, _) :: _ => k
  end.

(** [x <= 0] for a number [x]: false for NaN. *)
Definition number_le_zero (bits : Z) : bool :=
  negb (is_nan bits) && (is_zero bits || is_negative bits).

(** [n >= x] for an integer [n] and a number [x]: false for NaN; else [n]
    is compared with the least integer that is not below [x]. *)
Definition at_least (n : Z) (bits : Z) : bool :=
  if is_nan bits then false
  else
    match number_trunc bits with
    | None => is_negative bits
    | Some t => (if has_fraction bits && negb (is_negative bits) then t + 1 else t) <=? n
    end.

Record LRUCache : Type := {
  cache : list (value * value);
  maxSize : Z
}.

(** [new LRUCache(maxSize)]; [maxSize] is a number. *)
Definition LRUCache_new (maxSize : Z) : result LRUCache :=
  if number_le_zero maxSize then Threw MaxSizeNotPositive
  else Returned {| cache := []; maxSize := maxSize |}.

(** [cache.get(key)] returns the value and leaves the cache as the second
    component. *)
Definition LRUCache_get (key : value) (this : LRUCache) : value * LRUCache :=
  let v := Map_get key (cache this) in
  (v,
   if ToBoolean v
   then {| cache := Map_set key v (Map_delete key (cache this)); maxSize := maxSize this |}
   else this).

(** [cache.set(key, value)] *)
Definition LRUCache_set (key v : value) (this : LRUCache) : LRUCache :=
  let entries :=
    if at_least (Z.of_nat (length (cache this))) (maxSize this) then
      let firstKey := Map_first_key (cache this) in
      if negb (strict_equals firstKey VUndefined) then Map_delete firstKey (cache this)
      else cache this
    else cache this in
  {| cache := Map_set key v entries; maxSize := maxSize this |}.

(** ** view-core: the low-level API *)

Section LowLevel.

Context (P : Platform).

Definition ToUint8_number (bits : Z) : Z :=
  match number_trunc bits with
  | None => 0
  | Some z => z mod 2 ^ 8
  end.

(** [dv.setUint8(off, x)] for an operand that is a value. *)
Definition setUint8_value (off : Z) (x : value) : M unit :=
  ToIndex off ;;
  let* bits := lift (ToNumber P x) in
  store off 1 (ToUint8_number bits).

(** [BigInt(v)]: a number must be an integer; the time of a date is its
    primitive value; any other operand is converted as by [ToBigInt]. *)
Definition BigInt (v : value) : outcome Z :=
  match v with
  | VNumber bits =>
      match number_trunc bits with
      | Some z => if has_fraction bits then Throw RangeError else Normal z
      | None => Throw RangeError
      end
  | VDate _ (Some t) => Normal t
  | VDate _ None => Throw RangeError
  | _ => ToBigInt P v
  end.

(** The closures of [initLowLevelApi]; [sab] is the segment of the world. *)

Definition readRaw (offset : Z) (type : string) : L value :=
  and_then (from_M (offset_check offset)) (fun _ =>
    if String.eqb type "Uint8" then
      from_M (let* x := getUint8 offset in ret (VNumber (number_of_Z x)))
    else if String.eqb type "Uint32" then
      from_M (let* x := getUint32 offset in ret (VNumber (number_of_Z x)))
    else if String.eqb type "Float64" then
      from_M (let* bits := getFloat64 offset in ret (VNumber bits))
    else if String.eqb type "BigInt64" then
      from_M (let* z := getBigInt64 offset in ret (VBigInt z))
    else if String.eqb type "String" then
      from_M (let* len := getUint32 offset in
              exceeds_check (offset + 4 + len) StringExceedsBuffer ;;
              new_typed_array Uint8Array (offset + 4) len ;;
              fun w => (Normal (VString (TextDecoder_decode
                                           (read_bytes (sab w) (offset + 4) (Z.to_nat len)))), w))
    else raise (UnsupportedType type)).

Definition writeRaw (offset : Z) (type : string) (v : value) : L unit :=
  and_then (from_M (offset_check offset)) (fun _ =>
    if String.eqb type "Uint8" then from_M (setUint8_value offset v)
    else if String.eqb type "Uint32" then from_M (setUint32_value P offset v)
    else if String.eqb type "Float64" then from_M (setFloat64 P offset v)
    else if String.eqb type "BigInt64" then
      from_M (let* z := lift (BigInt v) in setBigInt64 P offset (VBigInt z))
    else if String.eqb type "String" then
      from_M (let* s := lift (encoder_input P v) in
              let bytes := TextEncoder_encode s in
              exceeds_check (offset + 4 + byteLength bytes) StringExceedsBuffer ;;
              setUint32 offset (byteLength bytes) ;;
              new_typed_array Uint8Array (offset + 4) (byteLength bytes) ;;
              store_bytes (offset + 4) bytes)
    else raise (UnsupportedType type)).

(** [Atomics.load(new Int32Array(sab, 0, 1), 0)]: the version, read as a
    signed integer. *)
Definition getVersion : L value :=
  fun w =>
    if byteLength (sab w) <? 4 then (Threw BufferTooSmallForVersion, w)
    else from_M (new_typed_array Int32Array 0 1 ;;
                 let* x := load 0 4 in ret (VNumber (number_of_Z (signed 32 x)))) w.

Definition getSchemaId : L value :=
  fun w =>
    if byteLength (sab w) <? 8 then (Threw BufferTooSmallForSchemaId, w)
    else from_M (let* x := getUint32 4 in ret (VNumber (number_of_Z x))) w.

(** A [View] object as [destroy] can leave it.  The functions that
    [compileFunctions] made keep the array of templates that the schema had
    then ([const { descriptorTree, encodingTemplate } = schema]), and
    [destroy] gives [this.schema] a new array.  So [core] holds the schema as
    the compiled functions see it, and [own_encodingTemplate] the array
    that [this.schema.encodingTemplate] names. *)
Record ViewObject : Type := {
  core : View;
  own_encodingTemplate : list TemplateEntry
}.

(** The object that [new View(data, options)] makes. *)
Definition View_object (view : View) : ViewObject :=
  {| core := view; own_encodingTemplate := encodingTemplate (schema view) |}.

(** [lowLevel.executeTemplate(index, value, sab)] *)
Definition executeTemplate (this : ViewObject) (index : Z) (v : value) : L unit :=
  fun w =>
    if byteLength (sab w) <? byteSize (schema (core this))
    then (Threw BufferTooSmallForTemplate, w)
    else
      match (if index <? 0 then None else own_encodingTemplate this !! Z.to_nat index) with
      | None => (Threw (InvalidTemplateIndex index), w)
      | Some template =>
          from_M (setter template (currentOffset_var (schema (core this))) v) w
      end.

(** [b.toString(16)] for a natural number. *)
Definition hex_digit (d : N) : ascii :=
  if (d <? 10)%N then ascii_of_N (48 + d) else ascii_of_N (87 + d).

Fixpoint toString16_go (fuel : nat) (n : N) (acc : string) : string :=
  match fuel with
  | O => acc
  | S fuel' =>
      let acc' := String (hex_digit (n mod 16)%N) acc in
      match (n / 16)%N with
      | N0 => acc'
      | q => toString16_go fuel' q acc'
      end
  end.

Definition toString16 (n : N) : string := toString16_go (S (N.size_nat n)) n "".

(** [s.padStart(2, '0')] *)
Definition padStart2 (s : string) : string :=
  match s with
  | EmptyString => "00"
  | String c EmptyString => String "0" s
  | _ => s
  end.

Definition hex_byte (b : Z) : string := padStart2 (toString16 (Z.to_N b)).

(** [lowLevel.dumpBytes(sab, start, end)]; an argument left out is
    [None]. *)
Definition dumpBytes (start end_ : option Z) : L string :=
  fun w =>
    let start := default 0 start in
    let end_ := default (byteLength (sab w)) end_ in
    if (start <? 0) || (byteLength (sab w) <? end_) || (end_ <? start)
    then (Threw InvalidByteRange, w)
    else from_M (new_typed_array Uint8Array start (end_ - start) ;;
                 fun w => (Normal (String.concat ""
                                     (map hex_byte
                                          (read_bytes (sab w) start (Z.to_nat (end_ - start))))),
                           w)) w.

(** ** view-accessors: [destroy] *)

(** [view.destroy()]: the two maps of the schema are cleared in place, the
    schema gets a new, empty array of templates, and the callbacks go. *)
Definition View_destroy (this : ViewObject) : ViewObject :=
  let view := core this in
  {| core :=
       {| mutable := mutable view;
          schema :=
            {| descriptorTree := descriptorTree (schema view);
               byteSize := byteSize (schema view);
               flatIndex := ∅;
               encodingTemplate := encodingTemplate (schema view);
               typedArrayViews := ∅;
               currentOffset_var := currentOffset_var (schema view) |};
          view_byteSize := view_byteSize view;
          onDiff := None;
          beforePatch := None |};
     own_encodingTemplate := [] |}.

(** ** view-sync.ts: [bind] and [syncToSab] *)

(** [sync.bind(variable, paths)] keeps the proxy of [variable] and, when
    [paths] is given, the set of these paths. *)
Definition ViewSync_bind (variable : value) (paths : option (list string)) (this : ViewSync)
  : ViewSync :=
  {| sync_view := sync_view this; sync_sab := sync_sab this;
     boundVariable := Some variable;
     boundPaths := match paths with
                   | Some ps => list_to_set ps
                   | None => boundPaths this
                   end;
     lastVersion := lastVersion this; onUpdate := onUpdate this;
     pollHandle := pollHandle this |}.

(** The [set] trap of that proxy, run by [bound[prop] = v] for a property
    named by a string: [target] is the variable that was bound, and the
    result is that variable after [Reflect.set]. *)
Definition bound_set (this : ViewSync) (paths : option (list string))
    (target : value) (prop : string) (v : value) : L value :=
  let path := prop in
  let unlisted := match paths with
                  | Some ps => negb (existsb (String.eqb path) ps)
                  | None => false
                  end in
  if unlisted then from_M (lift (set_property target prop v))
  else if strict_equals v VUndefined then raise UndefinedValuesNotAllowed
  else
    and_then (from_M (View_set (sync_view this) path v))
             (fun _ => from_M (lift (set_property target prop v))).

(** [sync.syncToSab()] *)
Definition ViewSync_syncToSab (this : ViewSync) : L unit :=
  match boundVariable this with
  | None => raise NoBoundVariable
  | Some variable => from_M (View_encode (sync_view this) variable)
  end.

End LowLevel.

(** ** More vocabulary *)

(** What makes two keys of a [Map] the same key: the one NaN, the one
    zero, any other primitive as it is, an object by its identity. *)
Definition key_identity (v : value) : value :=
  match v with
  | VNumber bits => if is_nan bits then VNumber nan_bits
                    else if is_zero bits then VNumber 0 else v
  | VDate r _ | VTypedArray r _ _ | VArray r _ _ | VObject r _ => VObject r []
  | _ => v
  end.

(** No two entries of the list have the same key. *)
Fixpoint Map_wf (m : list (value * value)) : Prop :=
  match m with
  | [] => True
  | (k, _) :: m' => Forall (fun e => SameValueZero e.1 k = false) m' /\ Map_wf m'
  end.

(** A cache for [n] entries that holds no more than these, under keys none
    of which is [undefined]. *)
Definition LRUCache_ok (n : Z) (c : LRUCache) : Prop :=
  maxSize c = number_of_Z n /\
  Z.of_nat (length (cache c)) <= n /\
  Map_wf (cache c) /\
  Forall (fun e => e.1 <> VUndefined) (cache c).

(** The bytes that [inferSchema] lays out for a value: nothing for [null],
    [undefined] and a hole, a length prefix of four bytes before the
    elements of an array or a typed array and before the bytes of a
    string. *)
Fixpoint footprint (v : value) : Z :=
  match v with
  | VUndefined | VNull => 0
  | VBoolean _ => 1
  | VNumber _ | VBigInt _ | VDate _ _ => 8
  | VString s => 4 + byteLength (TextEncoder_encode s)
  | VTypedArray _ type elems => 4 + Z.of_nat (length elems) * getTypedArrayByteSize type
  | VArray _ items _ =>
      4 + (fix sum (its : list (option value)) : Z :=
             match its with
             | [] => 0
             | Some x :: its' => footprint x + sum its'
             | None :: its' => sum its'
             end) items
  | VObject _ props =>
      (fix sum (ps : list (string * value)) : Z :=
         match ps with
         | [] => 0
         | (_, x) :: ps' => footprint x + sum ps'
         end) props
  end.

(** Well-formed UTF-8 (table 3-7 of the Unicode standard). *)
Fixpoint well_formed_utf8 (bs : list Z) : bool :=
  let tail b := (0x80 <=? b) && (b <=? 0xBF) in
  match bs with
  | [] => true
  | b1 :: bs1 =>
      if (0 <=? b1) && (b1 <=? 0x7F) then well_formed_utf8 bs1
      else if (0xC2 <=? b1) && (b1 <=? 0xDF) then
        match bs1 with
        | b2 :: bs2 => tail b2 && well_formed_utf8 bs2
        | _ => false
        end
      else if (0xE0 <=? b1) && (b1 <=? 0xEF) then
        match bs1 with
        | b2 :: b3 :: bs3 =>
            ((if b1 =? 0xE0 then 0xA0 else 0x80) <=? b2) &&
            (b2 <=? (if b1 =? 0xED then 0x9F else 0xBF)) &&
            tail b3 && well_formed_utf8 bs3
        | _ => false
        end
      else if (0xF0 <=? b1) && (b1 <=? 0xF4) then
        match bs1 with
        | b2 :: b3 :: b4 :: bs4 =>
            ((if b1 =? 0xF0 then 0x90 else 0x80) <=? b2) &&
            (b2 <=? (if b1 =? 0xF4 then 0x8F else 0xBF)) &&
            tail b3 && tail b4 && well_formed_utf8 bs4
        | _ => false
        end
      else false
  end.

(** The string is one that JavaScript can hold without loss: its bytes are
    well-formed UTF-8. *)
Definition well_formed (s : string) : bool := well_formed_utf8 (TextEncoder_encode s).

(** The string without the byte-order mark U+FEFF that it may start
    with. *)
Definition without_bom (s : string) : string :=
  string_of_bytes (strip_bom (TextEncoder_encode s)).

(** The four bytes of the schema identifier and the length are the same. *)
Definition same_schema_id (b b' : list Z) : Prop :=
  read_bytes b' 4 4 = read_bytes b 4 4 /\ length b' = length b.

(** Every byte of the segment is a byte. *)
Definition bytes_in_range (w : world) : Prop :=
  Forall (fun b => 0 <= b < 256) (sab w).

(** A run of [m] in the wider monad changes the bytes of the segment only
    within the relation [R]. *)
Definition keeps (R : list Z -> list Z -> Prop) {A} (m : L A) : Prop :=
  forall w r w', m w = (r, w') -> R (sab w) (sab w').

(** The writes of a list of entries, in order. *)
Definition LRUCache_set_all (entries : list (value * value)) (c : LRUCache) : LRUCache :=
  fold_left (fun c e => LRUCache_set e.1 e.2 c) entries c.

(** The key is held with the value [v], and no more than [j] entries come
    after it. *)
Definition held (key v : value) (j : nat) (m : list (value * value)) : Prop :=
  exists before k after,
    m = before ++ (k, v) :: after /\
    SameValueZero k key = true /\
    Forall (fun e => SameValueZero e.1 key = false) before /\
    (length after <= j)%nat.

(** The byte-order mark U+FEFF. *)
Definition bom : string :=
  String (ascii_of_N 239) (String (ascii_of_N 187) (String (ascii_of_N 191) "")).




(** A run of [m] that returns leaves a segment with room for the
    version. *)
Definition leaves_room {A} (m : M A) : Prop :=
  forall w a w', m w = (Normal a, w') -> 4 <= byteLength (sab w').

(** The bytes of the elements of an array and of the values of an object,
    as [footprint] adds them up. *)
Definition footprint_items (items : list (option value)) : Z :=
  fold_right (fun it n => match it with Some x => footprint x + n | None => n end) 0 items.

Definition footprint_props (props : list (string * value)) : Z :=
  fold_right (fun kx n => footprint kx.2 + n) 0 props.

(** Every typed-array view that inference has recorded lies between the
    header and the cursor. *)
Definition views_fit (st : InferState) : Prop :=
  8 <= currentOffset st /\
  forall path tv,
    st_typedArrayViews st !! path = Some tv ->
    8 <= tv_offset tv /\ 0 <= tv_length tv /\
    tv_offset tv + 4 + tv_length tv * getTypedArrayByteSize (tv_type tv) <= currentOffset st.

(** [{ typed: new Float64Array(2) }] *)
Definition float64_named : value := VObject 0 [("typed", VTypedArray 1 Float64Array [0; 0])].

(** [{ typed: new Uint16Array([7, 9]) }] *)
Definition uint16_named : value := VObject 0 [("typed", VTypedArray 1 Uint16Array [7; 9])].

(** After a write, [n] bytes at [off] hold [x], and the length of the
    segment is what it was. *)
Definition stored (off : Z) (n : nat) (x : Z) (w w' : world) : Prop :=
  0 <= off < byteLength (sab w) /\
  byteLength (sab w') = byteLength (sab w) /\
  load off n w' = (Normal (x mod 256 ^ Z.of_nat n), w').

(** One of the characters at which a path is split. *)
Definition separator (c : ascii) : bool :=
  Ascii.eqb c "." || Ascii.eqb c "[" || Ascii.eqb c "]".


(** The properties that the proxy of [bind(variable, paths)] writes through
    to the segment: those that [paths] lists, or all of them when no
    [paths] were given. *)
Definition written_through (paths : option (list string)) (prop : string) : Prop :=
  match paths with
  | Some ps => prop ∈ ps
  | None => True
  end.

(** * Proofs *)

#[local] Set Warnings "-clear-no-such-hyp".

(** ** Bytes *)

Lemma le_value_le_bytes (n : nat) (x : Z) :
  le_value (le_bytes n x) = x mod 256 ^ Z.of_nat n.
Proof.
  revert x. induction n as [|n IH]; intros x.
  - simpl. by rewrite Z.mod_1_r.
  - cbn [le_bytes le_value]. rewrite IH.
    rewrite Nat2Z.inj_succ, Z.pow_succ_r by lia.
    rewrite Z.rem_mul_r by lia. reflexivity.
Qed.

Lemma length_le_bytes (n : nat) (x : Z) : length (le_bytes n x) = n.
Proof. revert x. induction n; intros; simpl; [done | by rewrite IHn]. Qed.

Lemma length_write_bytes (b : list Z) (off : Z) (bs : list Z) :
  0 <= off -> off + byteLength bs <= byteLength b ->
  length (write_bytes b off bs) = length b.
Proof.
  unfold write_bytes, byteLength. intros H0 H.
  rewrite !length_app, length_take, length_drop. lia.
Qed.

Lemma take_write_bytes (k : nat) (b : list Z) (off : Z) (bs : list Z) :
  Z.of_nat k <= off -> off <= byteLength b ->
  take k (write_bytes b off bs) = take k b.
Proof.
  unfold write_bytes, byteLength. intros Hk H.
  rewrite take_app_le by (rewrite length_take; lia).
  rewrite take_take. f_equal. lia.
Qed.

(** ** The monad *)

Section Preservation.

Context (R : list Z -> list Z -> Prop) `{!Reflexive R} `{!Transitive R}.

Lemma preserves_ret {A} (a : A) : preserves R (ret a).
Proof. intros w r w' H. unfold ret in H. by simplify_eq. Qed.

Lemma preserves_throw {A} (e : error) : preserves R (@throw A e).
Proof. intros w r w' H. unfold throw in H. by simplify_eq. Qed.

Lemma preserves_lift {A} (o : outcome A) : preserves R (lift o).
Proof. intros w r w' H. unfold lift in H. by simplify_eq. Qed.

Lemma preserves_pure {A} (f : world -> outcome A) : preserves R (fun w => (f w, w)).
Proof. intros w r w' H. by simplify_eq. Qed.

Lemma preserves_bind {A B} (m : M A) (k : A -> M B) :
  preserves R m -> (forall a, preserves R (k a)) -> preserves R (bind m k).
Proof.
  intros Hm Hk w r w' H. unfold bind in H.
  destruct (m w) as [[a|e] w1] eqn:E.
  - etransitivity; [exact (Hm _ _ _ E) | exact (Hk _ _ _ _ H)].
  - simplify_eq. exact (Hm _ _ _ E).
Qed.

Lemma preserves_alloc : preserves R alloc.
Proof. intros w r w' H. unfold alloc in H. by simplify_eq. Qed.

Lemma preserves_in_range (off n : Z) : preserves R (in_range off n).
Proof. intros w r w' H. unfold in_range in H. case_match; by simplify_eq. Qed.

Lemma preserves_for_each {A} (xs : list A) (body : A -> M unit) :
  (forall x, preserves R (body x)) -> preserves R (for_each xs body).
Proof.
  intros Hb. induction xs as [|x xs IH]; simpl.
  - apply preserves_ret.
  - apply preserves_bind; [apply Hb | intros _; exact IH].
Qed.

End Preservation.

Lemma preserves_weaken (R R' : list Z -> list Z -> Prop) {A} (m : M A) :
  (forall b b', R b b' -> R' b b') -> preserves R m -> preserves R' m.
Proof. intros HR Hm w r w' H. apply HR. exact (Hm _ _ _ H). Qed.

#[local] Instance same_header_refl : Reflexive same_header.
Proof. by intros b. Qed.

#[local] Instance same_header_trans : Transitive same_header.
Proof. intros a b c [H1 H2] [H3 H4]. split; congruence. Qed.

Lemma read_only_same_header {A} (m : M A) : read_only m -> preserves same_header m.
Proof. apply preserves_weaken. by intros b b' <-. Qed.

(** One step through monadic code: the combinators, then the case
    analyses of the code. *)
Ltac preserve_step :=
  lazymatch goal with
  | |- preserves _ (bind _ _) => apply preserves_bind; [typeclasses eauto | | intros ?]
  | |- preserves _ (ret _) => apply preserves_ret; typeclasses eauto
  | |- preserves _ (throw _) => apply preserves_throw; typeclasses eauto
  | |- preserves _ (lift _) => apply preserves_lift; typeclasses eauto
  | |- preserves _ alloc => apply preserves_alloc; typeclasses eauto
  | |- preserves _ (in_range _ _) => apply preserves_in_range; typeclasses eauto
  | |- preserves _ (match ?x with _ => _ end) => destruct x
  | |- preserves _ (fun _ => _) =>
      first [ apply preserves_pure; typeclasses eauto
            | let H := fresh in
              intros ? ? ? H; cbv zeta in H; repeat case_match; simplify_eq; reflexivity ]
  end.

Ltac preserve := repeat preserve_step.

Section ReadOnly.

Context (R : list Z -> list Z -> Prop) `{!Reflexive R} `{!Transitive R}.

Lemma preserves_load off n : preserves R (load off n).
Proof. unfold load. preserve. Qed.

Lemma preserves_new_typed_array type off len : preserves R (new_typed_array type off len).
Proof. unfold new_typed_array. preserve. Qed.

Lemma preserves_typed_array_elements type off len :
  preserves R (typed_array_elements type off len).
Proof. unfold typed_array_elements. preserve. Qed.

Lemma preserves_ToIndex off : preserves R (ToIndex off).
Proof. unfold ToIndex. preserve. Qed.

Lemma preserves_offset_check off : preserves R (offset_check off).
Proof. intros w r w' H. unfold offset_check in H. case_match; by simplify_eq. Qed.

Lemma preserves_exceeds_check limit e : preserves R (exceeds_check limit e).
Proof. intros w r w' H. unfold exceeds_check in H. case_match; by simplify_eq. Qed.

Lemma preserves_size_check view : preserves R (size_check view).
Proof. intros w r w' H. unfold size_check in H. case_match; by simplify_eq. Qed.

End ReadOnly.

(** ** Induction over values and descriptors *)

Lemma value_ind' (Q : value -> Prop) :
  Q VUndefined -> Q VNull -> (forall b, Q (VBoolean b)) -> (forall bits, Q (VNumber bits)) ->
  (forall z, Q (VBigInt z)) -> (forall s, Q (VString s)) -> (forall r t, Q (VDate r t)) ->
  (forall r ty elems, Q (VTypedArray r ty elems)) ->
  (forall r items props,
      Forall (fun it => forall x, it = Some x -> Q x) items ->
      Forall (fun kx => Q kx.2) props -> Q (VArray r items props)) ->
  (forall r props, Forall (fun kx => Q kx.2) props -> Q (VObject r props)) ->
  forall v, Q v.
Proof.
  intros Hu Hn Hb Hnum Hbig Hs Hd Hta Harr Hobj.
  fix IH 1. intros [| | b | bits | z | s | r t | r ty elems | r items props | r props].
  - exact Hu.
  - exact Hn.
  - apply Hb.
  - apply Hnum.
  - apply Hbig.
  - apply Hs.
  - apply Hd.
  - apply Hta.
  - apply Harr.
    + induction items as [|[x|] items IHitems]; constructor; try exact IHitems.
      * intros y [= <-]. apply IH.
      * intros y [=].
    + induction props as [|[k x] props IHprops]; constructor; try exact IHprops. apply IH.
  - apply Hobj.
    induction props as [|[k x] props IHprops]; constructor; try exact IHprops. apply IH.
Qed.

Lemma Descriptor_ind' (Q : Descriptor -> Prop) :
  (forall ty off size dt ch len,
      Forall (fun kc => Q kc.2) (children_of ch) ->
      Q (mkDescriptor ty off size dt ch len)) ->
  forall d, Q d.
Proof.
  intros H. fix IH 1. intros [ty off size dt ch len]. apply H.
  destruct ch as [children|]; [|constructor]. simpl.
  induction children as [|[k c] children IHc]; constructor; try exact IHc. apply IH.
Qed.

Lemma entries_get_Forall {A} (Q : A -> Prop) (key : string) (l : list (string * A)) (x : A) :
  Forall (fun e => Q e.2) l -> entries_get key l = Some x -> Q x.
Proof.
  induction 1 as [|[k y] l Hy _ IH]; cbn [entries_get]; [done|].
  destruct (String.eqb key k); [intros [= <-]; exact Hy | exact IH].
Qed.

Lemma entries_get_map {A B} (f : A -> B) (key : string) (l : list (string * A)) :
  entries_get key (map (fun '(k, x) => (k, f x)) l) = f <$> entries_get key l.
Proof.
  induction l as [|[k y] l IH]; cbn [entries_get map]; [done|].
  destruct (String.eqb key k); [done | exact IH].
Qed.

(** ** Reading leaves the segment alone *)

Section Readers.

Context (R : list Z -> list Z -> Prop) `{!Reflexive R} `{!Transitive R}.

Ltac leaf :=
  first [ apply preserves_load | apply preserves_new_typed_array
        | apply preserves_typed_array_elements | apply preserves_ToIndex
        | apply preserves_offset_check | apply preserves_exceeds_check
        | apply preserves_size_check ];
  typeclasses eauto.

Ltac reads := repeat first [leaf | preserve_step].

Lemma preserves_new_Date z : preserves R (new_Date z).
Proof. unfold new_Date. reads. Qed.

Lemma preserves_new_Object : preserves R new_Object.
Proof. unfold new_Object. reads. Qed.

Lemma preserves_new_Array len : preserves R (new_Array len).
Proof. unfold new_Array. reads. Qed.

Lemma preserves_new_TypedArray type off len : preserves R (new_TypedArray type off len).
Proof. unfold new_TypedArray. reads. Qed.

Lemma preserves_getBigInt64 off : preserves R (getBigInt64 off).
Proof. unfold getBigInt64. reads. Qed.

Lemma preserves_readPrimitive offset dataType : preserves R (readPrimitive offset dataType).
Proof.
  unfold readPrimitive. reads;
    first [apply preserves_new_Date | apply preserves_getBigInt64].
Qed.

Lemma preserves_traverseDescriptor descriptor :
  forall offset result path, preserves R (traverseDescriptor descriptor offset result path).
Proof.
  induction descriptor as [ty off size dt ch len IH] using Descriptor_ind'.
  intros offset result path. cbn [traverseDescriptor d_children d_type d_dataType].
  set (below := match ch with Some children => _ | None => [] end).
  assert (Hbelow : Forall (fun e => forall o r p, preserves R (e.2.2 o r p)) below).
  { subst below. destruct ch as [children|]; [|constructor].
    simpl in IH. apply Forall_map.
    eapply Forall_impl; [exact IH|]. intros [k c] Hc. exact Hc. }
  clearbody below. clear IH.
  apply preserves_bind; [typeclasses eauto | leaf | intros _].
  destruct ty.
  - reads. apply preserves_readPrimitive.
  - revert result. induction Hbelow as [|[key [child f]] below Hf _ IHb]; intros result.
    + reads.
    + reads; try apply preserves_new_Object.
      * apply Hf.
      * apply IHb.
  - apply preserves_bind; [typeclasses eauto | leaf | intros n0].
    destruct (entries_get "[]" below) as [[child f]|] eqn:E; [|reads].
    assert (Hf : forall o r p, preserves R (f o r p)).
    { exact (entries_get_Forall (fun e => forall o r p, preserves R (e.2 o r p))
               _ _ _ Hbelow E). }
    reads; try apply preserves_new_Array.
    match goal with |- preserves _ (_ _ _ ?arr) => generalize arr end.
    generalize 0%nat.
    induction (Z.to_nat n0) as [|n IHn]; intros i arr; reads.
    + apply Hf.
    + apply IHn.
  - reads. apply preserves_new_TypedArray.
Qed.

Lemma preserves_decode schema : preserves R (decode schema).
Proof.
  unfold decode. reads; [apply preserves_new_Object | apply preserves_traverseDescriptor].
Qed.

Lemma preserves_View_decode view : preserves R (View_decode view).
Proof. unfold View_decode. reads. apply preserves_decode. Qed.

Lemma preserves_readValue descriptor :
  forall offset, preserves R (readValue descriptor offset).
Proof.
  induction descriptor as [ty off size dt ch len IH] using Descriptor_ind'.
  intros offset. cbn [readValue d_children d_type d_dataType].
  set (below := match ch with Some children => _ | None => [] end).
  assert (Hbelow : Forall (fun e => forall o, preserves R (e.2.2 o)) below).
  { subst below. destruct ch as [children|]; [|constructor].
    simpl in IH. apply Forall_map.
    eapply Forall_impl; [exact IH|]. intros [k c] Hc. exact Hc. }
  clearbody below. clear IH.
  apply preserves_bind; [typeclasses eauto | leaf | intros _].
  destruct ty.
  - reads; first [apply preserves_new_Date | apply preserves_getBigInt64].
  - apply preserves_bind; [typeclasses eauto | apply preserves_new_Object | intros result].
    revert result. induction Hbelow as [|[key [child f]] below Hf _ IHb]; intros result.
    + reads.
    + reads; [apply Hf | apply IHb].
  - apply preserves_bind; [typeclasses eauto | leaf | intros n0].
    destruct (entries_get "[]" below) as [[child f]|] eqn:E; [|reads].
    assert (Hf : forall o, preserves R (f o)).
    { exact (entries_get_Forall (fun e => forall o, preserves R (e.2 o)) _ _ _ Hbelow E). }
    reads; try apply preserves_new_Array.
    match goal with |- preserves _ (_ _ _ ?arr) => generalize arr end.
    generalize 0%nat.
    induction (Z.to_nat n0) as [|n IHn]; intros i arr; reads.
    + apply Hf.
    + apply IHn.
  - reads. apply preserves_new_TypedArray.
Qed.

Lemma preserves_View_decodePartial (P : Platform) view path :
  preserves R (View_decodePartial P view path).
Proof. unfold View_decodePartial. reads. apply preserves_readValue. Qed.

Lemma preserves_View_getTypedArray view path : preserves R (View_getTypedArray view path).
Proof. unfold View_getTypedArray. reads. apply preserves_new_TypedArray. Qed.

Lemma preserves_typed_array_over (P : Platform) type off len :
  preserves R (typed_array_over P type off len).
Proof. unfold typed_array_over. reads. Qed.

Lemma preserves_spread sources : preserves R (spread sources).
Proof. unfold spread. reads. Qed.

Lemma preserves_call {A} (callback : option (A -> outcome unit)) (a : A) :
  preserves R (call callback a).
Proof. unfold call. reads. Qed.

Lemma preserves_mutable_check view : preserves R (mutable_check view).
Proof. unfold mutable_check. reads. Qed.

End Readers.

(** ** Writes stay clear of the header *)

Ltac leaf :=
  first [ apply preserves_load | apply preserves_new_typed_array
        | apply preserves_typed_array_elements | apply preserves_ToIndex
        | apply preserves_offset_check | apply preserves_exceeds_check
        | apply preserves_size_check | apply preserves_typed_array_over
        | apply preserves_spread | apply preserves_call | apply preserves_mutable_check
        | apply preserves_new_Date | apply preserves_new_Object
        | apply preserves_new_Array | apply preserves_new_TypedArray
        | apply preserves_getBigInt64 ];
  typeclasses eauto.

Lemma in_range_inv off n w r w' :
  in_range off n w = (r, w') ->
  w' = w /\ (r = Throw RangeError \/ (r = Normal tt /\ 0 <= off /\ off + n <= byteLength (sab w))).
Proof.
  unfold in_range. intros H.
  destruct (0 <=? off) eqn:E1; destruct (off + n <=? byteLength (sab w)) eqn:E2;
    simpl in H; simplify_eq; split; auto.
  right. repeat split; lia.
Qed.

Lemma header_store_bytes off bs : 8 <= off -> preserves same_header (store_bytes off bs).
Proof.
  intros Hoff w r w' H. unfold store_bytes, bind in H.
  destruct (in_range off (byteLength bs) w) as [r1 w1] eqn:E.
  apply in_range_inv in E as [-> [-> | (-> & H0 & Hle)]].
  - by simplify_eq.
  - simplify_eq. simpl. split.
    + apply (take_write_bytes 8); unfold byteLength in *; lia.
    + apply length_write_bytes; lia.
Qed.

Lemma header_store off n x : 8 <= off -> preserves same_header (store off n x).
Proof. intros. by apply header_store_bytes. Qed.

Ltac writes :=
  repeat first [ leaf
               | apply header_store_bytes; lia
               | apply header_store; lia
               | preserve_step ].

Lemma safe_number_setter (P : Platform) : safe_setter (number_setter P).
Proof. intros cur v H. unfold number_setter, setFloat64. writes. Qed.

Lemma safe_string_setter (P : Platform) : safe_setter (string_setter P).
Proof. intros cur v H. unfold string_setter, setUint32. writes. Qed.

Lemma safe_boolean_setter : safe_setter boolean_setter.
Proof. intros cur v H. unfold boolean_setter, setUint8. writes. Qed.

Lemma safe_bigint_setter (P : Platform) : safe_setter (bigint_setter P).
Proof. intros cur v H. unfold bigint_setter, setBigInt64. writes. Qed.

Lemma safe_date_setter (P : Platform) : safe_setter (date_setter P).
Proof. intros cur v H. unfold date_setter, setBigInt64. writes. Qed.

Lemma safe_typed_array_setter (P : Platform) type : safe_setter (typed_array_setter P type).
Proof. intros cur v H. unfold typed_array_setter, setUint32_value. writes. Qed.

Lemma safe_array_setter (P : Platform) offset : 8 <= offset -> safe_setter (array_setter P offset).
Proof. intros Ho cur v H. unfold array_setter, setUint32_value. writes. Qed.

Lemma safe_object_setter : safe_setter object_setter.
Proof. intros cur v H. unfold object_setter. writes. Qed.


(** ** Inference keeps its cursor past the header *)

Lemma good_flatIndex_set path offset type st :
  good_state st -> good_state (flatIndex_set path offset type st).
Proof. by intros [? ?]. Qed.

Lemma good_typedArrayViews_set path view st :
  good_state st -> good_state (typedArrayViews_set path view st).
Proof. by intros [? ?]. Qed.

Lemma good_advance n st : 0 <= n -> good_state st -> good_state (advance n st).
Proof. intros Hn [? ?]. split; simpl; [lia | done]. Qed.

Lemma good_push entry st :
  safe_setter (setter entry) -> good_state st -> good_state (encodingTemplate_push entry st).
Proof.
  intros He [? Hall]. split; [done|]. simpl. apply Forall_app. split; [done|].
  by constructor.
Qed.

Lemma good_infer_scalar dataType size set get path st :
  0 <= size -> safe_setter set -> good_state st ->
  good_state (infer_scalar dataType size set get path st).2.
Proof.
  intros Hs Hset Hst. unfold infer_scalar. simpl.
  apply good_advance; [done|]. apply good_push; [done|]. by apply good_flatIndex_set.
Qed.

Lemma getTypedArrayByteSize_pos type : 0 < getTypedArrayByteSize type.
Proof. destruct type; simpl; lia. Qed.

Lemma good_inferDescriptor (P : Platform) (v : value) :
  forall path st, good_state st -> good_state (inferDescriptor P v path st).2.
Proof.
  induction v as [| | b | bits | z | s | r t | r ty elems | r items props IHitems _
                 | r props IHprops] using value_ind';
    intros path st Hst; cbn [inferDescriptor].
  - done.
  - done.
  - apply good_infer_scalar; [lia | apply safe_boolean_setter | done].
  - apply good_infer_scalar; [lia | apply safe_number_setter | done].
  - apply good_infer_scalar; [lia | apply safe_bigint_setter | done].
  - apply good_infer_scalar; [unfold byteLength; lia | apply safe_string_setter | done].
  - apply good_infer_scalar; [lia | apply safe_date_setter | done].
  - simpl. apply good_advance.
    { pose proof (getTypedArrayByteSize_pos ty). nia. }
    apply good_typedArrayViews_set. apply good_push; [apply safe_typed_array_setter|].
    by apply good_flatIndex_set.
  - match goal with |- good_state (let '(_, _) := ?e in _).2 => set (inner := e) end.
    assert (Hinner : good_state inner.2).
    { subst inner. destruct items as [|first rest].
      - simpl. apply good_advance; [lia | done].
      - apply Forall_cons in IHitems as [Hfirst Hrest].
        match goal with |- good_state (let '(_, _) := ?e in _).2 => set (head := e) end.
        assert (Hhead : good_state head.2).
        { subst head. destruct first as [x|].
          - apply (Hfirst x eq_refl). apply good_advance; [lia | done].
          - simpl. apply good_advance; [lia | done]. }
        destruct head as [child st0]. simpl in Hhead.
        generalize 1%nat. revert child st0 Hhead.
        induction Hrest as [|it its Hit _ IHits]; intros child st0 Hst0 i.
        + done.
        + match goal with |- good_state (let '(_, _) := ?e in _).2 =>
            set (item := e) end.
          assert (Hitem : good_state item.2).
          { subst item. destruct it as [x|]; [by apply (Hit x eq_refl) | done]. }
          destruct item as [itemDesc st1]. apply IHits. exact Hitem. }
    destruct inner as [child st0]. simpl in Hinner |- *.
    apply good_push; [apply safe_array_setter; apply Hst|].
    by apply good_flatIndex_set.
  - match goal with |- good_state (let '(_, _) := ?e in _).2 => set (inner := e) end.
    assert (Hinner : good_state inner.2).
    { subst inner. generalize (@nil (string * Descriptor)), 0.
      generalize (currentOffset st) at 1. revert st Hst.
      induction IHprops as [|[key val] ps Hval _ IHps]; intros st Hst o children size.
      - done.
      - match goal with |- good_state (let '(_, _) := ?e in _).2 => set (item := e) end.
        assert (Hitem : good_state item.2) by (subst item; by apply Hval).
        destruct item as [child st1]. apply IHps. exact Hitem. }
    destruct inner as [[children size] st0]. simpl in Hinner |- *.
    apply good_push; [apply safe_object_setter|].
    by apply good_flatIndex_set.
Qed.

Lemma inferSchema_safe (P : Platform) (data : value) :
  8 <= currentOffset_var (inferSchema P data) /\
  Forall (fun t => safe_setter (setter t)) (encodingTemplate (inferSchema P data)).
Proof.
  unfold inferSchema.
  match goal with |- context [inferDescriptor P data "" ?st] =>
    pose proof (good_inferDescriptor P data "" st) as H;
    destruct (inferDescriptor P data "" st) as [d st'] end.
  simpl in *. apply H. split; [simpl; lia | constructor].
Qed.

(** When inference is over, the cursor stands at the end of the layout. *)
Lemma cursor_at_byteSize (P : Platform) (data : value) :
  currentOffset_var (inferSchema P data) = byteSize (inferSchema P data).
Proof.
  pose proof (inferSchema_safe P data) as [H _]. revert H.
  unfold inferSchema. destruct (inferDescriptor P data "" _) as [d st']. simpl. lia.
Qed.

Lemma byteSize_inferSchema (P : Platform) (data : value) : 8 <= byteSize (inferSchema P data).
Proof.
  unfold inferSchema. destruct (inferDescriptor P data "" _) as [d st']. simpl. lia.
Qed.


(** ** The compiled setter and the version counter *)

Lemma header_set (P : Platform) (data : value) (path : string) (v : value) :
  preserves same_header (set (inferSchema P data) path v).
Proof.
  destruct (inferSchema_safe P data) as [Hcur Hall].
  unfold set. destruct (flatIndex _ !! path) as [entry|]; [|writes].
  destruct (List.find _ _) as [template|] eqn:E; [|writes].
  apply find_some in E as [Hin _].
  rewrite Forall_forall in Hall. apply (Hall template); [|exact Hcur].
  by apply list_elem_of_In.
Qed.

Lemma version_same_header (w w' : world) :
  same_header (sab w) (sab w') -> version w' = version w.
Proof.
  intros [H _]. unfold version, read_bytes. simpl.
  rewrite !drop_0.
  change 4%nat with (4 `min` 8)%nat. by rewrite <- !take_take, H.
Qed.

Lemma read_write_bytes (b bs : list Z) :
  read_bytes (write_bytes b 0 bs) 0 (length bs) = bs.
Proof.
  unfold read_bytes, write_bytes. simpl. rewrite drop_0.
  by rewrite take_app_length.
Qed.

Lemma version_after_write (b : list Z) (x : Z) :
  le_value (read_bytes (write_bytes b 0 (le_bytes 4 x)) 0 4) = x mod 2 ^ 32.
Proof.
  pose proof (read_write_bytes b (le_bytes 4 x)) as H.
  rewrite length_le_bytes in H. rewrite H. apply (le_value_le_bytes 4).
Qed.

Lemma bumps_Atomics_add_version : bumps Atomics_add_version.
Proof.
  intros w a w' H. unfold Atomics_add_version, bind in H.
  destruct (new_typed_array Int32Array 0 1 w) as [[[]|e] w1] eqn:E; [|done].
  assert (w1 = w) as ->.
  { unfold new_typed_array in E. simpl in E.
    apply in_range_inv in E as [-> _]. done. }
  simplify_eq. exact (version_after_write (sab w) (version w + 1)).
Qed.

Lemma bumps_bind {A B} (m : M A) (k : A -> M B) :
  preserves same_header m -> (forall a, bumps (k a)) -> bumps (bind m k).
Proof.
  intros Hm Hk w b w' H. unfold bind in H.
  destruct (m w) as [[a|e] w1] eqn:E; [|done].
  rewrite (Hk _ _ _ _ H). by rewrite (version_same_header _ _ (Hm _ _ _ E)).
Qed.

Lemma bumps_throw {A} (e : error) : bumps (@throw A e).
Proof. by intros w a w' H. Qed.

Ltac bump :=
  repeat lazymatch goal with
         | |- bumps Atomics_add_version => apply bumps_Atomics_add_version
         | |- bumps (bind _ _) => apply bumps_bind; [try solve [writes] | intros ?]
         | |- bumps (throw _) => apply bumps_throw
         end.

(** With the empty set that [View.encode] passes as [dirtyFields], the
    compiled [encode] skips every template. *)
Lemma encode_nothing_dirty (schema : Schema) (data : value) (w : world) :
  encode schema data (Some ∅) w = (Normal tt, w).
Proof.
  unfold encode. induction (encodingTemplate schema) as [|entry entries IH]; [done|].
  cbn [for_each]. unfold bind at 1.
  rewrite bool_decide_eq_false_2 by set_solver. simpl. exact IH.
Qed.

Lemma read_only_encode_nothing_dirty (schema : Schema) (data : value) :
  read_only (encode schema data (Some ∅)).
Proof. intros w r w' H. rewrite encode_nothing_dirty in H. by simplify_eq. Qed.

Lemma bumps_View_encode (view : View) (data : value) : bumps (View_encode view data).
Proof.
  unfold View_encode. bump.
  apply read_only_same_header, read_only_encode_nothing_dirty.
Qed.

Section Mutations.

Context (P : Platform) (view : View) (sample : value).
Hypothesis Hschema : schema view = inferSchema P sample.

Lemma header_view_set path v : preserves same_header (set (schema view) path v).
Proof. rewrite Hschema. apply header_set. Qed.

Lemma bumps_View_set path v : bumps (View_set view path v).
Proof.
  unfold View_set. bump. apply header_view_set.
Qed.

Lemma bumps_View_bulkSet entries : bumps (View_bulkSet view entries).
Proof.
  unfold View_bulkSet. bump.
  apply preserves_for_each; [typeclasses eauto.. |]. intros [path v].
  apply header_view_set.
Qed.

Lemma bumps_View_patch path partial : bumps (View_patch P view path partial).
Proof.
  unfold View_patch. bump.
  - apply preserves_View_decodePartial; typeclasses eauto.
  - apply bumps_View_set.
Qed.

Lemma bumps_applyPatch patch : bumps (applyPatch view patch).
Proof.
  unfold applyPatch. bump.
  destruct (op patch); first [apply bumps_View_set | apply bumps_throw].
Qed.

End Mutations.

(** C3: every mutating call that returns (encode, set, bulkSet, patch,
    applyPatch) has added exactly one, modulo [2^32], to the version
    counter in bytes 0 to 3, by its one [Atomics.add]; the reading calls
    (decode, decodePartial, getTypedArray) leave every byte of the segment
    as it was. *)
Theorem C3_version_counter (P : Platform) (view : View) (sample : value) :
  schema view = inferSchema P sample ->
  (forall data w w',
      View_encode view data w = (Normal tt, w') -> version w' = (version w + 1) mod 2 ^ 32) /\
  (forall path v w w',
      View_set view path v w = (Normal tt, w') -> version w' = (version w + 1) mod 2 ^ 32) /\
  (forall entries w w',
      View_bulkSet view entries w = (Normal tt, w') ->
      version w' = (version w + 1) mod 2 ^ 32) /\
  (forall path partial w w',
      View_patch P view path partial w = (Normal tt, w') ->
      version w' = (version w + 1) mod 2 ^ 32) /\
  (forall patch w w',
      applyPatch view patch w = (Normal tt, w') -> version w' = (version w + 1) mod 2 ^ 32) /\
  (forall w r w', View_decode view w = (r, w') -> sab w' = sab w) /\
  (forall path w r w', View_decodePartial P view path w = (r, w') -> sab w' = sab w) /\
  (forall path w r w', View_getTypedArray view path w = (r, w') -> sab w' = sab w).
Proof.
  intros Hschema. repeat split.
  - intros data w w'. apply bumps_View_encode.
  - intros path v w w'. by apply (bumps_View_set P view sample).
  - intros entries w w'. by apply (bumps_View_bulkSet P view sample).
  - intros path partial w w'. by apply (bumps_View_patch P view sample).
  - intros patch w w'. by apply (bumps_applyPatch P view sample).
  - intros w r w' H. symmetry. exact (preserves_View_decode eq view _ _ _ H).
  - intros path w r w' H. symmetry. exact (preserves_View_decodePartial eq P view path _ _ _ H).
  - intros path w r w' H. symmetry. exact (preserves_View_getTypedArray eq view path _ _ _ H).
Qed.

Lemma C3_version_counter_witness :
  exists w1 w2,
    View_set array_named_view "Array" (VArray 2 [Some (number 1)] []) (fresh_segment 12)
      = (Normal tt, w1) /\
    version w1 = (version (fresh_segment 12) + 1) mod 2 ^ 32 /\
    View_decode array_named_view w1 = (Throw (InvalidOffset 12), w2) /\ sab w2 = sab w1.
Proof.
  pose proof (C3_version_counter plain_platform array_named_view array_named eq_refl)
    as (_ & Hset & _ & _ & _ & Hdecode & _).
  do 2 eexists. split; [vm_compute; reflexivity|]. split.
  - apply (Hset "Array" (VArray 2 [Some (number 1)] [])). vm_compute. reflexivity.
  - split; [vm_compute; reflexivity|].
    eapply Hdecode. vm_compute. reflexivity.
Defined.
(** ** Schema inference on the sample *)

(** C9: the schema inferred from [{num: 42, str: "hello"}] has byteSize 25:
    8 bytes of header, 8 for the number, 4 + 5 for the string; the fields
    get their offsets in enumeration order from byte 8 on: [num] at 8 and
    [str] at 16, in the descriptors, the index and the templates alike. *)
Theorem C9_sample_byteSize (P : Platform) :
  let s := inferSchema P num_str in
  byteSize s = 25 /\ 25 = 8 + 8 + (4 + 5) /\
  TextEncoder_encode "hello" = [104; 101; 108; 108; 111] /\
  d_children (descriptorTree s) =
    Some [("num", primitive TNumber 8 8); ("str", primitive TString 16 (4 + 5))] /\
  flatIndex s !! "num" = Some {| fi_offset := 8; fi_type := "Number" |} /\
  flatIndex s !! "str" = Some {| fi_offset := 16; fi_type := "String" |} /\
  map (fun t => (t_type t, t_offset t, t_size t)) (encodingTemplate s) =
    [("num", 8, 8); ("str", 16, 9); ("", 8, 17)].
Proof. vm_compute. repeat split; reflexivity. Qed.

(** C1, at its failing input [{num: 42, str: "hello"}]: the template of
    [num] records offset 8, but its closures name the variable
    [currentOffset], which holds 25 once inference is over.  On a segment
    of 40 bytes its setter leaves bytes 8 to 15 alone and writes at 25 to
    32; its getter does not see a number stored at byte 8; on a segment of
    exactly [byteSize] bytes the setter is out of range.  For every sample
    the variable ends at [byteSize], past the bytes of every field. *)
Theorem C1_closures_follow_the_cursor :
  (forall P data, currentOffset_var (inferSchema P data) = byteSize (inferSchema P data)) /\
  let s := inferSchema plain_platform num_str in
  (fun t => (t_type t, t_offset t)) <$> encodingTemplate s !! 0%nat = Some ("num", 8) /\
  currentOffset_var s = 25 /\
  (exists w',
      template_set s 0 (number 100) (fresh_segment 40) = (Normal tt, w') /\
      bytes_at w' 8 8 = replicate 8 0 /\
      bytes_at w' 25 8 = le_bytes 8 (number_of_Z 100)) /\
  (exists w,
      store 8 8 (number_of_Z 100) (fresh_segment 40) = (Normal tt, w) /\
      bytes_at w 8 8 = le_bytes 8 (number_of_Z 100) /\
      fst (template_get s 0 w) = Normal (VNumber 0)) /\
  fst (template_set s 0 (number 100) (fresh_segment 25)) = Throw RangeError.
Proof.
  split; [exact cursor_at_byteSize|].
  repeat split; try (vm_compute; reflexivity).
  - eexists. repeat split; vm_compute; reflexivity.
  - eexists. repeat split; vm_compute; reflexivity.
Qed.

(** C2, at its failing input: encoding [{num: 42, str: "hello"}] into a
    fresh segment of [byteSize] bytes succeeds, writes no field byte (only
    the version changes), and the decode that follows returns
    [{num: {num: 0}, str: {str: ""}}], which is not the encoded value. *)
Theorem C2_decode_after_encode :
  exists w1 w2 decoded,
    View_encode num_str_view num_str (fresh_segment 25) = (Normal tt, w1) /\
    bytes_at w1 4 21 = replicate 21 0 /\
    View_decode num_str_view w1 = (Normal decoded, w2) /\
    decoded = VObject 1 [("num", VObject 2 [("num", VNumber 0)]);
                         ("str", VObject 3 [("str", VString "")])] /\
    get num_str "num" = number 42 /\
    get decoded "num" = VObject 2 [("num", VNumber 0)] /\
    get num_str "str" = VString "hello" /\
    get decoded "str" = VObject 3 [("str", VString "")].
Proof.
  do 3 eexists. repeat split; vm_compute; reflexivity.
Qed.


(** ** Immutable views *)

Lemma size_check_inv view w r w' :
  size_check view w = (r, w') ->
  w' = w /\
  ((r = Throw (BufferTooSmall (byteLength (sab w)) (byteSize (schema view))) /\
    byteLength (sab w) < byteSize (schema view)) \/
   (r = Normal tt /\ byteSize (schema view) <= byteLength (sab w))).
Proof.
  unfold size_check. intros H.
  destruct (byteLength (sab w) <? byteSize (schema view)) eqn:E; simplify_eq; split; auto.
  - left. split; [done | lia].
  - right. split; [done | lia].
Qed.

(** C4 fails for [encode]: an immutable view encodes into a segment of
    exactly [byteSize] bytes without error, and the version bytes change. *)
Lemma C4_immutable_encode_succeeds :
  mutable readonly_view = false /\
  exists w',
    View_encode readonly_view num_str (fresh_segment 25) = (Normal tt, w') /\
    version (fresh_segment 25) = 0 /\ version w' = 1.
Proof.
  split; [reflexivity|]. eexists. repeat split; vm_compute; reflexivity.
Qed.

(** C4, amended: on a view made with [mutable] false, set, bulkSet, patch
    and applyPatch throw the immutable-view error and leave the segment as
    it was; encode is refused, with the segment left as it was, when the
    length of the segment differs from [schema.byteSize]. *)
Theorem C4_immutable_view (P : Platform) (view : View) :
  mutable view = false ->
  (forall path v w, View_set view path v w = (Throw CannotMutateImmutable, w)) /\
  (forall entries w, View_bulkSet view entries w = (Throw CannotMutateImmutable, w)) /\
  (forall path partial w,
      View_patch P view path partial w = (Throw CannotMutateImmutable, w)) /\
  (forall patch w, applyPatch view patch w = (Throw CannotPatchImmutable, w)) /\
  (forall data w,
      byteLength (sab w) <> byteSize (schema view) ->
      View_encode view data w
      = (Throw (if byteLength (sab w) <? byteSize (schema view)
                then BufferTooSmall (byteLength (sab w)) (byteSize (schema view))
                else ImmutableSizeMismatch), w)).
Proof.
  intros Himm. repeat split.
  - intros. unfold View_set, mutable_check. by rewrite Himm.
  - intros. unfold View_bulkSet, mutable_check. by rewrite Himm.
  - intros. unfold View_patch, mutable_check. by rewrite Himm.
  - intros. unfold applyPatch. by rewrite Himm.
  - intros data w Hne. unfold View_encode, bind at 1, size_check.
    destruct (byteLength (sab w) <? byteSize (schema view)) eqn:E; [done|].
    unfold bind at 1. rewrite Himm. simpl.
    destruct (byteSize (schema view) =? byteLength (sab w)) eqn:E'; [lia | done].
Qed.

Lemma C4_immutable_view_witness :
  View_set readonly_view "num" (number 1) (fresh_segment 25)
    = (Throw CannotMutateImmutable, fresh_segment 25) /\
  View_encode readonly_view num_str (fresh_segment 40)
    = (Throw ImmutableSizeMismatch, fresh_segment 40).
Proof.
  pose proof (C4_immutable_view plain_platform readonly_view eq_refl)
    as (Hset & _ & _ & _ & Hencode).
  split.
  - apply Hset.
  - rewrite (Hencode num_str (fresh_segment 40)); [reflexivity | by vm_compute].
Defined.

(** ** Failing calls *)

Lemma Atomics_add_version_throws w e w' :
  Atomics_add_version w = (Throw e, w') -> w' = w.
Proof.
  unfold Atomics_add_version, bind. intros H.
  destruct (new_typed_array Int32Array 0 1 w) as [[[]|e1] w1] eqn:E; [done|].
  unfold new_typed_array in E. simpl in E.
  apply in_range_inv in E as [-> _]. by simplify_eq.
Qed.

Lemma View_encode_throws view data w e w' :
  View_encode view data w = (Throw e, w') -> w' = w.
Proof.
  unfold View_encode. intros H.
  unfold bind at 1 in H.
  destruct (size_check view w) as [r1 w1] eqn:E1.
  apply size_check_inv in E1 as [-> [[-> _] | [-> _]]]; [by simplify_eq|].
  unfold bind at 1 in H.
  destruct (negb (mutable view) && _); [by simplify_eq|].
  unfold bind at 1 in H.
  destruct (hasUndefined data); [unfold throw in H; by simplify_eq|].
  unfold ret at 1 in H. unfold bind at 1 in H.
  rewrite encode_nothing_dirty in H.
  by apply Atomics_add_version_throws in H.
Qed.

(** A call of [View.encode] that returns has changed the four bytes of the
    version and nothing else. *)
Lemma View_encode_fields_untouched view data w w' :
  View_encode view data w = (Normal tt, w') ->
  drop 4 (sab w') = drop 4 (sab w) /\ length (sab w') = length (sab w).
Proof.
  unfold View_encode. intros H.
  unfold bind at 1 in H.
  destruct (size_check view w) as [r1 w1] eqn:E1.
  apply size_check_inv in E1 as [-> [[-> _] | [-> _]]]; [by simplify_eq|].
  unfold bind at 1 in H.
  destruct (negb (mutable view) && _); [by simplify_eq|].
  unfold bind at 1 in H.
  destruct (hasUndefined data); [unfold throw in H; by simplify_eq|].
  unfold ret at 1 in H. unfold bind at 1 in H.
  rewrite encode_nothing_dirty in H.
  unfold Atomics_add_version, bind in H.
  destruct (new_typed_array Int32Array 0 1 w) as [[[]|e1] w2] eqn:E; [|done].
  unfold new_typed_array in E. simpl in E.
  apply in_range_inv in E as [-> [? | (_ & _ & Hlen)]]; [done|].
  simplify_eq. simpl. unfold write_bytes. simpl.
  unfold byteLength in Hlen. split.
  - destruct (sab w) as [|b0 [|b1 [|b2 [|b3 rest]]]]; simpl in *; try lia. done.
  - destruct (sab w) as [|b0 [|b1 [|b2 [|b3 rest]]]]; simpl in *; try lia. done.
Qed.

(** C5 fails for [bulkSet]: the first entry is written, the second one
    throws, and the write of the first stays. *)
Lemma C5_bulkSet_partial_write :
  exists w',
    View_bulkSet array_named_view
      [("Array", VArray 2 [Some (number 1); Some (number 2)] []); ("bogus", VNull)]
      (fresh_segment 12) = (Throw (InvalidPath "bogus"), w') /\
    bytes_at (fresh_segment 12) 8 4 = [0; 0; 0; 0] /\
    bytes_at w' 8 4 = [2; 0; 0; 0].
Proof.
  eexists. repeat split; vm_compute; reflexivity.
Qed.

(** C5, amended: a call of encode that throws leaves the segment as it was,
    whatever the error: the checks of the segment's size, of the size match
    of an immutable view and for [undefined] in the data all come before
    the first write.  bulkSet checks mutability and the segment's size
    before its first write, and a call refused by these checks leaves the
    segment as it was. *)
Theorem C5_failed_call_leaves_segment (view : View) :
  (forall data w e w', View_encode view data w = (Throw e, w') -> w' = w) /\
  (forall entries w,
      mutable view = false ->
      View_bulkSet view entries w = (Throw CannotMutateImmutable, w)) /\
  (forall entries w,
      mutable view = true -> byteLength (sab w) < byteSize (schema view) ->
      View_bulkSet view entries w
      = (Throw (BufferTooSmall (byteLength (sab w)) (byteSize (schema view))), w)).
Proof.
  repeat split.
  - intros data w e w'. apply View_encode_throws.
  - intros entries w Himm. unfold View_bulkSet, mutable_check. by rewrite Himm.
  - intros entries w Hmut Hsmall. unfold View_bulkSet, mutable_check. rewrite Hmut.
    unfold bind at 1. simpl. unfold bind at 1, size_check.
    by destruct (byteLength (sab w) <? byteSize (schema view)) eqn:E; [|lia].
Qed.

Lemma C5_failed_call_leaves_segment_witness :
  View_encode num_str_view (VObject 0 [("num", VUndefined)]) (fresh_segment 25)
    = (Throw UndefinedNotAllowed, fresh_segment 25) /\
  View_bulkSet num_str_view [("num", number 1)] (fresh_segment 24)
    = (Throw (BufferTooSmall 24 25), fresh_segment 24).
Proof.
  pose proof (C5_failed_call_leaves_segment num_str_view) as (Hencode & _ & Hbulk).
  split.
  - assert (H : exists w', View_encode num_str_view (VObject 0 [("num", VUndefined)])
                             (fresh_segment 25) = (Throw UndefinedNotAllowed, w')).
    { eexists. vm_compute. reflexivity. }
    destruct H as [w' H]. rewrite H. f_equal. exact (Hencode _ _ _ _ H).
  - apply (Hbulk [("num", number 1)] (fresh_segment 24)); [reflexivity | by vm_compute].
Defined.

(** ** Patches *)

(** C6 fails: [remove] on the slot of a number raises no error; a NaN is
    written and the version goes up. *)
Lemma C6_remove_on_number_slot :
  flatIndex (schema number_named_view) !! "Number"
    = Some {| fi_offset := 8; fi_type := "Number" |} /\
  exists w',
    applyPatch number_named_view (remove_patch "Number") (fresh_segment 24) = (Normal tt, w') /\
    bytes_at w' 16 8 = le_bytes 8 nan_bits /\
    version w' = 1.
Proof.
  split; [vm_compute; reflexivity|].
  eexists. repeat split; vm_compute; reflexivity.
Qed.

(** C6, amended: on a mutable view and a segment that is large enough,
    once the [beforePatch] callback (if any) has returned, applyPatch with
    [add] or [replace] is [set] with the value of the patch, and with
    [remove] it is [set] with [undefined], whatever the type of the slot:
    no error of its own is raised for [remove], and the call ends as that
    [set] ends. *)
Theorem C6_applyPatch_is_set (view : View) (patch : Patch) (w : world) :
  mutable view = true ->
  byteSize (schema view) <= byteLength (sab w) ->
  (forall callback, beforePatch view = Some callback -> callback patch = Normal tt) ->
  applyPatch view patch w =
  match op patch with
  | op_add | op_replace => View_set view (path patch) (p_value patch) w
  | op_remove => View_set view (path patch) VUndefined w
  | op_other name => (Throw (UnsupportedPatchOperation name), w)
  end.
Proof.
  intros Hmut Hsize Hcall. unfold applyPatch. rewrite Hmut.
  unfold bind at 1. simpl. unfold bind at 1, size_check.
  destruct (byteLength (sab w) <? byteSize (schema view)) eqn:E; [lia|].
  unfold bind at 1, call.
  destruct (beforePatch view) as [callback|] eqn:Eb.
  - rewrite (Hcall callback eq_refl). simpl. by destruct (op patch).
  - simpl. by destruct (op patch).
Qed.

Lemma C6_applyPatch_is_set_witness :
  applyPatch number_named_view (remove_patch "Number") (fresh_segment 24)
  = View_set number_named_view "Number" VUndefined (fresh_segment 24).
Proof.
  apply (C6_applyPatch_is_set number_named_view (remove_patch "Number") (fresh_segment 24)).
  - reflexivity.
  - by vm_compute.
  - intros callback H. discriminate H.
Defined.

(** ** Undefined values *)






(** ** The walk of [diff] *)

Lemma existsb_eqb_elem_of (x : string) (s : list string) :
  existsb (String.eqb x) s = bool_decide (x ∈ s).
Proof.
  induction s as [|y s IH]; cbn [existsb].
  - by rewrite bool_decide_eq_false_2 by set_solver.
  - rewrite IH. destruct (String.eqb_spec x y) as [->|Hne]; simpl.
    + by rewrite bool_decide_eq_true_2 by set_solver.
    + apply bool_decide_ext. rewrite elem_of_cons. naive_solver.
Qed.

Lemma filter_all {A} (Q : A -> Prop) `{!forall x, Decision (Q x)} (l : list A) :
  (forall x, x ∈ l -> Q x) -> filter Q l = l.
Proof.
  induction l as [|x l IH]; intros Hall; [done|].
  rewrite filter_cons_True by (apply Hall; left). f_equal. apply IH.
  intros y Hy. apply Hall. by right.
Qed.

Lemma fold_Set_add (keys acc : list string) :
  fold_left Set_add keys acc = acc ++ filter (fun k => k ∉ acc) (first_occurrences keys).
Proof.
  revert acc. induction keys as [|x keys IH]; intros acc; cbn [fold_left first_occurrences].
  - by rewrite app_nil_r.
  - rewrite IH. unfold Set_add. rewrite existsb_eqb_elem_of.
    destruct (decide (x ∈ acc)) as [Hin|Hnotin].
    + rewrite bool_decide_eq_true_2 by done.
      rewrite filter_cons_False by (intros H; exact (H Hin)).
      rewrite list_filter_filter. f_equal. apply list_filter_iff.
      intros k. set_solver.
    + rewrite bool_decide_eq_false_2 by done.
      rewrite filter_cons_True by done.
      rewrite <- app_assoc. simpl. do 2 f_equal.
      rewrite list_filter_filter. apply list_filter_iff.
      intros k. set_solver.
Qed.

Lemma first_occurrences_app (a b : list string) :
  first_occurrences (a ++ b) = union_keys a b.
Proof.
  unfold union_keys. induction a as [|x a IH]; cbn [app first_occurrences].
  - symmetry. apply filter_all. set_solver.
  - rewrite IH, filter_app. simpl. do 2 f_equal.
    rewrite list_filter_filter. apply list_filter_iff. intros k. set_solver.
Qed.

Lemma Set_from_union_keys (oldKeys newKeys : list string) :
  Set_from (oldKeys ++ newKeys) = union_keys oldKeys newKeys.
Proof.
  unfold Set_from. rewrite fold_Set_add. simpl.
  rewrite <- first_occurrences_app. apply filter_all. set_solver.
Qed.

Lemma fold_left_flat_map {A B} (f : list B -> A -> list B) (g : A -> list B) (xs : list A) :
  (forall acc x, f acc x = acc ++ g x) ->
  forall acc, fold_left f xs acc = acc ++ flat_map g xs.
Proof.
  intros H. induction xs as [|x xs IH]; intros acc; simpl.
  - by rewrite app_nil_r.
  - by rewrite IH, H, <- app_assoc.
Qed.

Lemma first_occurrences_elem_of (k : string) (keys : list string) :
  k ∈ first_occurrences keys <-> k ∈ keys.
Proof.
  induction keys as [|x keys IH]; cbn [first_occurrences]; [done|].
  rewrite !elem_of_cons, list_elem_of_filter, IH.
  destruct (decide (k = x)); naive_solver.
Qed.

Lemma first_occurrences_NoDup (keys : list string) : NoDup (first_occurrences keys).
Proof.
  induction keys as [|x keys IH]; cbn [first_occurrences]; constructor.
  - rewrite list_elem_of_filter. naive_solver.
  - by apply NoDup_filter.
Qed.

Lemma union_keys_elem_of (k : string) (oldKeys newKeys : list string) :
  k ∈ union_keys oldKeys newKeys <-> k ∈ oldKeys \/ k ∈ newKeys.
Proof.
  unfold union_keys.
  rewrite elem_of_app, list_elem_of_filter, !first_occurrences_elem_of.
  destruct (decide (k ∈ oldKeys)); naive_solver.
Qed.

Lemma union_keys_NoDup (oldKeys newKeys : list string) : NoDup (union_keys oldKeys newKeys).
Proof.
  unfold union_keys. apply NoDup_app. split; [apply first_occurrences_NoDup|]. split.
  - intros k Hk. rewrite list_elem_of_filter. rewrite first_occurrences_elem_of in Hk.
    naive_solver.
  - apply NoDup_filter, first_occurrences_NoDup.
Qed.

Lemma compare_walk (desc : Descriptor) :
  forall path oldValue newValue patches,
    compare desc path oldValue newValue patches = patches ++ walk desc path oldValue newValue.
Proof.
  induction desc as [ty off size dt ch len IH] using Descriptor_ind'.
  intros path oldValue newValue patches.
  cbn [compare walk d_children d_type].
  destruct (strict_equals oldValue newValue); [by rewrite app_nil_r|].
  destruct ty.
  - done.
  - rewrite Set_from_union_keys. apply fold_left_flat_map. intros acc key.
    destruct ch as [children|]; [|simpl; by rewrite app_nil_r].
    rewrite !entries_get_map.
    destruct (entries_get key children) as [child|] eqn:E; simpl; [|by rewrite app_nil_r].
    apply (entries_get_Forall
             (fun c => forall p o n a, compare c p o n a = a ++ walk c p o n) _ _ _ IH E).
  - destruct ch as [children|]; [|simpl; by rewrite app_nil_r].
    rewrite !entries_get_map.
    destruct (entries_get "[]" children) as [child|] eqn:E; simpl; [|by rewrite app_nil_r].
    apply fold_left_flat_map. intros acc i.
    apply (entries_get_Forall
             (fun c => forall p o n a, compare c p o n a = a ++ walk c p o n) _ _ _ IH E).
  - done.
Qed.

Lemma compareValues_compare : compareValues = compare.
Proof. reflexivity. Qed.

(** C7, at its failing inputs: [diff] does not walk the pair of the old
    and the new value.  It compares the new data with what [decode]
    returns, and [decode] stores every leaf and every array one level
    down, under its own key: [{a: {a: [...]}}] for [{a: [...]}].  On the
    view of [{a: [1, 2]}] and a segment that holds the array [[7, 9]],
    the walk of section 4.3 from [{a: [7, 9]}] to [{a: [7, 5]}] is one
    [replace] of [a[1]] by 5, but [diff] and the compiled [diff] return no
    patch: the old value that reaches the array node is an object without
    a [length], so the greater length is NaN and no index is visited.  On
    the view of [{num: 42, str: "hello"}] and a segment that holds 42 and
    [hello], the walk to the same data is empty, but [diff] returns a
    [replace] for each leaf, as the old value of each is an object. *)
Theorem C7_diff_compares_decoded_shape :
  (walk (descriptorTree (schema array_pair_view)) "" (pair_of 0 7 9) (pair_of 10 7 5)
   = [replace_patch "a[1]" (number 5)] /\
   exists w',
     View_decode array_pair_view (holding_pair 7 9)
     = (Normal (VObject 20
                  [("a", VObject 21
                           [("a", VArray 22 [None; None]
                                    [("a[0]", number 7); ("a[1]", number 9)])])]), w') /\
     rounds (VObject 21 [("a", VArray 22 [None; None]
                                 [("a[0]", number 7); ("a[1]", number 9)])]) = None /\
     diff array_pair_view (pair_of 10 7 5) (holding_pair 7 9) = (Normal [], w') /\
     compiled_diff (schema array_pair_view) (pair_of 10 7 5) (holding_pair 7 9)
     = (Normal [], w')) /\
  (walk (descriptorTree (schema num_str_view)) "" num_str num_str_again = [] /\
   exists w',
     View_decode num_str_view holding_num_str
     = (Normal (VObject 20 [("num", VObject 21 [("num", number 42)]);
                            ("str", VObject 22 [("str", VString "hello")])]), w') /\
     diff num_str_view num_str_again holding_num_str
     = (Normal [replace_patch "num" (number 42); replace_patch "str" (VString "hello")], w') /\
     compiled_diff (schema num_str_view) num_str_again holding_num_str
     = (Normal [replace_patch "num" (number 42); replace_patch "str" (VString "hello")], w')).
Proof.
  split.
  - split; [vm_compute; reflexivity|].
    eexists. repeat split; vm_compute; reflexivity.
  - split; [vm_compute; reflexivity|].
    eexists. repeat split; vm_compute; reflexivity.
Qed.

(** ** Destroying a sync handle *)



Lemma ViewSync_destroy_instance (h : N) (rt : Runtime) (this : ViewSync) :
  instances rt !! h = Some this ->
  instances (ViewSync_destroy h rt) !! h
  = Some {| sync_view := sync_view this; sync_sab := sync_sab this;
            boundVariable := None; boundPaths := boundPaths this;
            lastVersion := lastVersion this; onUpdate := None; pollHandle := None |}.
Proof.
  intros E. unfold ViewSync_destroy. rewrite E. cbn [instances with_instance].
  apply lookup_insert_eq.
Qed.





(** *** Handles track their requests *)

Lemma poll_again_tracked (h : N) (rt : Runtime) :
  has_requestAnimationFrame rt = has_cancelAnimationFrame rt ->
  requests_below rt -> no_requests h rt -> is_Some (instances rt !! h) ->
  poll_tracked h (poll_again h rt) /\ requests_below (poll_again h rt).
Proof.
  intros Henv Hbelow Hnone [this E]. unfold poll_again. rewrite E.
  assert (Hfresh : animationFrames rt !! next_request rt = None /\
                   timeouts rt !! next_request rt = None).
  { split; apply eq_None_not_Some; intros H.
    - specialize (Hbelow _ (or_introl H)). lia.
    - specialize (Hbelow _ (or_intror H)). lia. }
  destruct Hfresh as [Hf Ht].
  destruct (has_requestAnimationFrame rt) eqn:Er;
    cbn [requestAnimationFrame setTimeout instances]; rewrite E;
    (split; [split; [cbn; by rewrite Er | split] |]).
  - intros id. unfold other_requests. cbn. rewrite Er. apply Hnone.
  - intros id. unfold poll_requests. cbn. rewrite Er, lookup_insert.
    case_decide as Hid; [subst id; intros _|intros H; by destruct (Hnone id)].
    eexists. split; [apply lookup_insert_eq | done].
  - intros id. cbn. rewrite lookup_insert. case_decide as Hid; [lia|].
    intros H. specialize (Hbelow id H). lia.
  - intros id. unfold other_requests. cbn. rewrite Er. apply Hnone.
  - intros id. unfold poll_requests. cbn. rewrite Er, lookup_insert.
    case_decide as Hid; [subst id; intros _|intros H; by destruct (Hnone id)].
    eexists. split; [apply lookup_insert_eq | done].
  - intros id. cbn. rewrite lookup_insert. case_decide as Hid; [lia|].
    intros H. specialize (Hbelow id H). lia.
Qed.



Lemma poll_again_other (h h' : N) (rt : Runtime) :
  h <> h' -> poll_tracked h rt -> requests_below rt ->
  poll_tracked h (poll_again h' rt) /\ requests_below (poll_again h' rt).
Proof.
  intros Hne (Henv & Hother & Htracked) Hbelow. unfold poll_again.
  destruct (instances rt !! h') as [this'|] eqn:E'; [|by repeat split].
  unfold poll_tracked, poll_requests, other_requests in *.
  destruct (has_requestAnimationFrame rt) eqn:Er;
    cbn [requestAnimationFrame setTimeout instances]; rewrite E'; cbn; rewrite ?Er;
    (split; [split; [done | split] |]).
  - exact Hother.
  - intros id. rewrite lookup_insert. case_decide as Hd; [congruence|].
    rewrite lookup_insert_ne by done. apply Htracked.
  - intros id. cbn. rewrite lookup_insert. case_decide as Hd; [lia|].
    intros Hs. specialize (Hbelow id Hs). lia.
  - exact Hother.
  - intros id. rewrite lookup_insert. case_decide as Hd; [congruence|].
    rewrite lookup_insert_ne by done. apply Htracked.
  - intros id. cbn. rewrite lookup_insert. case_decide as Hd; [lia|].
    intros Hs. specialize (Hbelow id Hs). lia.
Qed.

(** A run of [poll], for this handle or for another one, keeps the handle
    tracking its requests. *)
Lemma poll_runs_tracked (h id : N) (rt : Runtime) :
  poll_tracked h rt -> requests_below rt ->
  poll_tracked h (poll_runs id rt) /\ requests_below (poll_runs id rt).
Proof.
  intros Htr Hbelow. unfold poll_runs.
  assert (Hcancel : forall h0,
             animationFrames rt !! id = Some h0 ->
             poll_tracked h (poll_again h0 (cancelAnimationFrame id rt)) /\
             requests_below (poll_again h0 (cancelAnimationFrame id rt))).
  { intros h0 Hid.
    assert (Hb : requests_below (cancelAnimationFrame id rt)).
    { intros id' H. apply Hbelow. cbn in H. destruct H as [H|H]; [left|by right].
      destruct H as [x H]. apply lookup_delete_Some in H as [_ H]. by eexists. }
    destruct Htr as (Henv & Hother & Htracked).
    destruct (decide (h0 = h)) as [->|Hne].
    - unfold poll_requests, other_requests in *.
      destruct (has_requestAnimationFrame rt) eqn:Er; [|by destruct (Hother id)].
      destruct (Htracked id Hid) as (this & E & Hp).
      apply poll_again_tracked; [cbn; congruence | done | | cbn; rewrite E; by eexists].
      intros id'. cbn. split; [|apply Hother].
      rewrite lookup_delete. case_decide as Hd; [done|]. intros H.
      destruct (Htracked id' H) as (this' & E2 & Hp'). congruence.
    - apply poll_again_other; [done | | done].
      unfold poll_tracked, poll_requests, other_requests in *. cbn.
      split; [done|]. destruct (has_requestAnimationFrame rt).
      + split; [done|]. intros id'. rewrite lookup_delete. case_decide as Hd; [done | apply Htracked].
      + split; [|done]. intros id'. rewrite lookup_delete. case_decide as Hd; [done | apply Hother]. }
  assert (Hclear : forall h0,
             timeouts rt !! id = Some h0 ->
             poll_tracked h (poll_again h0 (clearTimeout id rt)) /\
             requests_below (poll_again h0 (clearTimeout id rt))).
  { intros h0 Hid.
    assert (Hb : requests_below (clearTimeout id rt)).
    { intros id' H. apply Hbelow. cbn in H. destruct H as [H|H]; [by left|right].
      destruct H as [x H]. apply lookup_delete_Some in H as [_ H]. by eexists. }
    destruct Htr as (Henv & Hother & Htracked).
    destruct (decide (h0 = h)) as [->|Hne].
    - unfold poll_requests, other_requests in *.
      destruct (has_requestAnimationFrame rt) eqn:Er; [by destruct (Hother id)|].
      destruct (Htracked id Hid) as (this & E & Hp).
      apply poll_again_tracked; [cbn; congruence | done | | cbn; rewrite E; by eexists].
      intros id'. cbn. split; [apply Hother|].
      rewrite lookup_delete. case_decide as Hd; [done|]. intros H.
      destruct (Htracked id' H) as (this' & E2 & Hp'). congruence.
    - apply poll_again_other; [done | | done].
      unfold poll_tracked, poll_requests, other_requests in *. cbn.
      split; [done|]. destruct (has_requestAnimationFrame rt).
      + split; [|done]. intros id'. rewrite lookup_delete. case_decide as Hd; [done | apply Hother].
      + split; [done|]. intros id'. rewrite lookup_delete. case_decide as Hd; [done | apply Htracked]. }
  destruct (animationFrames rt !! id) as [h0|]; [by apply Hcancel|].
  destruct (timeouts rt !! id) as [h0|]; [by apply Hclear | done].
Qed.

(** * The rest of the library: proofs *)

(** ** Numbers that are integers *)

Lemma number_of_Z_fields (z : Z) :
  0 < Z.abs z < 2 ^ 53 ->
  let e := Z.log2 (Z.abs z) in
  0 <= e <= 52 /\
  0 <= Z.abs z * 2 ^ (52 - e) - 2 ^ 52 < 2 ^ 52 /\
  number_of_Z z =
    (if z <? 0 then 2 ^ 63 else 0) + (e + 1023) * 2 ^ 52 + (Z.abs z * 2 ^ (52 - e) - 2 ^ 52).
Proof.
  intros [Hpos Hlt] e.
  assert (He : 0 <= e <= 52).
  { split; [apply Z.log2_nonneg|]. subst e.
    assert (Z.log2 (Z.abs z) < 53) by (apply Z.log2_lt_pow2; lia). lia. }
  destruct (Z.log2_spec (Z.abs z) Hpos) as [Hlo Hhi]. fold e in Hlo, Hhi.
  assert (Hpow : 2 ^ e * 2 ^ (52 - e) = 2 ^ 52).
  { rewrite <- Z.pow_add_r by lia. f_equal. lia. }
  assert (Hsucc : 2 ^ Z.succ e = 2 * 2 ^ e) by (apply Z.pow_succ_r; lia).
  assert (0 < 2 ^ (52 - e)) by (apply Z.pow_pos_nonneg; lia).
  split; [exact He|]. split; [nia|].
  unfold number_of_Z. destruct (z =? 0) eqn:E; [lia|]. reflexivity.
Qed.

Lemma number_of_Z_exponent (z : Z) :
  0 < Z.abs z < 2 ^ 53 ->
  (number_of_Z z / 2 ^ 52) mod 2 ^ 11 = Z.log2 (Z.abs z) + 1023 /\
  number_of_Z z mod 2 ^ 52 = Z.abs z * 2 ^ (52 - Z.log2 (Z.abs z)) - 2 ^ 52 /\
  (number_of_Z z / 2 ^ 63) mod 2 = (if z <? 0 then 1 else 0).
Proof.
  intros H. destruct (number_of_Z_fields z H) as (He & Hf & ->).
  set (e := Z.log2 (Z.abs z)) in *. set (f := Z.abs z * 2 ^ (52 - e) - 2 ^ 52) in *.
  set (s := if z <? 0 then 1 else 0).
  assert (Hs : (if z <? 0 then 2 ^ 63 else 0) = s * 2 ^ 63).
  { subst s. destruct (z <? 0); reflexivity. }
  rewrite Hs. clearbody e f.
  assert (Hs01 : 0 <= s <= 1) by (subst s; destruct (z <? 0); lia).
  clearbody s.
  assert (Hdiv : (s * 2 ^ 63 + (e + 1023) * 2 ^ 52 + f) / 2 ^ 52 = s * 2 ^ 11 + (e + 1023)).
  { symmetry. apply (Z.div_unique_pos _ _ _ f); [lia|].
    change (2 ^ 63) with (2 ^ 11 * 2 ^ 52). ring. }
  repeat split.
  - rewrite Hdiv. symmetry. apply (Z.mod_unique_pos _ _ s); lia.
  - symmetry. apply (Z.mod_unique_pos _ _ (s * 2 ^ 11 + (e + 1023))); [lia|].
    change (2 ^ 63) with (2 ^ 11 * 2 ^ 52). ring.
  - assert (Hd : (s * 2 ^ 63 + (e + 1023) * 2 ^ 52 + f) / 2 ^ 63 = s).
    { symmetry. apply (Z.div_unique_pos _ _ _ ((e + 1023) * 2 ^ 52 + f)); lia. }
    rewrite Hd. apply Z.mod_small. lia.
Qed.

Lemma number_trunc_of_Z (z : Z) : Z.abs z < 2 ^ 53 -> number_trunc (number_of_Z z) = Some z.
Proof.
  intros Hlt. destruct (decide (z = 0)) as [->|Hz]; [reflexivity|].
  assert (H : 0 < Z.abs z < 2 ^ 53) by lia.
  destruct (number_of_Z_fields z H) as (He & Hf & _).
  destruct (number_of_Z_exponent z H) as (Hexp & Hman & Hsign).
  unfold number_trunc. cbv zeta. rewrite Hexp, Hman, Hsign.
  set (e := Z.log2 (Z.abs z)) in *.
  destruct (e + 1023 =? 2047) eqn:E1; [lia|].
  destruct (e + 1023 =? 0) eqn:E2; [lia|].
  assert (Hmag : (if 1075 <=? e + 1023
                  then (Z.abs z * 2 ^ (52 - e) - 2 ^ 52 + 2 ^ 52) * 2 ^ (e + 1023 - 1075)
                  else (Z.abs z * 2 ^ (52 - e) - 2 ^ 52 + 2 ^ 52) / 2 ^ (1075 - (e + 1023)))
                 = Z.abs z).
  { replace (Z.abs z * 2 ^ (52 - e) - 2 ^ 52 + 2 ^ 52) with (Z.abs z * 2 ^ (52 - e)) by ring.
    destruct (1075 <=? e + 1023) eqn:E3.
    - assert (e = 52) as -> by lia. simpl. lia.
    - replace (1075 - (e + 1023)) with (52 - e) by lia.
      apply Z.div_mul. apply Z.pow_nonzero; lia. }
  rewrite Hmag. f_equal. destruct (z <? 0) eqn:E4; simpl; lia.
Qed.

Lemma has_fraction_of_Z (z : Z) : Z.abs z < 2 ^ 53 -> has_fraction (number_of_Z z) = false.
Proof.
  intros Hlt. destruct (decide (z = 0)) as [->|Hz]; [reflexivity|].
  assert (H : 0 < Z.abs z < 2 ^ 53) by lia.
  destruct (number_of_Z_fields z H) as (He & Hf & _).
  destruct (number_of_Z_exponent z H) as (Hexp & Hman & Hsign).
  unfold has_fraction. cbv zeta. rewrite Hexp, Hman.
  set (e := Z.log2 (Z.abs z)) in *.
  destruct (e + 1023 =? 0) eqn:E2; [lia|].
  destruct (1075 <=? e + 1023) eqn:E3; [reflexivity|].
  replace (Z.abs z * 2 ^ (52 - e) - 2 ^ 52 + 2 ^ 52) with (Z.abs z * 2 ^ (52 - e)) by ring.
  replace (1075 - (e + 1023)) with (52 - e) by lia.
  rewrite Z.mod_mul by (apply Z.pow_nonzero; lia). reflexivity.
Qed.

Lemma is_nan_of_Z (z : Z) : Z.abs z < 2 ^ 53 -> is_nan (number_of_Z z) = false.
Proof.
  intros Hlt. destruct (decide (z = 0)) as [->|Hz]; [reflexivity|].
  assert (H : 0 < Z.abs z < 2 ^ 53) by lia.
  destruct (number_of_Z_fields z H) as (He & _).
  destruct (number_of_Z_exponent z H) as (Hexp & _).
  unfold is_nan. rewrite Hexp.
  destruct (Z.log2 (Z.abs z) + 1023 =? 2047) eqn:E; [lia | reflexivity].
Qed.

Lemma is_negative_of_Z (z : Z) : Z.abs z < 2 ^ 53 -> is_negative (number_of_Z z) = (z <? 0).
Proof.
  intros Hlt. destruct (decide (z = 0)) as [->|Hz]; [reflexivity|].
  assert (H : 0 < Z.abs z < 2 ^ 53) by lia.
  destruct (number_of_Z_exponent z H) as (_ & _ & Hsign).
  unfold is_negative. rewrite Hsign. by destruct (z <? 0).
Qed.

Lemma at_least_of_Z (n z : Z) :
  Z.abs z < 2 ^ 53 -> at_least n (number_of_Z z) = (z <=? n).
Proof.
  intros H. unfold at_least.
  by rewrite is_nan_of_Z, number_trunc_of_Z, has_fraction_of_Z.
Qed.

Lemma is_zero_of_Z (z : Z) : Z.abs z < 2 ^ 53 -> is_zero (number_of_Z z) = (z =? 0).
Proof.
  intros Hlt. destruct (decide (z = 0)) as [->|Hz]; [reflexivity|].
  assert (H : 0 < Z.abs z < 2 ^ 53) by lia.
  destruct (number_of_Z_fields z H) as (He & Hf & ->).
  unfold is_zero. destruct (z =? 0) eqn:E; [lia|]. apply Z.eqb_neq.
  set (e := Z.log2 (Z.abs z)) in *. set (f := Z.abs z * 2 ^ (52 - e) - 2 ^ 52) in *.
  clearbody e f.
  assert (Hmod : (((if z <? 0 then 2 ^ 63 else 0) + (e + 1023) * 2 ^ 52 + f)) mod 2 ^ 63
                 = (e + 1023) * 2 ^ 52 + f).
  { symmetry. apply (Z.mod_unique_pos _ _ (if z <? 0 then 1 else 0)); [lia|].
    destruct (z <? 0); ring. }
  rewrite Hmod. lia.
Qed.

(** ** The cache *)

Lemma is_nan_nan_bits : is_nan nan_bits = true.
Proof. reflexivity. Qed.

Lemma SameValueZero_identity (a b : value) :
  SameValueZero a b = true <-> key_identity a = key_identity b.
Proof.
  destruct a, b; cbn [SameValueZero strict_equals ref_of key_identity];
    try (split; [discriminate | by intros [=]]);
    try (split; [discriminate | repeat case_match; by intros [=]]);
    try (split; [by intros ?%N.eqb_eq; subst | intros [= ->]; apply N.eqb_refl]).
  - done.
  - done.
  - split; [by intros ?%Bool.eqb_prop; subst | intros [= ->]; apply Bool.eqb_reflx].
  - unfold number_equal.
    destruct (is_nan bits) eqn:E1, (is_nan bits0) eqn:E2; simpl.
    + done.
    + split; [done|]. destruct (is_zero bits0); intros [= H]; subst; by rewrite ?is_nan_nan_bits in *.
    + split; [done|]. destruct (is_zero bits); intros [= H]; subst; by rewrite ?is_nan_nan_bits in *.
    + destruct (is_zero bits) eqn:Z1, (is_zero bits0) eqn:Z2; simpl;
        rewrite ?orb_true_r, ?orb_false_r.
      * done.
      * split; [intros ?%Z.eqb_eq; congruence | intros [= <-]; done].
      * split; [intros ?%Z.eqb_eq; congruence | intros [= ->]; done].
      * split; [by intros ?%Z.eqb_eq; subst | intros [= ->]; apply Z.eqb_refl].
  - split; [by intros ?%Z.eqb_eq; subst | intros [= ->]; apply Z.eqb_refl].
  - split; [by intros ?%String.eqb_eq; subst | intros [= ->]; apply String.eqb_refl].
Qed.

Lemma SameValueZero_refl (a : value) : SameValueZero a a = true.
Proof. by apply SameValueZero_identity. Qed.

Lemma SameValueZero_sym (a b : value) : SameValueZero a b = SameValueZero b a.
Proof.
  apply eq_true_iff_eq. rewrite !SameValueZero_identity. split; congruence.
Qed.

Lemma SameValueZero_trans (a b c : value) :
  SameValueZero a b = true -> SameValueZero b c = true -> SameValueZero a c = true.
Proof. rewrite !SameValueZero_identity. congruence. Qed.

Lemma SameValueZero_other (a b c : value) :
  SameValueZero a b = true -> SameValueZero c b = false -> SameValueZero a c = false.
Proof.
  intros Hab Hcb. destruct (SameValueZero a c) eqn:E; [|done].
  rewrite SameValueZero_sym in E.
  by rewrite (SameValueZero_trans c a b E Hab) in Hcb.
Qed.

Lemma is_zero_not_nan (bits : Z) : is_zero bits = true -> is_nan bits = false.
Proof.
  unfold is_zero, is_nan. intros E%Z.eqb_eq.
  apply andb_false_iff. left. apply Z.eqb_neq.
  rewrite (Z.div_mod bits (2 ^ 63)) by lia. rewrite E, Z.add_0_r.
  change (2 ^ 63) with (2 ^ 52 * 2 ^ 11).
  rewrite <- Z.mul_assoc, Z.mul_comm, Z.div_mul by lia.
  rewrite Z.mul_comm, Z.mod_mul by lia. lia.
Qed.

Lemma key_identity_Map_key (key : value) : key_identity (Map_key key) = key_identity key.
Proof.
  destruct key; try done. cbn [Map_key].
  destruct (is_zero bits) eqn:E; [|done]. cbn [key_identity].
  by rewrite E, (is_zero_not_nan bits E).
Qed.

Lemma SameValueZero_Map_key (k key : value) :
  SameValueZero (Map_key key) k = SameValueZero key k.
Proof.
  apply eq_true_iff_eq. by rewrite !SameValueZero_identity, key_identity_Map_key.
Qed.

Lemma strict_equals_undefined (k : value) :
  strict_equals k VUndefined = true <-> k = VUndefined.
Proof. destruct k; simpl; split; try done. Qed.

Lemma SameValueZero_undefined (k : value) :
  SameValueZero k VUndefined = true <-> k = VUndefined.
Proof. destruct k; simpl; split; try done. Qed.

Lemma Map_key_undefined (key : value) : Map_key key = VUndefined -> key = VUndefined.
Proof. destruct key; try done. simpl. by destruct (is_zero bits). Qed.

Lemma Map_get_set (key v : value) (m : list (value * value)) :
  Map_get key (Map_set key v m) = v.
Proof.
  induction m as [|[k y] m IH]; cbn [Map_set Map_get].
  - by rewrite SameValueZero_Map_key, SameValueZero_refl.
  - destruct (SameValueZero k key) eqn:E; cbn [Map_get]; by rewrite E.
Qed.

Lemma length_Map_set (key v : value) (m : list (value * value)) :
  (length (Map_set key v m) <= S (length m))%nat.
Proof.
  induction m as [|[k y] m IH]; cbn [Map_set]; [simpl; lia|].
  destruct (SameValueZero k key); simpl in *; lia.
Qed.

Lemma length_Map_delete (key : value) (m : list (value * value)) :
  (length (Map_delete key m) <= length m)%nat.
Proof.
  induction m as [|[k y] m IH]; cbn [Map_delete]; [done|].
  destruct (SameValueZero k key); simpl in *; lia.
Qed.

Lemma length_Map_delete_present (key : value) (m : list (value * value)) :
  Map_get key m <> VUndefined -> S (length (Map_delete key m)) = length m.
Proof.
  induction m as [|[k y] m IH]; cbn [Map_delete Map_get]; [done|].
  destruct (SameValueZero k key); simpl; [done|]. intros H. by rewrite IH.
Qed.

Lemma Forall_Map_delete (Q : value * value -> Prop) (key : value) (m : list (value * value)) :
  Forall Q m -> Forall Q (Map_delete key m).
Proof.
  induction 1 as [|[k y] m Hk Hm IH]; cbn [Map_delete]; [done|].
  destruct (SameValueZero k key); [done | by constructor].
Qed.

Lemma Forall_Map_set (Q : value -> Prop) (key v : value) (m : list (value * value)) :
  Q (Map_key key) -> Forall (fun e => Q e.1) m -> Forall (fun e => Q e.1) (Map_set key v m).
Proof.
  intros Hkey. induction 1 as [|[k y] m Hk Hm IH]; cbn [Map_set].
  - by repeat constructor.
  - destruct (SameValueZero k key); by constructor.
Qed.

Lemma Map_wf_delete (key : value) (m : list (value * value)) :
  Map_wf m -> Map_wf (Map_delete key m).
Proof.
  induction m as [|[k y] m IH]; cbn [Map_delete Map_wf]; [done|].
  intros [Hk Hm]. destruct (SameValueZero k key); [done|].
  cbn [Map_wf]. split; [by apply Forall_Map_delete | by apply IH].
Qed.

Lemma Map_wf_set (key v : value) (m : list (value * value)) :
  Map_wf m -> Map_wf (Map_set key v m).
Proof.
  induction m as [|[k y] m IH]; cbn [Map_set Map_wf]; [done|].
  intros [Hk Hm]. destruct (SameValueZero k key) eqn:E; cbn [Map_wf]; [done|].
  split; [|by apply IH].
  apply (Forall_Map_set (fun k' => SameValueZero k' k = false)); [|done].
  rewrite SameValueZero_Map_key. by rewrite SameValueZero_sym.
Qed.

(** Where no entry has the key, [delete] changes nothing and [set] adds
    the entry at the end. *)
Lemma Map_set_absent (key v : value) (m : list (value * value)) :
  Forall (fun e => SameValueZero e.1 key = false) m ->
  Map_set key v m = m ++ [(Map_key key, v)].
Proof.
  induction 1 as [|[k y] m Hk Hm IH]; cbn [Map_set]; [done|].
  simpl in Hk. rewrite Hk. simpl. by rewrite IH.
Qed.

Lemma Map_delete_absent (key : value) (m : list (value * value)) :
  Map_wf m -> Forall (fun e => SameValueZero e.1 key = false) (Map_delete key m).
Proof.
  induction m as [|[k y] m IH]; cbn [Map_delete Map_wf]; [done|].
  intros [Hk Hm]. destruct (SameValueZero k key) eqn:E.
  - eapply Forall_impl; [exact Hk|]. intros [k' y'] H. simpl in *.
    destruct (SameValueZero k' key) eqn:E'; [|done].
    rewrite <- H. symmetry. apply (SameValueZero_trans k' key k); [done|].
    by rewrite SameValueZero_sym.
  - constructor; [done | by apply IH].
Qed.

Lemma Map_get_absent (key : value) (m : list (value * value)) :
  Forall (fun e => SameValueZero e.1 key = false) m -> Map_get key m = VUndefined.
Proof.
  induction 1 as [|[k y] m Hk Hm IH]; cbn [Map_get]; [done|].
  simpl in Hk. by rewrite Hk.
Qed.

(** X1 (view-sync.ts, LRUCache): a key that has just been set is found with
    the value that was set, whatever the cache held and whatever was
    evicted to make room. *)
Theorem LRUCache_get_after_set (c : LRUCache) (key v : value) :
  (LRUCache_get key (LRUCache_set key v c)).1 = v.
Proof. unfold LRUCache_get, LRUCache_set. cbn. apply Map_get_set. Qed.

Lemma number_le_zero_of_Z (n : Z) :
  Z.abs n < 2 ^ 53 -> number_le_zero (number_of_Z n) = (n <=? 0).
Proof.
  intros H. unfold number_le_zero.
  rewrite is_nan_of_Z, is_zero_of_Z, is_negative_of_Z by done.
  simpl. destruct (Z.eqb_spec n 0), (Z.ltb_spec n 0), (Z.leb_spec n 0); simpl; try done; lia.
Qed.

Lemma LRUCache_ok_set (n : Z) (c : LRUCache) (key v : value) :
  1 <= n < 2 ^ 53 -> LRUCache_ok n c -> key <> VUndefined ->
  LRUCache_ok n (LRUCache_set key v c).
Proof.
  intros Hn (Hmax & Hlen & Hwf & Hdef) Hkey. unfold LRUCache_set.
  rewrite Hmax, at_least_of_Z by lia.
  assert (Hkey' : Map_key key <> VUndefined) by (intros H; by apply Map_key_undefined in H).
  destruct (Z.leb_spec n (Z.of_nat (length (cache c)))) as [Efull|Efull].
  - destruct (cache c) as [|[fk fv] rest] eqn:Ec; [simpl in Efull; lia|].
    cbn [Map_first_key].
    apply Forall_cons in Hdef as [Hfk Hrest]. simpl in Hfk.
    destruct (strict_equals fk VUndefined) eqn:Eu; [by apply strict_equals_undefined in Eu|].
    cbn [negb Map_delete]. rewrite SameValueZero_refl.
    destruct Hwf as [_ Hwf].
    split; [done|]. cbn [cache]. split; [|split].
    + pose proof (length_Map_set key v rest). simpl in Hlen. lia.
    + by apply Map_wf_set.
    + by apply (Forall_Map_set (fun k => k <> VUndefined)).
  - split; [done|]. cbn [cache]. split; [|split].
    + pose proof (length_Map_set key v (cache c)). lia.
    + by apply Map_wf_set.
    + by apply (Forall_Map_set (fun k => k <> VUndefined)).
Qed.

Lemma LRUCache_ok_get (n : Z) (c : LRUCache) (key : value) :
  LRUCache_ok n c -> LRUCache_ok n (LRUCache_get key c).2.
Proof.
  intros (Hmax & Hlen & Hwf & Hdef). unfold LRUCache_get. cbn [snd].
  destruct (ToBoolean (Map_get key (cache c))) eqn:Et; [|done].
  assert (Hpresent : Map_get key (cache c) <> VUndefined).
  { intros H. by rewrite H in Et. }
  assert (Hkey : Map_key key <> VUndefined).
  { intros H%Map_key_undefined. subst key. apply Hpresent, Map_get_absent.
    eapply Forall_impl; [exact Hdef|]. intros [k y] Hk. simpl in *.
    destruct (SameValueZero k VUndefined) eqn:E; [|done].
    by apply SameValueZero_undefined in E. }
  split; [done|]. cbn [cache]. split; [|split].
  - pose proof (length_Map_set key (Map_get key (cache c)) (Map_delete key (cache c))).
    pose proof (length_Map_delete_present key (cache c) Hpresent). lia.
  - by apply Map_wf_set, Map_wf_delete.
  - apply (Forall_Map_set (fun k => k <> VUndefined)); [done|]. by apply Forall_Map_delete.
Qed.

(** X2 (view-sync.ts, LRUCache): a cache made for a whole number [n] of
    entries, at least one, never holds more than [n] entries, as long as
    [undefined] is not used as a key: the constructor accepts [n] and
    makes an empty cache, and [set] and [get] keep the bound (and keep
    the keys distinct). *)
Theorem LRUCache_capacity (n : Z) :
  1 <= n < 2 ^ 53 ->
  (exists c, LRUCache_new (number_of_Z n) = Returned c /\ cache c = [] /\ LRUCache_ok n c) /\
  (forall c key v,
      LRUCache_ok n c -> key <> VUndefined ->
      LRUCache_ok n (LRUCache_set key v c) /\
      Z.of_nat (length (cache (LRUCache_set key v c))) <= n) /\
  (forall c key,
      LRUCache_ok n c ->
      LRUCache_ok n (LRUCache_get key c).2 /\
      Z.of_nat (length (cache (LRUCache_get key c).2)) <= n).
Proof.
  intros Hn. split; [|split].
  - eexists. unfold LRUCache_new. rewrite number_le_zero_of_Z by lia.
    destruct (n <=? 0) eqn:E; [lia|]. split; [reflexivity|]. split; [reflexivity|].
    repeat split; simpl; try done; lia.
  - intros c key v Hok Hkey.
    pose proof (LRUCache_ok_set n c key v Hn Hok Hkey) as H.
    split; [exact H | apply H].
  - intros c key Hok. pose proof (LRUCache_ok_get n c key Hok) as H.
    split; [exact H | apply H].
Qed.

Lemma LRUCache_capacity_witness :
  exists c,
    LRUCache_new (number_of_Z 2) = Returned c /\
    cache (LRUCache_set (VString "c") (number 3)
             (LRUCache_set (VString "b") (number 2)
                (LRUCache_set (VString "a") (number 1) c)))
    = [(VString "b", number 2); (VString "c", number 3)] /\
    Z.of_nat (length (cache (LRUCache_set (VString "c") (number 3)
             (LRUCache_set (VString "b") (number 2)
                (LRUCache_set (VString "a") (number 1) c))))) <= 2.
Proof.
  destruct (LRUCache_capacity 2 ltac:(lia)) as ((c & Hnew & Hempty & Hok) & Hset & _).
  exists c. split; [exact Hnew|].
  assert (Hc : c = {| cache := []; maxSize := number_of_Z 2 |}).
  { vm_compute in Hnew. by injection Hnew as <-. }
  split; [subst c; vm_compute; reflexivity|].
  apply Hset; [|done]. apply Hset; [|done]. apply Hset; [|done]. exact Hok.
Defined.

(** *** What was used last is evicted last *)

Lemma held_get (key v : value) (j : nat) (m : list (value * value)) :
  held key v j m -> Map_get key m = v.
Proof.
  intros (before & k & after & -> & Hk & Hbefore & _).
  induction Hbefore as [|[k' y'] before Hk' _ IH]; cbn [app Map_get].
  - by rewrite Hk.
  - simpl in Hk'. by rewrite Hk'.
Qed.

Lemma held_last (key v : value) (m : list (value * value)) :
  Forall (fun e => SameValueZero e.1 key = false) m ->
  held key v 0 (Map_set key v m).
Proof.
  intros H. rewrite Map_set_absent by done.
  exists m, (Map_key key), []. repeat split; try done.
  by rewrite SameValueZero_Map_key, SameValueZero_refl.
Qed.

Lemma held_Map_set (key v key' x : value) (j : nat) (m : list (value * value)) :
  SameValueZero key' key = false -> held key v j m -> held key v (S j) (Map_set key' x m).
Proof.
  intros Hne (before & k & after & -> & Hk & Hbefore & Hafter).
  assert (Hkk : SameValueZero k key' = false) by (by apply (SameValueZero_other k key key')).
  induction Hbefore as [|[k0 y0] before Hk0 Hbefore IH]; cbn [app Map_set].
  - rewrite Hkk. exists [], k, (Map_set key' x after). repeat split; try done.
    pose proof (length_Map_set key' x after). lia.
  - destruct (SameValueZero k0 key') eqn:E.
    + exists ((k0, x) :: before), k, after. repeat split; try done.
      * by constructor.
      * lia.
    + destruct IH as (before' & k' & after' & Heq & Hk' & Hbefore' & Hafter').
      rewrite Heq. exists ((k0, y0) :: before'), k', after'. repeat split; try done.
      by constructor.
Qed.

Lemma held_LRUCache_set (n : Z) (key v key' x : value) (j : nat) (c : LRUCache) :
  Z.abs n < 2 ^ 53 -> maxSize c = number_of_Z n -> Z.of_nat j + 1 < n ->
  SameValueZero key' key = false ->
  held key v j (cache c) -> held key v (S j) (cache (LRUCache_set key' x c)).
Proof.
  intros Hn Hmax Hj Hne Hheld. unfold LRUCache_set. cbn [cache].
  apply held_Map_set; [done|].
  rewrite Hmax, at_least_of_Z by done.
  destruct (Z.leb_spec n (Z.of_nat (length (cache c)))) as [Efull|Efull]; [|done].
  destruct Hheld as (before & k & after & Heq & Hk & Hbefore & Hafter).
  rewrite Heq in *. destruct before as [|[fk fv] before].
  - simpl in Efull. lia.
  - cbn [app Map_first_key].
    destruct (negb (strict_equals fk VUndefined)).
    + cbn [Map_delete]. rewrite SameValueZero_refl.
      apply Forall_cons in Hbefore as [_ Hbefore].
      exists before, k, after. by repeat split.
    + exists ((fk, fv) :: before), k, after. by repeat split.
Qed.

Lemma held_LRUCache_set_all (n : Z) (key v : value) (writes : list (value * value)) :
  Z.abs n < 2 ^ 53 ->
  Forall (fun e => SameValueZero e.1 key = false) writes ->
  forall (j : nat) (c : LRUCache),
    maxSize c = number_of_Z n -> Z.of_nat (j + length writes) < n ->
    held key v j (cache c) ->
    held key v (j + length writes) (cache (LRUCache_set_all writes c)).
Proof.
  intros Hn. unfold LRUCache_set_all.
  induction 1 as [|[key' x] writes Hne _ IH]; intros j c Hmax Hj Hheld; cbn [fold_left length].
  - by rewrite Nat.add_0_r.
  - replace (j + S (length writes))%nat with (S j + length writes)%nat by lia.
    apply IH.
    + done.
    + simpl in Hj. lia.
    + apply (held_LRUCache_set n); try done. simpl in Hj. lia.
Qed.

(** X3 (view-sync.ts, LRUCache): what was used last is evicted last.  In a
    cache for [n] entries, a key whose value has just been read by [get]
    (a value that is not falsy), or that has just been added by [set], is
    still found, with that value, after as many as [n - 1] calls of [set]
    for other keys. *)
Theorem LRUCache_recently_used_survives (n : Z) (c : LRUCache) (key : value)
    (writes : list (value * value)) :
  1 <= n < 2 ^ 53 -> maxSize c = number_of_Z n -> Map_wf (cache c) ->
  Forall (fun e => SameValueZero e.1 key = false) writes ->
  Z.of_nat (length writes) < n ->
  (forall v,
      (LRUCache_get key c).1 = v -> ToBoolean v = true ->
      (LRUCache_get key (LRUCache_set_all writes (LRUCache_get key c).2)).1 = v) /\
  (forall v,
      Forall (fun e => SameValueZero e.1 key = false) (cache c) ->
      (LRUCache_get key (LRUCache_set_all writes (LRUCache_set key v c))).1 = v).
Proof.
  intros Hn Hmax Hwf Hwrites Hlen. split.
  - intros v Hv Ht. unfold LRUCache_get in *. cbn [fst snd] in *.
    rewrite Hv, Ht.
    apply (held_get key v (0 + length writes)).
    apply (held_LRUCache_set_all n); try done; try lia.
    cbn [cache]. apply held_last. by apply Map_delete_absent.
  - intros v Habsent. unfold LRUCache_get. cbn [fst].
    apply (held_get key v (0 + length writes)).
    apply (held_LRUCache_set_all n); try done; try lia.
    unfold LRUCache_set. cbn [cache]. apply held_last.
    destruct (at_least _ _); [|done].
    destruct (negb _); [|done]. by apply Forall_Map_delete.
Qed.

Lemma LRUCache_recently_used_survives_witness :
  let c := {| cache := [(VString "a", number 1); (VString "b", number 2)];
              maxSize := number_of_Z 2 |} in
  (LRUCache_get (VString "a") c).1 = number 1 /\
  cache (LRUCache_get (VString "a") c).2 = [(VString "b", number 2); (VString "a", number 1)] /\
  (LRUCache_get (VString "a")
     (LRUCache_set_all [(VString "c", number 3)] (LRUCache_get (VString "a") c).2)).1
  = number 1.
Proof.
  intros c. split; [reflexivity|]. split; [vm_compute; reflexivity|].
  refine (proj1 (LRUCache_recently_used_survives 2 c (VString "a") [(VString "c", number 3)]
                   _ _ _ _ _) (number 1) _ _).
  - lia.
  - reflexivity.
  - simpl. repeat split; repeat constructor.
  - repeat constructor.
  - simpl. lia.
  - reflexivity.
  - reflexivity.
Defined.

(** ** Bytes written and read back *)

Lemma store_bytes_inv (off : Z) (bs : list Z) (w : world) (r : outcome unit) (w' : world) :
  store_bytes off bs w = (r, w') ->
  (r = Throw RangeError /\ w' = w) \/
  (r = Normal tt /\ 0 <= off /\ off + byteLength bs <= byteLength (sab w) /\
   w' = World (write_bytes (sab w) off bs) (heap w)).
Proof.
  unfold store_bytes, bind. intros H.
  destruct (in_range off (byteLength bs) w) as [r1 w1] eqn:E.
  apply in_range_inv in E as [-> [-> | (-> & H0 & Hle)]].
  - left. by simplify_eq.
  - right. by simplify_eq.
Qed.

Lemma read_bytes_write_bytes (b : list Z) (off : Z) (bs : list Z) :
  0 <= off -> off + byteLength bs <= byteLength b ->
  read_bytes (write_bytes b off bs) off (length bs) = bs.
Proof.
  unfold read_bytes, write_bytes, byteLength. intros H0 H.
  rewrite drop_app_length' by (rewrite length_take; lia).
  by rewrite take_app_length.
Qed.




Lemma load_after_store_bytes (off : Z) (bs : list Z) (w w' : world) :
  store_bytes off bs w = (Normal tt, w') ->
  load off (length bs) w' = (Normal (le_value bs), w').
Proof.
  intros H. apply store_bytes_inv in H as [[? _] | (_ & H0 & Hle & ->)]; [done|].
  unfold load, bind, in_range. cbn [sab].
  assert (Hlen : byteLength (write_bytes (sab w) off bs) = byteLength (sab w)).
  { unfold byteLength. f_equal. apply length_write_bytes; lia. }
  rewrite Hlen.
  destruct (Z.leb_spec 0 off); [|lia].
  destruct (Z.leb_spec (off + Z.of_nat (length bs)) (byteLength (sab w)));
    [|unfold byteLength in *; lia].
  simpl. by rewrite read_bytes_write_bytes.
Qed.

Lemma load_after_store (off : Z) (n : nat) (x : Z) (w w' : world) :
  store off n x w = (Normal tt, w') ->
  load off n w' = (Normal (x mod 256 ^ Z.of_nat n), w').
Proof.
  unfold store. intros H. apply load_after_store_bytes in H.
  by rewrite length_le_bytes, le_value_le_bytes in H.
Qed.

Lemma offset_check_inv (offset : Z) (w : world) (r : outcome unit) (w' : world) :
  offset_check offset w = (r, w') ->
  w' = w /\
  ((r = Throw (InvalidOffset offset) /\ (offset < 0 \/ byteLength (sab w) <= offset)) \/
   (r = Normal tt /\ 0 <= offset < byteLength (sab w))).
Proof.
  unfold offset_check. intros H.
  destruct ((offset <? 0) || (byteLength (sab w) <=? offset)) eqn:E; simplify_eq; split; auto.
  - left. split; [done|]. apply orb_true_iff in E as [E|E]; lia.
  - right. split; [done|]. apply orb_false_iff in E as [E1 E2]. lia.
Qed.

Lemma exceeds_check_inv (limit : Z) (e : error) (w : world) (r : outcome unit) (w' : world) :
  exceeds_check limit e w = (r, w') ->
  w' = w /\ ((r = Throw e /\ byteLength (sab w) < limit) \/
             (r = Normal tt /\ limit <= byteLength (sab w))).
Proof.
  unfold exceeds_check. intros H.
  destruct (Z.ltb_spec (byteLength (sab w)) limit); simplify_eq; split; auto.
Qed.

(** ** Strings written and read back *)

Lemma string_of_bytes_encode (s : string) : string_of_bytes (TextEncoder_encode s) = s.
Proof.
  unfold string_of_bytes, TextEncoder_encode. rewrite map_map.
  induction s as [|c s IH]; [done|]. cbn [list_ascii_of_string map string_of_list_ascii].
  by rewrite N2Z.id, ascii_N_embedding, IH.
Qed.

Lemma encode_bytes_in_range (s : string) :
  Forall (fun b => 0 <= b < 256) (TextEncoder_encode s).
Proof.
  unfold TextEncoder_encode. apply Forall_map, Forall_forall. intros c _.
  pose proof (N_ascii_bounded c). simpl. lia.
Qed.

Lemma map_mod_256 (bs : list Z) :
  Forall (fun b => 0 <= b < 256) bs -> map (fun b => b mod 256) bs = bs.
Proof.
  induction 1 as [|b bs Hb _ IH]; [done|]. simpl. by rewrite IH, Z.mod_small.
Qed.

Lemma utf8_decode_well_formed (n : nat) :
  forall bs, (length bs <= n)%nat -> well_formed_utf8 bs = true ->
             utf8_decode bs (O, 0x80, 0xBF, []) = bs.
Proof.
  induction n as [|n IH]; intros bs Hlen Hwf.
  { destruct bs; [done | simpl in Hlen; lia]. }
  destruct bs as [|b1 bs1]; [done|].
  cbn [well_formed_utf8] in Hwf. cbn [utf8_decode]. unfold utf8_lead.
  destruct (Z.leb_spec 0 b1) as [H0|H0]; cbn [andb] in Hwf.
  2: { destruct (Z.leb_spec 0xC2 b1); [lia|]. cbn [andb] in Hwf.
       destruct (Z.leb_spec 0xE0 b1); [lia|]. cbn [andb] in Hwf.
       destruct (Z.leb_spec 0xF0 b1); [lia|]. done. }
  destruct (Z.leb_spec b1 0x7F) as [H1|H1].
  { cbn [app]. f_equal. apply IH; [simpl in Hlen; lia | done]. }
  destruct (Z.leb_spec 0xC2 b1) as [H2|H2]; cbn [andb] in Hwf |- *.
  2: { destruct (Z.leb_spec 0xE0 b1); [lia|]. cbn [andb] in Hwf.
       destruct (Z.leb_spec 0xF0 b1); [lia|]. done. }
  destruct (Z.leb_spec b1 0xDF) as [H3|H3].
  { destruct bs1 as [|b2 bs2]; [done|].
    apply andb_true_iff in Hwf as [Hb2 Hwf].
    cbn [app utf8_decode]. rewrite Hb2. cbn [app]. do 2 f_equal.
    apply IH; [simpl in Hlen; lia | done]. }
  destruct (Z.leb_spec 0xE0 b1) as [H4|H4]; [|lia]. cbn [andb] in Hwf |- *.
  destruct (Z.leb_spec b1 0xEF) as [H5|H5].
  { destruct bs1 as [|b2 [|b3 bs3]]; try done.
    apply andb_true_iff in Hwf as [Hwf Hwf3].
    apply andb_true_iff in Hwf as [Hwf Hb3].
    apply andb_true_iff in Hwf as [Hlo Hhi].
    cbn [app utf8_decode]. rewrite Hlo, Hhi. cbn [andb utf8_decode]. rewrite Hb3.
    cbn [app]. do 3 f_equal. apply IH; [simpl in Hlen; lia | done]. }
  destruct (Z.leb_spec 0xF0 b1) as [H6|H6]; [|lia]. cbn [andb] in Hwf |- *.
  destruct (Z.leb_spec b1 0xF4) as [H7|H7]; [|done].
  destruct bs1 as [|b2 [|b3 [|b4 bs4]]]; try done.
  apply andb_true_iff in Hwf as [Hwf Hwf4].
  apply andb_true_iff in Hwf as [Hwf Hb4].
  apply andb_true_iff in Hwf as [Hwf Hb3].
  apply andb_true_iff in Hwf as [Hlo Hhi].
  cbn [app utf8_decode]. rewrite Hlo, Hhi. cbn [andb utf8_decode]. rewrite Hb3.
  cbn [andb utf8_decode]. rewrite Hb4.
  cbn [app]. do 4 f_equal. apply IH; [simpl in Hlen; lia | done].
Qed.

Lemma TextDecoder_decode_encode (s : string) :
  well_formed s = true -> TextDecoder_decode (TextEncoder_encode s) = without_bom s.
Proof.
  intros Hwf. unfold TextDecoder_decode, without_bom.
  rewrite map_mod_256 by apply encode_bytes_in_range.
  by rewrite (utf8_decode_well_formed (length (TextEncoder_encode s))).
Qed.

Lemma encode_app (s t : string) :
  TextEncoder_encode (s +:+ t) = TextEncoder_encode s ++ TextEncoder_encode t.
Proof.
  unfold TextEncoder_encode. induction s as [|c s IH]; [done|].
  simpl. f_equal. exact IH.
Qed.

Lemma without_bom_bom (s : string) : without_bom (bom +:+ s) = s.
Proof.
  unfold without_bom. rewrite encode_app.
  change (TextEncoder_encode bom) with [239; 187; 191]. cbn [app strip_bom].
  apply string_of_bytes_encode.
Qed.

Lemma ascii_of_byte (c : ascii) (n : N) :
  Z.of_N (N_of_ascii c) = Z.of_N n -> (n < 256)%N -> c = ascii_of_N n.
Proof.
  intros H Hn. apply N2Z.inj in H. rewrite <- H. by rewrite ascii_N_embedding.
Qed.

Lemma without_bom_other (s : string) :
  (forall s', s <> bom +:+ s') -> without_bom s = s.
Proof.
  intros Hne. unfold without_bom.
  assert (Hstrip : strip_bom (TextEncoder_encode s) = TextEncoder_encode s).
  { destruct s as [|c1 [|c2 [|c3 s']]]; try reflexivity.
    - unfold TextEncoder_encode. cbn [list_ascii_of_string map strip_bom].
      by repeat case_match.
    - unfold TextEncoder_encode. cbn [list_ascii_of_string map strip_bom].
      by repeat case_match.
    - unfold TextEncoder_encode. cbn [list_ascii_of_string map].
      destruct (decide (Z.of_N (N_of_ascii c1) = 239 /\ Z.of_N (N_of_ascii c2) = 187 /\
                        Z.of_N (N_of_ascii c3) = 191)) as [(H1 & H2 & H3)|Hn].
      + exfalso. apply (Hne s'). unfold bom. cbn [String.append].
        rewrite (ascii_of_byte c1 239), (ascii_of_byte c2 187), (ascii_of_byte c3 191); done.
      + unfold strip_bom. repeat case_match; try reflexivity. exfalso. apply Hn. lia. }
  rewrite Hstrip. apply string_of_bytes_encode.
Qed.

(** ** The low-level API *)

Lemma from_M_inv {A} (m : M A) (w : world) (r : result A) (w' : world) :
  from_M m w = (r, w') ->
  (exists a, r = Returned a /\ m w = (Normal a, w')) \/
  (exists e, r = Threw (Thrown e) /\ m w = (Throw e, w')).
Proof.
  unfold from_M. destruct (m w) as [[a|e] w1]; intros [= <- <-]; [left | right]; by eexists.
Qed.

Lemma from_M_Returned {A} (m : M A) (w : world) (a : A) (w' : world) :
  from_M m w = (Returned a, w') <-> m w = (Normal a, w').
Proof.
  unfold from_M. split.
  - destruct (m w) as [[a1|e] w1]; by intros [= <- <-].
  - by intros ->.
Qed.

(** The comparisons of the [switch] on a type that is known. *)
Ltac switch :=
  repeat match goal with
         | |- context [String.eqb ?a ?b] =>
             let r := eval vm_compute in (String.eqb a b) in
             change (String.eqb a b) with r
         | H : context [String.eqb ?a ?b] |- _ =>
             let r := eval vm_compute in (String.eqb a b) in
             change (String.eqb a b) with r in H
         end;
  cbv iota.

Lemma offset_check_ok (offset : Z) (w : world) :
  0 <= offset < byteLength (sab w) -> offset_check offset w = (Normal tt, w).
Proof.
  intros H. unfold offset_check.
  destruct (Z.ltb_spec offset 0); [lia|]. destruct (Z.leb_spec (byteLength (sab w)) offset); [lia|].
  done.
Qed.

(** A raw write that returns has passed the check of its offset and ended
    with the run of [m]. *)
Lemma and_then_offset_check {A} (offset : Z) (k : L A) (w : world) (r : result A) (w' : world) :
  and_then (from_M (offset_check offset)) (fun _ => k) w = (r, w') ->
  (r = Threw (Thrown (InvalidOffset offset)) /\ w' = w) \/
  (0 <= offset < byteLength (sab w) /\ k w = (r, w')).
Proof.
  unfold and_then, from_M. destruct (offset_check offset w) as [r1 w1] eqn:E.
  apply offset_check_inv in E as [-> [[-> _] | [-> Hoff]]]; intros H.
  - left. by simplify_eq.
  - right. done.
Qed.

Lemma and_then_offset_check_ok {A} (offset : Z) (k : L A) (w : world) :
  0 <= offset < byteLength (sab w) ->
  and_then (from_M (offset_check offset)) (fun _ => k) w = k w.
Proof. intros H. unfold and_then, from_M. by rewrite offset_check_ok. Qed.

Lemma store_length (off : Z) (n : nat) (x : Z) (w w' : world) :
  store off n x w = (Normal tt, w') -> byteLength (sab w') = byteLength (sab w).
Proof.
  unfold store. intros H. apply store_bytes_inv in H as [[? _] | (_ & H0 & Hle & ->)]; [done|].
  unfold byteLength. cbn [sab]. f_equal. apply length_write_bytes; lia.
Qed.

Lemma ToIndex_ok (off : Z) (w : world) : 0 <= off -> ToIndex off w = (Normal tt, w).
Proof. intros H. unfold ToIndex. by destruct (Z.ltb_spec off 0); [lia|]. Qed.

Lemma signed_mod (width x : Z) : signed width (x mod 2 ^ width) = signed width x.
Proof. unfold signed. by rewrite Z.mod_mod_divide by reflexivity. Qed.

(** X4 (view-core, readRaw and writeRaw): a number written by [writeRaw]
    is read back by [readRaw] at the same offset and type: a Float64 as it
    is; a whole number written as Uint32 or Uint8 modulo [2^32] or [2^8];
    a BigInt written as BigInt64 modulo [2^64], as a signed integer; and a
    whole number written as BigInt64 comes back as a BigInt. *)
Theorem readRaw_after_writeRaw (P : Platform) (offset : Z) (w w' : world) :
  (forall bits,
      0 <= bits < 2 ^ 64 ->
      writeRaw P offset "Float64" (VNumber bits) w = (Returned tt, w') ->
      readRaw offset "Float64" w' = (Returned (VNumber bits), w')) /\
  (forall z,
      Z.abs z < 2 ^ 53 ->
      writeRaw P offset "Uint32" (number z) w = (Returned tt, w') ->
      readRaw offset "Uint32" w' = (Returned (number (z mod 2 ^ 32)), w')) /\
  (forall z,
      Z.abs z < 2 ^ 53 ->
      writeRaw P offset "Uint8" (number z) w = (Returned tt, w') ->
      readRaw offset "Uint8" w' = (Returned (number (z mod 2 ^ 8)), w')) /\
  (forall z,
      writeRaw P offset "BigInt64" (VBigInt z) w = (Returned tt, w') ->
      readRaw offset "BigInt64" w' = (Returned (VBigInt (signed 64 z)), w')) /\
  (forall z,
      Z.abs z < 2 ^ 53 ->
      writeRaw P offset "BigInt64" (number z) w = (Returned tt, w') ->
      readRaw offset "BigInt64" w' = (Returned (VBigInt z), w')).
Proof.
  assert (Hstored : forall n x,
             0 <= offset < byteLength (sab w) ->
             store offset n x w = (Normal tt, w') ->
             0 <= offset < byteLength (sab w') /\
             load offset n w' = (Normal (x mod 256 ^ Z.of_nat n), w')).
  { intros n x Hoff H. split; [by rewrite (store_length _ _ _ _ _ H)|].
    by apply (load_after_store _ _ _ w). }
  repeat split.
  - intros bits Hbits H. unfold writeRaw in H.
    apply and_then_offset_check in H as [[? _] | [Hoff H]]; [done|]. switch.
    apply from_M_Returned in H. unfold setFloat64, bind in H.
    rewrite ToIndex_ok in H by lia. cbn in H.
    destruct (Hstored _ _ Hoff H) as [Hoff' Hload].
    unfold readRaw. rewrite and_then_offset_check_ok by done. switch.
    apply from_M_Returned. unfold getFloat64, bind. rewrite Hload. unfold ret.
    by rewrite Z.mod_small by (change (256 ^ Z.of_nat 8) with (2 ^ 64); lia).
  - intros z Hz H. unfold writeRaw in H.
    apply and_then_offset_check in H as [[? _] | [Hoff H]]; [done|]. switch.
    apply from_M_Returned in H. unfold setUint32_value, bind in H.
    rewrite ToIndex_ok in H by lia. cbn [lift ToNumber number] in H.
    unfold ToUint32_number in H. rewrite number_trunc_of_Z in H by done.
    destruct (Hstored _ _ Hoff H) as [Hoff' Hload].
    unfold readRaw. rewrite and_then_offset_check_ok by done. switch.
    apply from_M_Returned. unfold getUint32, bind. rewrite Hload. unfold ret, number.
    change (256 ^ Z.of_nat 4) with (2 ^ 32). by rewrite Z.mod_mod by lia.
  - intros z Hz H. unfold writeRaw in H.
    apply and_then_offset_check in H as [[? _] | [Hoff H]]; [done|]. switch.
    apply from_M_Returned in H. unfold setUint8_value, bind in H.
    rewrite ToIndex_ok in H by lia. cbn [lift ToNumber number] in H.
    unfold ToUint8_number in H. rewrite number_trunc_of_Z in H by done.
    destruct (Hstored _ _ Hoff H) as [Hoff' Hload].
    unfold readRaw. rewrite and_then_offset_check_ok by done. switch.
    apply from_M_Returned. unfold getUint8, bind. rewrite Hload. unfold ret, number.
    change (256 ^ Z.of_nat 1) with (2 ^ 8). by rewrite Z.mod_mod by lia.
  - intros z H. unfold writeRaw in H.
    apply and_then_offset_check in H as [[? _] | [Hoff H]]; [done|]. switch.
    apply from_M_Returned in H. unfold setBigInt64, bind in H. cbn [lift BigInt ToBigInt] in H.
    rewrite ToIndex_ok in H by lia. cbn [lift ToBigInt] in H.
    destruct (Hstored _ _ Hoff H) as [Hoff' Hload].
    unfold readRaw. rewrite and_then_offset_check_ok by done. switch.
    apply from_M_Returned. unfold getBigInt64, bind. rewrite Hload. unfold ret.
    change (256 ^ Z.of_nat 8) with (2 ^ 64). by rewrite signed_mod.
  - intros z Hz H. unfold writeRaw in H.
    apply and_then_offset_check in H as [[? _] | [Hoff H]]; [done|]. switch.
    apply from_M_Returned in H. unfold setBigInt64, bind in H. cbn [lift BigInt number] in H.
    rewrite number_trunc_of_Z, has_fraction_of_Z in H by done. cbn [lift] in H.
    rewrite ToIndex_ok in H by lia. cbn [lift ToBigInt] in H.
    destruct (Hstored _ _ Hoff H) as [Hoff' Hload].
    unfold readRaw. rewrite and_then_offset_check_ok by done. switch.
    apply from_M_Returned. unfold getBigInt64, bind. rewrite Hload. unfold ret.
    change (256 ^ Z.of_nat 8) with (2 ^ 64). rewrite signed_mod.
    do 3 f_equal. unfold signed.
    destruct (Z.ltb_spec (z mod 2 ^ 64) (2 ^ (64 - 1))) as [Hlt|Hge].
    + apply Z.mod_small. split; [|lia].
      destruct (Z.lt_ge_cases z 0) as [Hneg|]; [|done].
      exfalso. rewrite <- (Z.mod_add z 1) in Hlt by lia.
      rewrite Z.mod_small in Hlt; lia.
    + destruct (Z.lt_ge_cases z 0) as [Hneg|Hpos].
      * rewrite <- (Z.mod_add z 1) by lia. rewrite Z.mod_small; lia.
      * rewrite Z.mod_small in Hge; lia.
Qed.

Lemma readRaw_after_writeRaw_witness :
  exists w',
    writeRaw plain_platform 8 "Uint32" (number (-1)) (fresh_segment 16) = (Returned tt, w') /\
    readRaw 8 "Uint32" w' = (Returned (number 4294967295), w').
Proof.
  eexists. split; [vm_compute; reflexivity|].
  refine (proj1 (proj2 (readRaw_after_writeRaw plain_platform 8 (fresh_segment 16) _))
            (-1) _ _).
  - by vm_compute.
  - vm_compute. reflexivity.
Defined.

Lemma read_bytes_before_write (b : list Z) (off : Z) (n : nat) (off2 : Z) (bs : list Z) :
  0 <= off -> off + Z.of_nat n <= off2 -> off2 <= byteLength b ->
  read_bytes (write_bytes b off2 bs) off n = read_bytes b off n.
Proof.
  intros H0 Hn Hb. unfold read_bytes.
  rewrite !take_drop_commute.
  by rewrite (take_write_bytes (Z.to_nat off + n)) by (unfold byteLength in *; lia).
Qed.

Lemma new_typed_array_bytes_ok (off len : Z) (w : world) :
  0 <= off -> 0 <= len -> off + len <= byteLength (sab w) ->
  new_typed_array Uint8Array off len w = (Normal tt, w).
Proof.
  intros H0 Hlen Hle. unfold new_typed_array, in_range. cbn [getTypedArrayByteSize].
  rewrite Z.mod_1_r. destruct (Z.ltb_spec len 0); [lia|]. cbn.
  destruct (Z.leb_spec 0 off); [|lia].
  destruct (Z.leb_spec (off + len * 1) (byteLength (sab w))); [done | lia].
Qed.

Lemma exceeds_check_ok (limit : Z) (e : error) (w : world) :
  limit <= byteLength (sab w) -> exceeds_check limit e w = (Normal tt, w).
Proof. intros H. unfold exceeds_check. by destruct (Z.ltb_spec (byteLength (sab w)) limit); [lia|]. Qed.

(** What a raw write of a string does when its checks have passed. *)
Lemma write_string (offset : Z) (bytes : list Z) (w : world) :
  0 <= offset -> offset + 4 + byteLength bytes <= byteLength (sab w) ->
  (setUint32 offset (byteLength bytes) ;;
   new_typed_array Uint8Array (offset + 4) (byteLength bytes) ;;
   store_bytes (offset + 4) bytes) w
  = (Normal tt,
     World (write_bytes (write_bytes (sab w) offset (le_bytes 4 (byteLength bytes)))
                        (offset + 4) bytes) (heap w)).
Proof.
  intros H0 Hle.
  assert (Hb : 0 <= byteLength bytes) by (unfold byteLength; lia).
  assert (Hlen4 : byteLength (le_bytes 4 (byteLength bytes)) = 4).
  { unfold byteLength at 1. by rewrite length_le_bytes. }
  assert (Hlen : byteLength (write_bytes (sab w) offset (le_bytes 4 (byteLength bytes)))
                 = byteLength (sab w)).
  { assert (length (write_bytes (sab w) offset (le_bytes 4 (byteLength bytes)))
            = length (sab w)) as Hl; [|exact (f_equal Z.of_nat Hl)].
    apply length_write_bytes; [done|]. rewrite Hlen4. lia. }
  unfold setUint32, store, store_bytes, bind, in_range. rewrite Hlen4.
  destruct (Z.leb_spec 0 offset); [|lia].
  destruct (Z.leb_spec (offset + 4) (byteLength (sab w))); [|lia]. cbn [andb].
  rewrite new_typed_array_bytes_ok by (cbn [sab]; rewrite ?Hlen; lia).
  cbn [sab]. rewrite Hlen.
  destruct (Z.leb_spec 0 (offset + 4)); [|lia].
  destruct (Z.leb_spec (offset + 4 + byteLength bytes) (byteLength (sab w))); [|lia].
  reflexivity.
Qed.

(** X5 (view-core, readRaw and writeRaw): a string written by [writeRaw]
    is read back by [readRaw]: when its UTF-8 form is well formed and
    shorter than [2^32] bytes, the string read at the same offset is the
    string written, less the byte-order mark U+FEFF if it starts with
    one. *)
Theorem readRaw_after_writeRaw_string (P : Platform) (offset : Z) (s : string)
    (w w' : world) :
  well_formed s = true ->
  byteLength (TextEncoder_encode s) < 2 ^ 32 ->
  writeRaw P offset "String" (VString s) w = (Returned tt, w') ->
  readRaw offset "String" w' = (Returned (VString (without_bom s)), w') /\
  (forall s', s = bom +:+ s' -> without_bom s = s') /\
  ((forall s', s <> bom +:+ s') -> without_bom s = s).
Proof.
  intros Hwf Hshort H. split; [|split].
  2: { intros s' ->. apply without_bom_bom. }
  2: { apply without_bom_other. }
  unfold writeRaw in H.
  apply and_then_offset_check in H as [[? _] | [Hoff H]]; [done|]. switch.
  apply from_M_Returned in H. cbn [encoder_input] in H.
  unfold bind at 1, lift in H. cbv zeta in H.
  set (bytes := TextEncoder_encode s) in *.
  unfold bind at 1 in H.
  destruct (exceeds_check _ _ w) as [r1 w1] eqn:E.
  apply exceeds_check_inv in E as [-> [[-> _] | [-> Hfits]]]; [done|].
  rewrite write_string in H by lia.
  replace w' with (World (write_bytes (write_bytes (sab w) offset
                                          (le_bytes 4 (byteLength bytes)))
                                      (offset + 4) bytes) (heap w)) by congruence.
  clear H.
  assert (Hb : 0 <= byteLength bytes) by (unfold byteLength; lia).
  assert (Hlen4 : byteLength (le_bytes 4 (byteLength bytes)) = 4).
  { unfold byteLength at 1. by rewrite length_le_bytes. }
  set (b1 := write_bytes (sab w) offset (le_bytes 4 (byteLength bytes))).
  assert (Hlen1 : byteLength b1 = byteLength (sab w)).
  { assert (length b1 = length (sab w)) as Hl; [|exact (f_equal Z.of_nat Hl)].
    apply length_write_bytes; [lia|]. rewrite Hlen4. lia. }
  set (b2 := write_bytes b1 (offset + 4) bytes).
  assert (Hlen2 : byteLength b2 = byteLength (sab w)).
  { rewrite <- Hlen1.
    assert (length b2 = length b1) as Hl; [|exact (f_equal Z.of_nat Hl)].
    apply length_write_bytes; lia. }
  assert (Hprefix : read_bytes b2 offset 4 = le_bytes 4 (byteLength bytes)).
  { subst b2. rewrite read_bytes_before_write by lia.
    subst b1. rewrite <- (length_le_bytes 4 (byteLength bytes)) at 2.
    apply read_bytes_write_bytes; [lia|]. rewrite Hlen4. lia. }
  assert (Hbody : read_bytes b2 (offset + 4) (Z.to_nat (byteLength bytes)) = bytes).
  { subst b2. unfold byteLength at 1. rewrite Nat2Z.id.
    apply read_bytes_write_bytes; lia. }
  clearbody b2 b1.
  unfold readRaw. rewrite and_then_offset_check_ok by (cbn [sab]; lia). switch.
  apply from_M_Returned.
  unfold bind at 1, getUint32, load, bind, in_range. cbn [sab]. rewrite Hlen2.
  destruct (Z.leb_spec 0 offset); [|lia].
  destruct (Z.leb_spec (offset + Z.of_nat 4) (byteLength (sab w))); [|lia]. cbn [andb].
  cbn [sab]. rewrite Hprefix, (le_value_le_bytes 4).
  change (256 ^ Z.of_nat 4) with (2 ^ 32). rewrite (Z.mod_small (byteLength bytes)) by lia.
  rewrite exceeds_check_ok by (cbn [sab]; lia).
  rewrite new_typed_array_bytes_ok by (cbn [sab]; lia).
  cbn [sab]. rewrite Hbody. subst bytes. by rewrite TextDecoder_decode_encode.
Qed.

Lemma readRaw_after_writeRaw_string_witness :
  exists w',
    writeRaw plain_platform 8 "String" (VString "hé") (fresh_segment 16) = (Returned tt, w') /\
    readRaw 8 "String" w' = (Returned (VString "hé"), w').
Proof.
  assert (H : exists w', writeRaw plain_platform 8 "String" (VString "hé") (fresh_segment 16)
                         = (Returned tt, w')).
  { eexists. vm_compute. reflexivity. }
  destruct H as [w' H]. exists w'. split; [exact H|].
  destruct (readRaw_after_writeRaw_string plain_platform 8 "hé" (fresh_segment 16) w'
              eq_refl eq_refl H) as (Hread & _ & _).
  rewrite Hread. reflexivity.
Defined.





(** ** The header *)

#[local] Instance same_schema_id_refl : Reflexive same_schema_id.
Proof. by intros b. Qed.

#[local] Instance same_schema_id_trans : Transitive same_schema_id.
Proof. intros a b c [H1 H2] [H3 H4]. split; congruence. Qed.

Lemma same_header_schema_id (b b' : list Z) : same_header b b' -> same_schema_id b b'.
Proof.
  intros [H Hlen]. split; [|done]. unfold read_bytes.
  rewrite !take_drop_commute. change (Z.to_nat 4 + 4)%nat with 8%nat. by rewrite H.
Qed.

Lemma schema_id_of_header {A} (m : M A) : preserves same_header m -> preserves same_schema_id m.
Proof. apply preserves_weaken, same_header_schema_id. Qed.

Lemma schema_id_Atomics_add_version : preserves same_schema_id Atomics_add_version.
Proof.
  intros w r w' H. unfold Atomics_add_version, bind in H.
  destruct (new_typed_array Int32Array 0 1 w) as [[[]|e] w1] eqn:E.
  - unfold new_typed_array in E. simpl in E.
    apply in_range_inv in E as [-> [? | (_ & _ & Hlen)]]; [done|].
    simplify_eq. cbn [sab].
    assert (Hl4 : byteLength (le_bytes 4 (le_value (read_bytes (sab w) 0 4) + 1)) = 4).
    { unfold byteLength. by rewrite length_le_bytes. }
    split.
    + unfold read_bytes. reflexivity.
    + apply length_write_bytes; rewrite ?Hl4; lia.
  - unfold new_typed_array in E. simpl in E.
    apply in_range_inv in E as [-> _]. by simplify_eq.
Qed.

Ltac ids :=
  repeat first [ apply schema_id_Atomics_add_version
               | leaf
               | preserve_step ].

Lemma schema_id_View_encode (view : View) (data : value) :
  preserves same_schema_id (View_encode view data).
Proof.
  unfold View_encode. ids.
  apply schema_id_of_header, read_only_same_header, read_only_encode_nothing_dirty.
Qed.

Lemma getSchemaId_same (w w' : world) :
  same_schema_id (sab w) (sab w') -> (getSchemaId w').1 = (getSchemaId w).1.
Proof.
  intros [Hid Hlen]. unfold getSchemaId, byteLength. rewrite Hlen.
  destruct (Z.ltb_spec (Z.of_nat (length (sab w))) 8) as [|Hroom]; [done|].
  unfold from_M, getUint32, load, bind, in_range, ret, byteLength. rewrite Hlen.
  destruct (Z.leb_spec (4 + Z.of_nat 4) (Z.of_nat (length (sab w)))); [|lia].
  cbn. by rewrite Hid.
Qed.

Section Header.

Context (P : Platform) (view : View) (sample : value).
Hypothesis Hschema : schema view = inferSchema P sample.

Lemma schema_id_set path v : preserves same_schema_id (set (schema view) path v).
Proof. apply schema_id_of_header. by apply (header_view_set P view sample). Qed.

Lemma schema_id_View_set path v : preserves same_schema_id (View_set view path v).
Proof. unfold View_set. ids. apply schema_id_set. Qed.

Lemma schema_id_View_bulkSet entries : preserves same_schema_id (View_bulkSet view entries).
Proof.
  unfold View_bulkSet. ids.
  apply preserves_for_each; [typeclasses eauto.. |]. intros [path v]. apply schema_id_set.
Qed.

Lemma schema_id_View_patch path partial :
  preserves same_schema_id (View_patch P view path partial).
Proof.
  unfold View_patch. ids.
  - apply preserves_View_decodePartial; typeclasses eauto.
  - apply schema_id_View_set.
Qed.

Lemma schema_id_applyPatch patch : preserves same_schema_id (applyPatch view patch).
Proof. unfold applyPatch. ids; apply schema_id_View_set. Qed.

Lemma schema_id_View_schemaUpdate path v :
  preserves same_schema_id (View_schemaUpdate view path v).
Proof. unfold View_schemaUpdate. ids. apply schema_id_View_set. Qed.

Lemma header_executeTemplate index v :
  keeps same_header (executeTemplate (View_object view) index v).
Proof.
  intros w r w' H. unfold executeTemplate in H. cbn [core own_encodingTemplate View_object] in H.
  destruct (byteLength (sab w) <? byteSize (schema view)); [by simplify_eq|].
  destruct (if index <? 0 then None else encodingTemplate (schema view) !! Z.to_nat index)
    as [template|] eqn:E; [|by simplify_eq].
  destruct (index <? 0); [done|].
  rewrite Hschema in *.
  destruct (inferSchema_safe P sample) as [Hcur Hall].
  rewrite Forall_forall in Hall.
  assert (Hsafe : safe_setter (setter template)).
  { apply Hall. by eapply list_elem_of_lookup_2. }
  apply from_M_inv in H as [(a & _ & Hm) | (e & _ & Hm)]; exact (Hsafe _ _ Hcur _ _ _ Hm).
Qed.

End Header.

(** X7 (view-core, getSchemaId): nothing writes the schema identifier.
    On a view whose schema was inferred, whatever encode, set, bulkSet,
    patch, applyPatch, schemaUpdate and the low-level executeTemplate do,
    and whether they return or throw, [getSchemaId] gives afterwards what
    it gave before. *)
Theorem schema_id_never_written (P : Platform) (view : View) (sample : value) :
  schema view = inferSchema P sample ->
  (forall data w r w',
      View_encode view data w = (r, w') -> (getSchemaId w').1 = (getSchemaId w).1) /\
  (forall path v w r w',
      View_set view path v w = (r, w') -> (getSchemaId w').1 = (getSchemaId w).1) /\
  (forall entries w r w',
      View_bulkSet view entries w = (r, w') -> (getSchemaId w').1 = (getSchemaId w).1) /\
  (forall path partial w r w',
      View_patch P view path partial w = (r, w') -> (getSchemaId w').1 = (getSchemaId w).1) /\
  (forall patch w r w',
      applyPatch view patch w = (r, w') -> (getSchemaId w').1 = (getSchemaId w).1) /\
  (forall path v w r w',
      View_schemaUpdate view path v w = (r, w') -> (getSchemaId w').1 = (getSchemaId w).1) /\
  (forall index v w r w',
      executeTemplate (View_object view) index v w = (r, w') ->
      (getSchemaId w').1 = (getSchemaId w).1).
Proof.
  intros Hschema. repeat split.
  - intros data w r w' H. apply getSchemaId_same. exact (schema_id_View_encode _ _ _ _ _ H).
  - intros path v w r w' H. apply getSchemaId_same.
    exact (schema_id_View_set P view sample Hschema _ _ _ _ _ H).
  - intros entries w r w' H. apply getSchemaId_same.
    exact (schema_id_View_bulkSet P view sample Hschema _ _ _ _ H).
  - intros path partial w r w' H. apply getSchemaId_same.
    exact (schema_id_View_patch P view sample Hschema _ _ _ _ _ H).
  - intros patch w r w' H. apply getSchemaId_same.
    exact (schema_id_applyPatch P view sample Hschema _ _ _ _ H).
  - intros path v w r w' H. apply getSchemaId_same.
    exact (schema_id_View_schemaUpdate P view sample Hschema _ _ _ _ _ H).
  - intros index v w r w' H. apply getSchemaId_same, same_header_schema_id.
    exact (header_executeTemplate P view sample Hschema _ _ _ _ _ H).
Qed.

Lemma schema_id_never_written_witness :
  exists w',
    View_set array_named_view "Array" (VArray 2 [Some (number 1)] []) (fresh_segment 12)
      = (Normal tt, w') /\
    (getSchemaId (fresh_segment 12)).1 = Returned (number 0) /\
    (getSchemaId w').1 = Returned (number 0).
Proof.
  assert (H : exists w', View_set array_named_view "Array" (VArray 2 [Some (number 1)] [])
                           (fresh_segment 12) = (Normal tt, w')).
  { eexists. vm_compute. reflexivity. }
  destruct H as [w' H]. exists w'. split; [exact H|]. split; [reflexivity|].
  destruct (schema_id_never_written plain_platform array_named_view array_named eq_refl)
    as (_ & Hset & _).
  rewrite (Hset _ _ _ _ _ H). reflexivity.
Defined.

Lemma getVersion_value (w : world) :
  4 <= byteLength (sab w) ->
  getVersion w = (Returned (number (signed 32 (version w))), w).
Proof.
  intros H. unfold getVersion. destruct (Z.ltb_spec (byteLength (sab w)) 4); [lia|].
  unfold from_M, bind, new_typed_array, load, bind, in_range, ret.
  cbn [getTypedArrayByteSize orb].
  change (1 <? 0) with false. change (negb (0 mod 4 =? 0)) with false.
  change (0 + 1 * 4) with 4. change (0 + Z.of_nat 4) with 4. cbn [orb andb].
  change (0 <=? 0) with true. cbn [andb].
  assert (E : (4 <=? byteLength (sab w)) = true) by (apply Z.leb_le; lia).
  repeat (rewrite E; cbv beta iota). reflexivity.
Qed.

Lemma room_bind {A B} (m : M A) (k : A -> M B) :
  (forall a, leaves_room (k a)) -> leaves_room (bind m k).
Proof.
  intros Hk w b w' H. unfold bind in H.
  destruct (m w) as [[a|e] w1]; [|done]. exact (Hk _ _ _ _ H).
Qed.

Lemma room_throw {A} (e : error) : leaves_room (@throw A e).
Proof. by intros w a w' H. Qed.

Lemma room_Atomics_add_version : leaves_room Atomics_add_version.
Proof.
  intros w a w' H. unfold Atomics_add_version, bind in H.
  destruct (new_typed_array Int32Array 0 1 w) as [[[]|e] w1] eqn:E; [|done].
  unfold new_typed_array in E. simpl in E.
  apply in_range_inv in E as [-> [? | (_ & _ & Hlen)]]; [done|].
  simplify_eq. cbn [sab].
  assert (Hl : length (write_bytes (sab w) 0 (le_bytes 4 (le_value (read_bytes (sab w) 0 4) + 1)))
               = length (sab w)).
  { apply length_write_bytes; [lia|]. unfold byteLength. rewrite length_le_bytes.
    unfold byteLength in Hlen. lia. }
  unfold byteLength in *. rewrite Hl. lia.
Qed.

Ltac room :=
  repeat lazymatch goal with
         | |- leaves_room Atomics_add_version => apply room_Atomics_add_version
         | |- leaves_room (bind _ _) => apply room_bind; intros ?
         | |- leaves_room (throw _) => apply room_throw
         end.

Lemma room_View_set (view : View) (path : string) (v : value) :
  leaves_room (View_set view path v).
Proof. unfold View_set. room. Qed.

Lemma room_applyPatch (view : View) (patch : Patch) : leaves_room (applyPatch view patch).
Proof.
  unfold applyPatch. room. destruct (op patch); first [apply room_View_set | apply room_throw].
Qed.

Lemma getVersion_bumped {A} (m : M A) (w : world) (a : A) (w' : world) :
  bumps m -> leaves_room m -> m w = (Normal a, w') ->
  getVersion w' = (Returned (number (signed 32 (version w + 1))), w').
Proof.
  intros Hb Hr H. rewrite getVersion_value by exact (Hr _ _ _ H).
  by rewrite (Hb _ _ _ H), signed_mod.
Qed.

(** X8 (view-core, getVersion): [getVersion] reads the version as a signed
    integer of 32 bits.  After a call of encode, set, bulkSet, patch or
    applyPatch that returns, it gives the version of before plus one,
    wrapped into the range from [-2^31] to [2^31 - 1]: the version that
    follows [2^31 - 1] is [-2^31]. *)
Theorem getVersion_after_mutation (P : Platform) (view : View) (sample : value) :
  schema view = inferSchema P sample ->
  (forall w, 4 <= byteLength (sab w) ->
             getVersion w = (Returned (number (signed 32 (version w))), w)) /\
  (forall data w w',
      View_encode view data w = (Normal tt, w') ->
      getVersion w' = (Returned (number (signed 32 (version w + 1))), w')) /\
  (forall path v w w',
      View_set view path v w = (Normal tt, w') ->
      getVersion w' = (Returned (number (signed 32 (version w + 1))), w')) /\
  (forall entries w w',
      View_bulkSet view entries w = (Normal tt, w') ->
      getVersion w' = (Returned (number (signed 32 (version w + 1))), w')) /\
  (forall path partial w w',
      View_patch P view path partial w = (Normal tt, w') ->
      getVersion w' = (Returned (number (signed 32 (version w + 1))), w')) /\
  (forall patch w w',
      applyPatch view patch w = (Normal tt, w') ->
      getVersion w' = (Returned (number (signed 32 (version w + 1))), w')) /\
  signed 32 (2 ^ 31 - 1 + 1) = - 2 ^ 31.
Proof.
  intros Hschema. repeat split.
  - apply getVersion_value.
  - intros data w w'. apply getVersion_bumped; [apply bumps_View_encode|].
    unfold View_encode. room.
  - intros path v w w'.
    apply getVersion_bumped; [by apply (bumps_View_set P view sample) | apply room_View_set].
  - intros entries w w'.
    apply getVersion_bumped; [by apply (bumps_View_bulkSet P view sample)|].
    unfold View_bulkSet. room.
  - intros path partial w w'.
    apply getVersion_bumped; [by apply (bumps_View_patch P view sample)|].
    unfold View_patch. room. apply room_View_set.
  - intros patch w w'.
    apply getVersion_bumped; [by apply (bumps_applyPatch P view sample) | apply room_applyPatch].
Qed.

Lemma getVersion_after_mutation_witness :
  exists w',
    View_encode num_str_view num_str
      (World ([255; 255; 255; 127] ++ replicate 21 0) 1) = (Normal tt, w') /\
    getVersion (World ([255; 255; 255; 127] ++ replicate 21 0) 1)
      = (Returned (number 2147483647), World ([255; 255; 255; 127] ++ replicate 21 0) 1) /\
    getVersion w' = (Returned (number (-2147483648)), w').
Proof.
  assert (H : exists w', View_encode num_str_view num_str
                           (World ([255; 255; 255; 127] ++ replicate 21 0) 1) = (Normal tt, w')).
  { eexists. vm_compute. reflexivity. }
  destruct H as [w' H]. exists w'. split; [exact H|]. split; [reflexivity|].
  destruct (getVersion_after_mutation plain_platform num_str_view num_str eq_refl)
    as (_ & Hencode & _).
  rewrite (Hencode _ _ _ H). reflexivity.
Defined.

(** X9 (view-core, executeTemplate): a write through [executeTemplate]
    does not touch the header.  It throws, with nothing written, when the
    segment is shorter than [byteSize] and when the index names no
    template; otherwise it runs the setter of that template and, as no
    setter of an inferred schema reaches the first eight bytes and the
    call adds nothing to the version, the version and the whole header are
    afterwards what they were, and so is the length. *)
Theorem executeTemplate_keeps_header (P : Platform) (view : View) (sample : value)
    (index : Z) (v : value) (w : world) (r : result unit) (w' : world) :
  schema view = inferSchema P sample ->
  executeTemplate (View_object view) index v w = (r, w') ->
  (version w' = version w /\ take 8 (sab w') = take 8 (sab w) /\
   length (sab w') = length (sab w)) /\
  (byteLength (sab w) < byteSize (schema view) ->
   r = Threw BufferTooSmallForTemplate /\ w' = w) /\
  (byteSize (schema view) <= byteLength (sab w) ->
   index < 0 \/ Z.of_nat (length (encodingTemplate (schema view))) <= index ->
   r = Threw (InvalidTemplateIndex index) /\ w' = w).
Proof.
  intros Hschema H. split; [|split].
  - pose proof (header_executeTemplate P view sample Hschema _ _ _ _ _ H) as Hh.
    split; [by apply version_same_header | exact Hh].
  - intros Hsmall. unfold executeTemplate in H. cbn [core View_object] in H.
    destruct (Z.ltb_spec (byteLength (sab w)) (byteSize (schema view))); [|lia].
    by simplify_eq.
  - intros Hsize Hindex. unfold executeTemplate in H.
    cbn [core own_encodingTemplate View_object] in H.
    destruct (Z.ltb_spec (byteLength (sab w)) (byteSize (schema view))); [lia|].
    destruct (Z.ltb_spec index 0); [by simplify_eq|].
    rewrite lookup_ge_None_2 in H by lia. by simplify_eq.
Qed.

Lemma executeTemplate_keeps_header_witness :
  exists w',
    executeTemplate (View_object array_named_view) 0 (VArray 2 [Some (number 1)] [])
      (fresh_segment 12) = (Returned tt, w') /\
    bytes_at w' 8 4 = [1; 0; 0; 0] /\
    version w' = version (fresh_segment 12).
Proof.
  assert (H : exists w', executeTemplate (View_object array_named_view) 0
                           (VArray 2 [Some (number 1)] []) (fresh_segment 12)
                         = (Returned tt, w')).
  { eexists. vm_compute. reflexivity. }
  destruct H as [w' H]. exists w'. split; [exact H|].
  split.
  - revert H. vm_compute. by intros [= <-].
  - apply (executeTemplate_keeps_header plain_platform array_named_view array_named
             0 (VArray 2 [Some (number 1)] []) (fresh_segment 12) (Returned tt) w' eq_refl H).
Defined.

(** ** The dump of the bytes *)

Lemma append_empty (s : string) : s +:+ "" = s.
Proof.
  induction s as [|c s IH]; [done|]. change (String c (s +:+ "") = String c s). by rewrite IH.
Qed.

Lemma append_associative (s t u : string) : (s +:+ t) +:+ u = s +:+ (t +:+ u).
Proof.
  induction s as [|c s IH]; [done|].
  change (String c ((s +:+ t) +:+ u) = String c (s +:+ (t +:+ u))). by rewrite IH.
Qed.

Lemma length_append (s t : string) :
  String.length (s +:+ t) = (String.length s + String.length t)%nat.
Proof.
  induction s as [|c s IH]; [done|].
  change (S (String.length (s +:+ t)) = S (String.length s + String.length t)). by rewrite IH.
Qed.

Lemma concat_cons (x : string) (xs : list string) :
  String.concat "" (x :: xs) = x +:+ String.concat "" xs.
Proof. destruct xs; simpl; [by rewrite append_empty | done]. Qed.

Lemma concat_app (xs ys : list string) :
  String.concat "" (xs ++ ys) = String.concat "" xs +:+ String.concat "" ys.
Proof.
  induction xs as [|x xs IH]; [done|].
  rewrite <- app_comm_cons, !concat_cons, IH. by rewrite append_associative.
Qed.

Lemma hex_byte_length_all :
  forallb (fun n => (String.length (hex_byte (Z.of_nat n)) =? 2)%nat) (seq 0 256) = true.
Proof. vm_compute. reflexivity. Qed.

Lemma hex_byte_length (b : Z) : 0 <= b < 256 -> String.length (hex_byte b) = 2%nat.
Proof.
  intros H. pose proof hex_byte_length_all as Hall.
  rewrite forallb_forall in Hall.
  specialize (Hall (Z.to_nat b)). rewrite Z2Nat.id in Hall by lia.
  apply Nat.eqb_eq, Hall, in_seq. lia.
Qed.

Lemma length_concat_hex (bs : list Z) :
  Forall (fun b => 0 <= b < 256) bs ->
  String.length (String.concat "" (map hex_byte bs)) = (2 * length bs)%nat.
Proof.
  induction 1 as [|b bs Hb _ IH]; [done|].
  cbn [map]. rewrite concat_cons, length_append, IH, hex_byte_length by done. simpl. lia.
Qed.

Lemma read_bytes_split (b : list Z) (lo mid hi : Z) :
  0 <= lo <= mid -> mid <= hi ->
  read_bytes b lo (Z.to_nat (hi - lo))
  = read_bytes b lo (Z.to_nat (mid - lo)) ++ read_bytes b mid (Z.to_nat (hi - mid)).
Proof.
  intros H1 H2. unfold read_bytes.
  replace (Z.to_nat (hi - lo)) with (Z.to_nat (mid - lo) + Z.to_nat (hi - mid))%nat by lia.
  rewrite <- take_take_drop, drop_drop. do 3 f_equal. lia.
Qed.

Lemma Forall_read_bytes (Q : Z -> Prop) (b : list Z) (off : Z) (n : nat) :
  Forall Q b -> Forall Q (read_bytes b off n).
Proof. intros H. unfold read_bytes. by apply Forall_take, Forall_drop. Qed.

Lemma length_read_bytes (b : list Z) (off : Z) (n : nat) :
  0 <= off -> off + Z.of_nat n <= byteLength b -> length (read_bytes b off n) = n.
Proof.
  unfold read_bytes, byteLength. intros H0 H. rewrite length_take, length_drop. lia.
Qed.

Lemma dumpBytes_range (lo hi : Z) (w : world) :
  0 <= lo <= hi -> hi <= byteLength (sab w) ->
  dumpBytes (Some lo) (Some hi) w
  = (Returned (String.concat "" (map hex_byte (read_bytes (sab w) lo (Z.to_nat (hi - lo))))), w).
Proof.
  intros H1 H2. unfold dumpBytes. cbn [default from_option]. unfold id.
  destruct (Z.ltb_spec lo 0); [lia|].
  destruct (Z.ltb_spec (byteLength (sab w)) hi); [lia|].
  destruct (Z.ltb_spec hi lo); [lia|]. cbn [orb].
  unfold from_M, bind. rewrite new_typed_array_bytes_ok by lia. reflexivity.
Qed.

(** X10 (view-core, dumpBytes): the dump is two hexadecimal digits for
    each byte, in order: the dump of a range has twice as many characters
    as the range has bytes, the dump of a range is the dump of its first
    part followed by the dump of the rest, and with no bounds given the
    whole segment is dumped.  A range that starts below zero, ends past
    the segment or ends before it starts is refused. *)
Theorem dumpBytes_two_digits_per_byte (lo mid hi : Z) (w : world) :
  (bytes_in_range w -> 0 <= lo <= mid -> mid <= hi -> hi <= byteLength (sab w) ->
   exists first rest,
     dumpBytes (Some lo) (Some mid) w = (Returned first, w) /\
     dumpBytes (Some mid) (Some hi) w = (Returned rest, w) /\
     dumpBytes (Some lo) (Some hi) w = (Returned (first +:+ rest), w) /\
     Z.of_nat (String.length (first +:+ rest)) = 2 * (hi - lo)) /\
  dumpBytes None None w = dumpBytes (Some 0) (Some (byteLength (sab w))) w /\
  (lo < 0 \/ byteLength (sab w) < hi \/ hi < lo ->
   dumpBytes (Some lo) (Some hi) w = (Threw InvalidByteRange, w)).
Proof.
  split; [|split].
  - intros Hbytes H1 H2 H3. do 2 eexists.
    rewrite !dumpBytes_range by lia. repeat split.
    + by rewrite (read_bytes_split _ lo mid hi), map_app, concat_app by lia.
    + rewrite <- concat_app, <- map_app, <- (read_bytes_split _ lo mid hi) by lia.
      rewrite length_concat_hex by (by apply Forall_read_bytes).
      rewrite length_read_bytes by lia. lia.
  - reflexivity.
  - intros H. unfold dumpBytes. cbn [default from_option]. unfold id.
    destruct (Z.ltb_spec lo 0); [done|].
    destruct (Z.ltb_spec (byteLength (sab w)) hi); [done|].
    destruct (Z.ltb_spec hi lo); [done | lia].
Qed.

Lemma dumpBytes_two_digits_per_byte_witness :
  dumpBytes (Some 0) (Some 3) (World [0; 171; 16; 255] 1)
  = (Returned ("00ab" +:+ "10"), World [0; 171; 16; 255] 1).
Proof.
  destruct (proj1 (dumpBytes_two_digits_per_byte 0 2 3 (World [0; 171; 16; 255] 1)))
    as (first & rest & Hfirst & Hrest & Hall & _).
  - repeat constructor; lia.
  - lia.
  - lia.
  - by vm_compute.
  - rewrite Hall. vm_compute in Hfirst, Hrest.
    injection Hfirst as <-. injection Hrest as <-. reflexivity.
Defined.

(** ** A view that was destroyed *)

Lemma size_check_ok (view : View) (w : world) :
  byteSize (schema view) <= byteLength (sab w) -> size_check view w = (Normal tt, w).
Proof.
  intros H. unfold size_check.
  by destruct (Z.ltb_spec (byteLength (sab w)) (byteSize (schema view))); [lia|].
Qed.

(** X11 (view-accessors, destroy): after [destroy] no path leads into the
    segment any more.  On a segment that is large enough, set (on a
    mutable view) and decodePartial throw the invalid-path error for
    every path, getTypedArray finds no typed array and executeTemplate no
    template, all with the segment left as it was; the callbacks are gone;
    decode and encode, which use no path, do what they did before; and a
    second [destroy] changes nothing. *)
Theorem View_destroy_disables_paths (P : Platform) (this : ViewObject) :
  View_destroy (View_destroy this) = View_destroy this /\
  (forall path v w,
      mutable (core this) = true ->
      byteSize (schema (core this)) <= byteLength (sab w) ->
      View_set (core (View_destroy this)) path v w = (Throw (InvalidPath path), w)) /\
  (forall path w,
      byteSize (schema (core this)) <= byteLength (sab w) ->
      View_decodePartial P (core (View_destroy this)) path w = (Throw (InvalidPath path), w)) /\
  (forall path w,
      byteSize (schema (core this)) <= byteLength (sab w) ->
      View_getTypedArray (core (View_destroy this)) path w = (Throw (NoTypedArrayAt path), w)) /\
  (forall index v w,
      byteSize (schema (core this)) <= byteLength (sab w) ->
      executeTemplate (View_destroy this) index v w = (Threw (InvalidTemplateIndex index), w)) /\
  (forall w, View_decode (core (View_destroy this)) w = View_decode (core this) w) /\
  (forall data w, View_encode (core (View_destroy this)) data w = View_encode (core this) data w) /\
  onDiff (core (View_destroy this)) = None /\
  beforePatch (core (View_destroy this)) = None.
Proof.
  repeat split.
  - intros path v w Hmut Hsize. unfold View_set, mutable_check. cbn [View_destroy core mutable].
    rewrite Hmut. unfold bind at 1, ret. unfold bind at 1.
    rewrite size_check_ok by done. unfold bind at 1, set.
    cbn [schema flatIndex]. by rewrite lookup_empty.
  - intros path w Hsize. unfold View_decodePartial, bind.
    rewrite size_check_ok by done. cbn [View_destroy core schema flatIndex].
    by rewrite lookup_empty.
  - intros path w Hsize. unfold View_getTypedArray, bind.
    rewrite size_check_ok by done. cbn [View_destroy core schema typedArrayViews].
    by rewrite lookup_empty.
  - intros index v w Hsize. unfold executeTemplate.
    cbn [View_destroy core schema byteSize own_encodingTemplate].
    destruct (Z.ltb_spec (byteLength (sab w)) (byteSize (schema (core this)))); [lia|].
    by destruct (index <? 0).
Qed.

Lemma View_destroy_disables_paths_witness :
  View_decodePartial plain_platform num_str_view "num" (fresh_segment 25)
    = (Normal (VNumber 0), fresh_segment 25) /\
  View_decodePartial plain_platform (core (View_destroy (View_object num_str_view))) "num"
    (fresh_segment 25) = (Throw (InvalidPath "num"), fresh_segment 25).
Proof.
  split; [vm_compute; reflexivity|].
  apply (View_destroy_disables_paths plain_platform (View_object num_str_view)).
  by vm_compute.
Defined.

(** ** The layout that inference makes *)

Lemma footprint_VArray r items props :
  footprint (VArray r items props) = 4 + footprint_items items.
Proof.
  cbn [footprint]. unfold footprint_items.
  f_equal; induction items as [|[x|] items IH]; cbn [fold_right]; rewrite ?IH; done.
Qed.

Lemma footprint_VObject r props : footprint (VObject r props) = footprint_props props.
Proof.
  cbn [footprint]. unfold footprint_props.
  induction props as [|[k x] props IH]; cbn [fold_right]; rewrite ?IH; done.
Qed.

Lemma cursor_infer_scalar dataType size set get path st :
  currentOffset (infer_scalar dataType size set get path st).2 = currentOffset st + size.
Proof. reflexivity. Qed.

(** Inference moves the cursor by the footprint of the value. *)
Lemma cursor_inferDescriptor (P : Platform) (v : value) :
  forall path st,
    currentOffset (inferDescriptor P v path st).2 = currentOffset st + footprint v.
Proof.
  induction v as [| | b | bits | z | s | r t | r ty elems | r items props IHitems _
                 | r props IHprops] using value_ind';
    intros path st; cbn [inferDescriptor].
  - simpl. lia.
  - simpl. lia.
  - by rewrite cursor_infer_scalar.
  - by rewrite cursor_infer_scalar.
  - by rewrite cursor_infer_scalar.
  - by rewrite cursor_infer_scalar.
  - by rewrite cursor_infer_scalar.
  - reflexivity.
  - rewrite footprint_VArray.
    match goal with |- currentOffset (let '(_, _) := ?e in _).2 = _ => set (inner := e) end.
    assert (Hinner : currentOffset inner.2 = currentOffset st + (4 + footprint_items items)).
    { subst inner. destruct items as [|first rest].
      - simpl. lia.
      - apply Forall_cons in IHitems as [Hfirst Hrest].
        match goal with |- currentOffset (let '(_, _) := ?e in _).2 = _ => set (head := e) end.
        assert (Hhead : currentOffset head.2
                        = currentOffset st + 4 + footprint_items [first]).
        { subst head. destruct first as [x|].
          - rewrite (Hfirst x eq_refl). simpl. lia.
          - simpl. lia. }
        destruct head as [child st0]. cbn [snd] in Hhead.
        assert (Hsplit : footprint_items (first :: rest)
                         = footprint_items [first] + footprint_items rest).
        { unfold footprint_items. simpl. destruct first; lia. }
        transitivity (currentOffset st0 + footprint_items rest); [|rewrite Hhead, Hsplit; lia].
        clear Hhead Hsplit Hfirst.
        generalize 1%nat. revert child st0.
        induction Hrest as [|it its Hit _ IHits]; intros child st0 i.
        + simpl. lia.
        + match goal with |- currentOffset (let '(_, _) := ?e in _).2 = _ =>
            set (item := e) end.
          assert (Hitem : currentOffset item.2 = currentOffset st0 + footprint_items [it]).
          { subst item. destruct it as [x|]; [rewrite (Hit x eq_refl)|]; simpl; lia. }
          destruct item as [itemDesc st1]. rewrite IHits. simpl in Hitem. rewrite Hitem.
          unfold footprint_items. simpl. destruct it; lia. }
    destruct inner as [child st0]. simpl in Hinner |- *. exact Hinner.
  - rewrite footprint_VObject.
    match goal with |- currentOffset (let '(_, _) := ?e in _).2 = _ => set (inner := e) end.
    assert (Hinner : currentOffset inner.2 = currentOffset st + footprint_props props).
    { subst inner. generalize (@nil (string * Descriptor)), 0.
      generalize (currentOffset st) at 1. revert st.
      induction IHprops as [|[key val] ps Hval _ IHps]; intros st o children size.
      - simpl. lia.
      - match goal with |- currentOffset (let '(_, _) := ?e in _).2 = _ => set (item := e) end.
        assert (Hitem : currentOffset item.2 = currentOffset st + footprint val).
        { subst item. apply Hval. }
        destruct item as [child st1]. rewrite IHps. simpl in Hitem. rewrite Hitem.
        unfold footprint_props. simpl. lia. }
    destruct inner as [[children size] st0]. simpl in Hinner |- *. exact Hinner.
Qed.

Lemma offset_inferDescriptor (P : Platform) (v : value) (path : string) (st : InferState) :
  d_byteOffset (inferDescriptor P v path st).1 = currentOffset st.
Proof.
  destruct v; cbn [inferDescriptor]; try reflexivity.
  - match goal with |- d_byteOffset (let '(_, _) := ?e in _).1 = _ => destruct e end.
    reflexivity.
  - match goal with |- d_byteOffset (let '(_, _) := ?e in _).1 = _ =>
      destruct e as [[? ?] ?] end.
    reflexivity.
Qed.

(** X12 (schema-inference, inferSchema): the size of the schema is the
    header plus the footprint of the sample: eight bytes, and then for
    each number, BigInt and date eight, for each boolean one, for each
    string four and its UTF-8 bytes, for each typed array four and its
    elements, for each array four and its elements one after the other,
    and nothing for [null], [undefined] and an object itself.  The
    descriptor of the sample starts at byte eight. *)
Theorem byteSize_is_footprint (P : Platform) (data : value) :
  byteSize (inferSchema P data) = 8 + footprint data /\
  d_byteOffset (descriptorTree (inferSchema P data)) = 8 /\
  (forall r items props, footprint (VArray r items props) = 4 + footprint_items items) /\
  (forall r props, footprint (VObject r props) = footprint_props props).
Proof.
  split; [|split; [|split]].
  - rewrite <- cursor_at_byteSize. unfold inferSchema.
    match goal with |- context [inferDescriptor P data "" ?st] =>
      pose proof (cursor_inferDescriptor P data "" st) as H;
      destruct (inferDescriptor P data "" st) as [d st'] end.
    exact H.
  - unfold inferSchema.
    match goal with |- context [inferDescriptor P data "" ?st] =>
      pose proof (offset_inferDescriptor P data "" st) as H;
      destruct (inferDescriptor P data "" st) as [d st'] end.
    exact H.
  - apply footprint_VArray.
  - apply footprint_VObject.
Qed.

(** *** What inference keeps *)

Section Keeps.

Context (P : Platform) (I : InferState -> Prop).
Hypothesis keep_flat : forall path off ty st, I st -> I (flatIndex_set path off ty st).
Hypothesis keep_push : forall e st, I st -> I (encodingTemplate_push e st).
Hypothesis keep_advance : forall n st, 0 <= n -> I st -> I (advance n st).
Hypothesis keep_view :
  forall path ty len st,
    0 <= len -> I st ->
    I (advance (4 + len * getTypedArrayByteSize ty)
         (typedArrayViews_set path
            {| tv_type := ty; tv_offset := currentOffset st; tv_length := len |} st)).

Lemma infer_scalar_keeps dataType size set get path st :
  0 <= size -> I st -> I (infer_scalar dataType size set get path st).2.
Proof.
  intros Hs Hst. unfold infer_scalar. cbn [snd].
  apply keep_advance; [done|]. by apply keep_push, keep_flat.
Qed.

Lemma inferDescriptor_keeps (v : value) :
  forall path st, I st -> I (inferDescriptor P v path st).2.
Proof.
  induction v as [| | b | bits | z | s | r t | r ty elems | r items props IHitems _
                 | r props IHprops] using value_ind';
    intros path st Hst; cbn [inferDescriptor].
  - done.
  - done.
  - apply infer_scalar_keeps; [lia | done].
  - apply infer_scalar_keeps; [lia | done].
  - apply infer_scalar_keeps; [lia | done].
  - apply infer_scalar_keeps; [unfold byteLength; lia | done].
  - apply infer_scalar_keeps; [lia | done].
  - cbn [snd].
    apply (keep_view path ty (Z.of_nat (length elems))
             (encodingTemplate_push _ (flatIndex_set path (currentOffset st) _ st))); [lia|].
    by apply keep_push, keep_flat.
  - match goal with |- I (let '(_, _) := ?e in _).2 => set (inner := e) end.
    assert (Hinner : I inner.2).
    { subst inner. destruct items as [|first rest].
      - cbn [snd]. apply keep_advance; [lia | done].
      - apply Forall_cons in IHitems as [Hfirst Hrest].
        match goal with |- I (let '(_, _) := ?e in _).2 => set (head := e) end.
        assert (Hhead : I head.2).
        { subst head. destruct first as [x|].
          - apply (Hfirst x eq_refl). apply keep_advance; [lia | done].
          - cbn [snd]. apply keep_advance; [lia | done]. }
        destruct head as [child st0]. cbn [snd] in Hhead.
        generalize 1%nat. revert child st0 Hhead.
        induction Hrest as [|it its Hit _ IHits]; intros child st0 Hst0 i.
        + done.
        + match goal with |- I (let '(_, _) := ?e in _).2 => set (item := e) end.
          assert (Hitem : I item.2).
          { subst item. destruct it as [x|]; [by apply (Hit x eq_refl) | done]. }
          destruct item as [itemDesc st1]. apply IHits. exact Hitem. }
    destruct inner as [child st0]. cbn [snd] in Hinner |- *.
    by apply keep_push, keep_flat.
  - match goal with |- I (let '(_, _) := ?e in _).2 => set (inner := e) end.
    assert (Hinner : I inner.2).
    { subst inner. generalize (@nil (string * Descriptor)), 0.
      generalize (currentOffset st) at 1. revert st Hst.
      induction IHprops as [|[key val] ps Hval _ IHps]; intros st Hst o children size.
      - done.
      - match goal with |- I (let '(_, _) := ?e in _).2 => set (item := e) end.
        assert (Hitem : I item.2) by (subst item; by apply Hval).
        destruct item as [child st1]. apply IHps. exact Hitem. }
    destruct inner as [[children size] st0]. cbn [snd] in Hinner |- *.
    by apply keep_push, keep_flat.
Qed.

End Keeps.

Lemma views_fit_inferDescriptor (P : Platform) (v : value) (path : string) (st : InferState) :
  views_fit st -> views_fit (inferDescriptor P v path st).2.
Proof.
  apply inferDescriptor_keeps.
  - by intros ? ? ? ? [? ?].
  - by intros ? ? [? ?].
  - intros n st0 Hn [Hcur Hall]. split; [simpl; lia|].
    intros p tv Hp. destruct (Hall p tv Hp) as (? & ? & ?). simpl. lia.
  - intros p ty len st0 Hlen [Hcur Hall].
    pose proof (getTypedArrayByteSize_pos ty).
    split; [simpl; nia|]. intros p' tv. cbn [st_typedArrayViews advance typedArrayViews_set].
    rewrite lookup_insert_Some. intros [[_ <-] | [_ Hp]]; cbn.
    + repeat split; lia.
    + destruct (Hall p' tv Hp) as (? & ? & ?). repeat split; try done. nia.
Qed.

Lemma views_fit_inferSchema (P : Platform) (data : value) (path : string)
    (tv : TypedArrayView) :
  typedArrayViews (inferSchema P data) !! path = Some tv ->
  8 <= tv_offset tv /\ 0 <= tv_length tv /\
  tv_offset tv + 4 + tv_length tv * getTypedArrayByteSize (tv_type tv)
  <= byteSize (inferSchema P data).
Proof.
  unfold inferSchema.
  match goal with |- context [inferDescriptor P data "" ?st] =>
    pose proof (views_fit_inferDescriptor P data "" st) as H;
    destruct (inferDescriptor P data "" st) as [d st'] end.
  cbn [typedArrayViews byteSize]. intros Hp.
  destruct H as [Hcur Hall].
  { split; [simpl; lia|]. intros p tv'. simpl. by rewrite lookup_empty. }
  destruct (Hall path tv Hp) as (? & ? & ?). cbn [snd] in *. repeat split; try done. lia.
Qed.

(** X13 (view-accessors, getTypedArray): the typed array of a path is
    handed out when its elements are aligned, and only then.  For a view
    made from a sample and a segment of at least [byteSize] bytes, the
    elements of the typed array at a path start four bytes after its
    offset; where that is a multiple of the element size the call returns
    a new typed array of the type and of the length of the sample's, over
    the bytes of the segment, and where it is not the call throws a
    RangeError.  In both cases the segment is left as it was. *)
Theorem getTypedArray_needs_alignment (P : Platform) (data : value) (options : ViewOptions)
    (path : string) (tv : TypedArrayView) (w : world) :
  typedArrayViews (schema (createView P data options)) !! path = Some tv ->
  byteSize (schema (createView P data options)) <= byteLength (sab w) ->
  View_getTypedArray (createView P data options) path w =
  if (tv_offset tv + 4) mod getTypedArrayByteSize (tv_type tv) =? 0
  then (Normal (VTypedArray (heap w) (tv_type tv)
                  (chunks (Z.to_nat (getTypedArrayByteSize (tv_type tv)))
                          (Z.to_nat (tv_length tv))
                          (drop (Z.to_nat (tv_offset tv + 4)) (sab w)))),
        World (sab w) (N.succ (heap w)))
  else (Throw RangeError, w).
Proof.
  intros Hp Hsize. cbn [createView schema] in *.
  destruct (views_fit_inferSchema P data path tv Hp) as (Hoff & Hlen & Hfit).
  unfold View_getTypedArray, bind at 1. rewrite size_check_ok by done.
  cbn [createView schema]. rewrite Hp.
  unfold new_TypedArray, bind at 1, new_typed_array.
  destruct (Z.ltb_spec (tv_length tv) 0); [lia|]. cbn [orb].
  destruct ((tv_offset tv + 4) mod getTypedArrayByteSize (tv_type tv) =? 0); cbn [negb];
    [|reflexivity].
  unfold in_range.
  destruct (Z.leb_spec 0 (tv_offset tv + 4)); [|lia].
  destruct (Z.leb_spec (tv_offset tv + 4 + tv_length tv * getTypedArrayByteSize (tv_type tv))
                       (byteLength (sab w))); [|lia].
  reflexivity.
Qed.

Lemma getTypedArray_needs_alignment_witness :
  View_getTypedArray (createView plain_platform float64_named mutable_options) "typed"
    (fresh_segment 28) = (Throw RangeError, fresh_segment 28) /\
  View_getTypedArray (createView plain_platform uint16_named mutable_options) "typed"
    (fresh_segment 16)
  = (Normal (VTypedArray 1 Uint16Array [0; 0]), World (replicate 16 0) 2).
Proof.
  split.
  - rewrite (getTypedArray_needs_alignment plain_platform float64_named mutable_options "typed"
               {| tv_type := Float64Array; tv_offset := 8; tv_length := 2 |}
               (fresh_segment 28)); [reflexivity | reflexivity | by vm_compute].
  - rewrite (getTypedArray_needs_alignment plain_platform uint16_named mutable_options "typed"
               {| tv_type := Uint16Array; tv_offset := 8; tv_length := 2 |}
               (fresh_segment 16)); [reflexivity | reflexivity | by vm_compute].
Defined.

(** ** Raw writes and the decoding of a path *)

Lemma store_stored (off : Z) (n : nat) (x : Z) (w w' : world) :
  0 <= off < byteLength (sab w) -> store off n x w = (Normal tt, w') -> stored off n x w w'.
Proof.
  intros Hoff H. split; [done|]. split; [by apply (store_length off n x)|].
  by apply (load_after_store _ _ _ w).
Qed.

Lemma writeRaw_stored (P : Platform) (offset : Z) (w w' : world) :
  (forall bits,
      writeRaw P offset "Float64" (VNumber bits) w = (Returned tt, w') ->
      stored offset 8 bits w w') /\
  (forall z,
      writeRaw P offset "BigInt64" (VBigInt z) w = (Returned tt, w') ->
      stored offset 8 z w w') /\
  (forall b,
      writeRaw P offset "Uint8" (VBoolean b) w = (Returned tt, w') ->
      stored offset 1 (if b then 1 else 0) w w').
Proof.
  split; [|split].
  - intros bits H. unfold writeRaw in H.
    apply and_then_offset_check in H as [[? _] | [Hoff H]]; [done|]. switch.
    apply from_M_Returned in H. unfold setFloat64, bind in H.
    rewrite ToIndex_ok in H by lia. cbn in H. by apply store_stored.
  - intros z H. unfold writeRaw in H.
    apply and_then_offset_check in H as [[? _] | [Hoff H]]; [done|]. switch.
    apply from_M_Returned in H. unfold setBigInt64, bind in H. cbn [lift BigInt ToBigInt] in H.
    rewrite ToIndex_ok in H by lia. cbn [lift ToBigInt] in H. by apply store_stored.
  - intros b H. unfold writeRaw in H.
    apply and_then_offset_check in H as [[? _] | [Hoff H]]; [done|]. switch.
    apply from_M_Returned in H. unfold setUint8_value, bind in H.
    rewrite ToIndex_ok in H by lia. cbn [lift ToNumber] in H.
    assert (Hb : ToUint8_number (if b then one_bits else 0) = if b then 1 else 0)
      by (by destruct b).
    rewrite Hb in H. by apply store_stored.
Qed.

Lemma writeRaw_string_stored (P : Platform) (offset : Z) (s : string) (w w' : world) :
  byteLength (TextEncoder_encode s) < 2 ^ 32 ->
  writeRaw P offset "String" (VString s) w = (Returned tt, w') ->
  stored offset 4 (byteLength (TextEncoder_encode s)) w w' /\
  offset + 4 + byteLength (TextEncoder_encode s) <= byteLength (sab w) /\
  read_bytes (sab w') (offset + 4) (Z.to_nat (byteLength (TextEncoder_encode s)))
  = TextEncoder_encode s.
Proof.
  intros Hshort H. unfold writeRaw in H.
  apply and_then_offset_check in H as [[? _] | [Hoff H]]; [done|]. switch.
  apply from_M_Returned in H. cbn [encoder_input] in H.
  unfold bind at 1, lift in H. cbv zeta in H.
  set (bytes := TextEncoder_encode s) in *.
  unfold bind at 1 in H.
  destruct (exceeds_check _ _ w) as [r1 w1] eqn:E.
  apply exceeds_check_inv in E as [-> [[-> _] | [-> Hfits]]]; [done|].
  rewrite write_string in H by lia.
  replace w' with (World (write_bytes (write_bytes (sab w) offset
                                          (le_bytes 4 (byteLength bytes)))
                                      (offset + 4) bytes) (heap w)) by congruence.
  clear H.
  assert (Hb : 0 <= byteLength bytes) by (unfold byteLength; lia).
  assert (Hlen4 : byteLength (le_bytes 4 (byteLength bytes)) = 4).
  { unfold byteLength at 1. by rewrite length_le_bytes. }
  set (b1 := write_bytes (sab w) offset (le_bytes 4 (byteLength bytes))).
  assert (Hlen1 : byteLength b1 = byteLength (sab w)).
  { assert (length b1 = length (sab w)) as Hl; [|exact (f_equal Z.of_nat Hl)].
    apply length_write_bytes; [lia|]. rewrite Hlen4. lia. }
  set (b2 := write_bytes b1 (offset + 4) bytes).
  assert (Hlen2 : byteLength b2 = byteLength (sab w)).
  { rewrite <- Hlen1.
    assert (length b2 = length b1) as Hl; [|exact (f_equal Z.of_nat Hl)].
    apply length_write_bytes; lia. }
  assert (Hprefix : read_bytes b2 offset 4 = le_bytes 4 (byteLength bytes)).
  { subst b2. rewrite read_bytes_before_write by lia.
    subst b1. rewrite <- (length_le_bytes 4 (byteLength bytes)) at 2.
    apply read_bytes_write_bytes; [lia|]. rewrite Hlen4. lia. }
  assert (Hbody : read_bytes b2 (offset + 4) (Z.to_nat (byteLength bytes)) = bytes).
  { subst b2. unfold byteLength at 1. rewrite Nat2Z.id.
    apply read_bytes_write_bytes; lia. }
  clearbody b2 b1. cbn [sab].
  split; [|by split].
  split; [done|]. split; [done|].
  unfold load, bind, in_range. cbn [sab]. rewrite Hlen2.
  destruct (Z.leb_spec 0 offset); [|lia].
  destruct (Z.leb_spec (offset + Z.of_nat 4) (byteLength (sab w))); [|lia]. cbn [andb sab].
  by rewrite Hprefix, (le_value_le_bytes 4).
Qed.

Lemma offset_check_same (offset : Z) (w w' : world) :
  byteLength (sab w') = byteLength (sab w) -> 0 <= offset < byteLength (sab w) ->
  offset_check offset w' = (Normal tt, w').
Proof. intros Hlen H. apply offset_check_ok. lia. Qed.

(** X14 (view-core and view-encode-decode): the low-level write and the
    decoding of a path agree on numbers, BigInts, booleans and strings.
    Where the index gives an offset for the path and the path leads to
    the descriptor of a scalar, a value written by [writeRaw] at that
    offset, with the raw type of the scalar, is the value that
    [decodePartial] then returns for the path: a number written as
    Float64, a BigInt written as BigInt64 (as a signed integer of 64
    bits), a boolean written as Uint8, and a well-formed string written
    as String (less a byte-order mark at its start). *)
Theorem decodePartial_after_writeRaw (P : Platform) (view : View) (path : string)
    (entry : FlatIndexEntry) (d : Descriptor) (w w' : world) :
  flatIndex (schema view) !! path = Some entry ->
  getDescriptor P view path = Normal d ->
  d_type d = Primitive ->
  byteSize (schema view) <= byteLength (sab w) ->
  (forall bits,
      d_dataType d = Some (OfPrimitive TNumber) -> 0 <= bits < 2 ^ 64 ->
      writeRaw P (fi_offset entry) "Float64" (VNumber bits) w = (Returned tt, w') ->
      View_decodePartial P view path w' = (Normal (VNumber bits), w')) /\
  (forall z,
      d_dataType d = Some (OfPrimitive TBigInt) ->
      writeRaw P (fi_offset entry) "BigInt64" (VBigInt z) w = (Returned tt, w') ->
      View_decodePartial P view path w' = (Normal (VBigInt (signed 64 z)), w')) /\
  (forall b,
      d_dataType d = Some (OfPrimitive TBoolean) ->
      writeRaw P (fi_offset entry) "Uint8" (VBoolean b) w = (Returned tt, w') ->
      View_decodePartial P view path w' = (Normal (VBoolean b), w')) /\
  (forall s,
      d_dataType d = Some (OfPrimitive TString) ->
      well_formed s = true -> byteLength (TextEncoder_encode s) < 2 ^ 32 ->
      writeRaw P (fi_offset entry) "String" (VString s) w = (Returned tt, w') ->
      View_decodePartial P view path w' = (Normal (VString (without_bom s)), w')).
Proof.
  intros Hentry Hdesc Hprim Hsize.
  destruct (writeRaw_stored P (fi_offset entry) w w') as (Hnumber & Hbigint & Hboolean).
  assert (Hpartial : forall offset_ok : byteLength (sab w') = byteLength (sab w),
             View_decodePartial P view path w' = readValue d (fi_offset entry) w').
  { intros Hlen. unfold View_decodePartial, bind at 1.
    rewrite size_check_ok by lia. rewrite Hentry. unfold bind. by rewrite Hdesc. }
  destruct d as [ty off size dt ch len]. cbn [d_type d_dataType] in *. subst ty.
  split; [|split; [|split]].
  - intros bits -> Hbits H. destruct (Hnumber bits H) as (Hoff & Hlen & Hload).
    rewrite Hpartial by done. cbn [readValue d_children d_type d_dataType].
    unfold bind at 1. rewrite (offset_check_same _ w) by done.
    unfold getFloat64, bind. rewrite Hload. unfold ret.
    by rewrite Z.mod_small by (change (256 ^ Z.of_nat 8) with (2 ^ 64); lia).
  - intros z -> H. destruct (Hbigint z H) as (Hoff & Hlen & Hload).
    rewrite Hpartial by done. cbn [readValue d_children d_type d_dataType].
    unfold bind at 1. rewrite (offset_check_same _ w) by done.
    unfold getBigInt64, bind. rewrite Hload. unfold ret.
    change (256 ^ Z.of_nat 8) with (2 ^ 64). by rewrite signed_mod.
  - intros b -> H. destruct (Hboolean b H) as (Hoff & Hlen & Hload).
    rewrite Hpartial by done. cbn [readValue d_children d_type d_dataType].
    unfold bind at 1. rewrite (offset_check_same _ w) by done.
    unfold getUint8, bind. rewrite Hload. unfold ret. by destruct b.
  - intros s -> Hwf Hshort H.
    destruct (writeRaw_string_stored P _ s w w' Hshort H)
      as ((Hoff & Hlen & Hload) & Hfits & Hbody).
    rewrite Hpartial by done. cbn [readValue d_children d_type d_dataType].
    unfold bind at 1. rewrite (offset_check_same _ w) by done.
    assert (Hb : 0 <= byteLength (TextEncoder_encode s)) by (unfold byteLength; lia).
    unfold bind at 1, getUint32. rewrite Hload.
    change (256 ^ Z.of_nat 4) with (2 ^ 32).
    rewrite (Z.mod_small (byteLength (TextEncoder_encode s))) by lia.
    unfold bind at 1. rewrite exceeds_check_ok by lia.
    unfold bind at 1. rewrite new_typed_array_bytes_ok by lia.
    by rewrite Hbody, TextDecoder_decode_encode.
Qed.

Lemma decodePartial_after_writeRaw_witness :
  exists w',
    writeRaw plain_platform 8 "Float64" (number 42) (fresh_segment 25) = (Returned tt, w') /\
    View_decodePartial plain_platform num_str_view "num" w' = (Normal (number 42), w').
Proof.
  assert (H : exists w', writeRaw plain_platform 8 "Float64" (number 42) (fresh_segment 25)
                         = (Returned tt, w')).
  { eexists. vm_compute. reflexivity. }
  destruct H as [w' H]. exists w'. split; [exact H|].
  refine (proj1 (decodePartial_after_writeRaw plain_platform num_str_view "num"
                   {| fi_offset := 8; fi_type := "Number" |} (primitive TNumber 8 8)
                   (fresh_segment 25) w' _ _ _ _) (number_of_Z 42) _ _ H).
  - reflexivity.
  - reflexivity.
  - reflexivity.
  - by vm_compute.
  - reflexivity.
  - by vm_compute.
Defined.

(** ** What [diff] gives and leaves *)

Lemma walk_only_replaces (desc : Descriptor) :
  forall path oldValue newValue,
    Forall (fun p => op p = op_replace) (walk desc path oldValue newValue).
Proof.
  induction desc as [ty off size dt ch len IH] using Descriptor_ind'.
  intros path oldValue newValue. cbn [walk d_children d_type].
  destruct (strict_equals oldValue newValue); [constructor|].
  destruct ty.
  - by repeat constructor.
  - apply Forall_flat_map, Forall_forall. intros key _.
    destruct ch as [children|]; [|constructor].
    rewrite entries_get_map.
    destruct (entries_get key children) as [child|] eqn:E; simpl; [|constructor].
    apply (entries_get_Forall
             (fun c => forall p o n, Forall (fun p => op p = op_replace) (walk c p o n))
             _ _ _ IH E).
  - destruct ch as [children|]; [|constructor].
    rewrite entries_get_map.
    destruct (entries_get "[]" children) as [child|] eqn:E; simpl; [|constructor].
    apply Forall_flat_map, Forall_forall. intros i _.
    apply (entries_get_Forall
             (fun c => forall p o n, Forall (fun p => op p = op_replace) (walk c p o n))
             _ _ _ IH E).
  - by repeat constructor.
Qed.

Lemma read_only_diff (view : View) (newData : value) : read_only (diff view newData).
Proof.
  unfold diff, read_only. repeat first [leaf | preserve_step].
  apply preserves_View_decode; typeclasses eauto.
Qed.

Lemma read_only_compiled_diff (schema : Schema) (newData : value) :
  read_only (compiled_diff schema newData).
Proof.
  unfold compiled_diff, read_only. repeat first [leaf | preserve_step].
  apply preserves_decode; typeclasses eauto.
Qed.

(** X15 (schema-diff-patch and schema-compiler, diff): [diff] only ever
    asks for replacements.  Every patch that [compare] and
    [compareValues] add to the patches they are given, and so every patch
    that [diff] and the compiled [diff] compute and, with an [onDiff]
    callback that only reads them, return, has the operation [replace]:
    neither emits an [add] or a [remove], also where a key or an element
    is in one of the two values only. *)
Theorem diff_only_replaces :
  (forall desc path oldValue newValue patches,
      Forall (fun p => op p = op_replace) patches ->
      Forall (fun p => op p = op_replace) (compare desc path oldValue newValue patches)) /\
  (forall desc path oldValue newValue patches,
      Forall (fun p => op p = op_replace) patches ->
      Forall (fun p => op p = op_replace) (compareValues desc path oldValue newValue patches)) /\
  (forall view newData w patches w',
      diff view newData w = (Normal patches, w') ->
      Forall (fun p => op p = op_replace) patches) /\
  (forall schema newData w patches w',
      compiled_diff schema newData w = (Normal patches, w') ->
      Forall (fun p => op p = op_replace) patches).
Proof.
  assert (Hcompare : forall desc path oldValue newValue patches,
             Forall (fun p => op p = op_replace) patches ->
             Forall (fun p => op p = op_replace) (compare desc path oldValue newValue patches)).
  { intros desc path oldValue newValue patches H. rewrite compare_walk.
    apply Forall_app. split; [done | apply walk_only_replaces]. }
  split; [exact Hcompare|]. split; [exact Hcompare|]. split.
  - intros view newData w patches w' H. unfold diff, bind at 1 in H.
    destruct (size_check view w) as [[[]|e] w1]; [|done].
    unfold bind at 1 in H. destruct (View_decode view w1) as [[oldData|e] w2]; [|done].
    unfold bind at 1 in H. destruct (call _ _ w2) as [[[]|e] w3]; [|done].
    unfold ret in H. simplify_eq. by apply Hcompare.
  - intros schema newData w patches w' H. unfold compiled_diff, bind in H.
    destruct (decode schema w) as [[oldData|e] w1]; [|done].
    unfold ret in H. simplify_eq. by apply Hcompare.
Qed.

Lemma diff_only_replaces_witness :
  exists patches w',
    diff num_str_view (VObject 9 [("num", number 100)]) (fresh_segment 25)
      = (Normal patches, w') /\
    patches = [replace_patch "num" (number 100); replace_patch "str" VUndefined] /\
    Forall (fun p => op p = op_replace) patches.
Proof.
  assert (H : exists w',
             diff num_str_view (VObject 9 [("num", number 100)]) (fresh_segment 25)
             = (Normal [replace_patch "num" (number 100); replace_patch "str" VUndefined], w')).
  { eexists. vm_compute. reflexivity. }
  destruct H as [w' H]. do 2 eexists. split; [exact H|]. split; [reflexivity|].
  destruct diff_only_replaces as (_ & _ & Hdiff & _). exact (Hdiff _ _ _ _ _ H).
Defined.

(** X16 (schema-diff-patch and schema-compiler, diff): [diff] reads and
    never writes.  Whether it returns or throws, [diff] itself leaves the
    bytes of the segment as they were, the version among them (the
    [onDiff] callback is an observer here: it returns or throws); the
    callback, when there is one, is called with the very patches that
    [diff] then returns, and [diff] returns only if the callback has
    returned. *)
Theorem diff_reads_only (view : View) (newData : value) (w : world) :
  (forall r w', diff view newData w = (r, w') -> sab w' = sab w /\ version w' = version w) /\
  (forall r w', compiled_diff (schema view) newData w = (r, w') -> sab w' = sab w) /\
  (forall patches w' callback,
      diff view newData w = (Normal patches, w') ->
      onDiff view = Some callback -> callback patches = Normal tt).
Proof.
  split; [|split].
  - intros r w' H. pose proof (read_only_diff view newData _ _ _ H) as Hsab.
    split; [done|]. unfold version. by rewrite Hsab.
  - intros r w' H. symmetry. exact (read_only_compiled_diff _ _ _ _ _ H).
  - intros patches w' callback H Hcall. unfold diff, bind at 1 in H.
    destruct (size_check view w) as [[[]|e] w1]; [|done].
    unfold bind at 1 in H. destruct (View_decode view w1) as [[oldData|e] w2]; [|done].
    unfold bind at 1 in H. rewrite Hcall in H. unfold call, lift in H.
    destruct (callback _) as [[]|e] eqn:E; [|done].
    unfold ret in H. by simplify_eq.
Qed.

Lemma diff_reads_only_witness :
  exists w',
    diff (setOnDiff (fun _ => Throw TypeError) num_str_view)
         (VObject 9 [("num", number 100)]) (fresh_segment 25) = (Throw TypeError, w') /\
    sab w' = sab (fresh_segment 25).
Proof.
  assert (H : exists w',
             diff (setOnDiff (fun _ => Throw TypeError) num_str_view)
                  (VObject 9 [("num", number 100)]) (fresh_segment 25)
             = (Throw TypeError, w')).
  { eexists. vm_compute. reflexivity. }
  destruct H as [w' H]. exists w'. split; [exact H|].
  exact (proj1 (proj1 (diff_reads_only _ _ _) _ _ H)).
Defined.

(** ** Callbacks and placeholders *)

(** X17 (schema-diff-patch, applyPatch): the [beforePatch] callback can
    veto a patch.  On a mutable view and a segment that is large enough,
    the callback set by [setBeforePatch] is called with the patch before
    [applyPatch] writes anything: when it throws, [applyPatch] throws the
    same error and has written nothing, the version included. *)
Theorem beforePatch_can_veto (view : View) (callback : Patch -> outcome unit)
    (patch : Patch) (e : error) (w : world) :
  mutable view = true -> byteSize (schema view) <= byteLength (sab w) ->
  callback patch = Throw e ->
  applyPatch (setBeforePatch callback view) patch w = (Throw e, w).
Proof.
  intros Hmut Hsize Hcall. unfold applyPatch.
  cbn [setBeforePatch mutable beforePatch]. rewrite Hmut.
  unfold bind at 1, ret. unfold bind at 1.
  rewrite size_check_ok by (cbn [setBeforePatch schema]; lia).
  unfold bind at 1, call, lift. by rewrite Hcall.
Qed.

Lemma beforePatch_can_veto_witness :
  applyPatch (setBeforePatch (fun _ => Throw TypeError) number_named_view)
    (remove_patch "Number") (fresh_segment 24) = (Throw TypeError, fresh_segment 24).
Proof.
  apply beforePatch_can_veto; [reflexivity | by vm_compute | reflexivity].
Defined.

(** X18 (view-accessors, schemaUpdate): [schemaUpdate] changes no schema:
    it is [set].  On a mutable view it does, on every segment, what [set]
    does with the same path and value, one step of the version included;
    on an immutable view it throws its own error and writes nothing. *)
Theorem schemaUpdate_is_set (view : View) (path : string) (v : value) (w : world) :
  (mutable view = true -> View_schemaUpdate view path v w = View_set view path v w) /\
  (mutable view = false ->
   View_schemaUpdate view path v w = (Throw CannotUpdateImmutable, w)).
Proof.
  split.
  - intros Hmut. unfold View_schemaUpdate. rewrite Hmut.
    unfold bind at 1, ret. unfold bind at 1.
    destruct (size_check view w) as [r1 w1] eqn:E.
    pose proof E as E'.
    apply size_check_inv in E' as [-> [[-> Hsmall] | [-> Hsize]]]; [|done].
    unfold View_set, mutable_check. rewrite Hmut. unfold bind at 1, ret. unfold bind at 1.
    by rewrite E.
  - intros Himm. unfold View_schemaUpdate. by rewrite Himm.
Qed.

Lemma schemaUpdate_is_set_witness :
  View_schemaUpdate array_named_view "Array" (VArray 2 [Some (number 1)] []) (fresh_segment 12)
  = View_set array_named_view "Array" (VArray 2 [Some (number 1)] []) (fresh_segment 12) /\
  View_schemaUpdate readonly_view "num" (number 1) (fresh_segment 25)
  = (Throw CannotUpdateImmutable, fresh_segment 25).
Proof.
  split.
  - by apply schemaUpdate_is_set.
  - by apply schemaUpdate_is_set.
Defined.

(** ** Paths *)

Lemma split_on_separator (sep : ascii -> bool) (p q : string) (c : ascii) (cur : string) :
  sep c = true ->
  filter (fun s => s ≠ "") (split_on sep (p +:+ String c q) cur)
  = filter (fun s => s ≠ "") (split_on sep p cur) ++ filter (fun s => s ≠ "") (split_on sep q "").
Proof.
  intros Hc. revert cur. induction p as [|d p IH]; intros cur.
  - change ("" +:+ String c q) with (String c q). cbn [split_on]. rewrite Hc.
    destruct (decide (cur = "")) as [->|Hne].
    + by rewrite !filter_cons_False by (by intros H).
    + by rewrite !filter_cons_True.
  - change (String d p +:+ String c q) with (String d (p +:+ String c q)). cbn [split_on].
    destruct (sep d); [|apply IH].
    destruct (decide (cur = "")) as [->|Hne].
    + rewrite !filter_cons_False by (by intros H). apply IH.
    + rewrite !filter_cons_True by done. rewrite IH. reflexivity.
Qed.

Lemma path_parts_separator (p q : string) (c : ascii) :
  separator c = true -> path_parts (p +:+ String c q) = path_parts p ++ path_parts q.
Proof. intros Hc. unfold path_parts. by apply split_on_separator. Qed.

Lemma getValueByPath_parts (data : value) (whole p q : string) :
  path_parts whole = path_parts p ++ path_parts q ->
  getValueByPath data whole = getValueByPath (getValueByPath data p) q.
Proof.
  unfold getValueByPath. intros ->.
  generalize (path_parts q) as qs. generalize (path_parts p) as ps. intros ps qs.
  revert data. induction ps as [|part ps IH]; intros data; [done|].
  cbn [app].
  assert (Hundefined : forall qs,
             (fix walk (parts : list string) (current : value) {struct parts} : value :=
                match parts with
                | [] => current
                | part :: parts' =>
                    match optional_get current part with
                    | VUndefined => VUndefined
                    | next => walk parts' next
                    end
                end) qs VUndefined = VUndefined).
  { by intros [|q0 qs0]. }
  destruct (optional_get data part) eqn:E; rewrite ?E; try apply IH.
  by rewrite Hundefined.
Qed.

(** X19 (schema-compiler, getValueByPath): a path is followed part by
    part.  The value at a path made of two paths joined by a dot or a
    bracket is the value found at the second path in the value found at
    the first, whichever of [.], [[] and []] joins them, and a separator
    at the end changes nothing; the empty path gives the data itself, and
    what follows an [undefined] is [undefined]. *)
Theorem getValueByPath_composes (data : value) (p q : string) (c : ascii) :
  separator c = true ->
  getValueByPath data (p +:+ String c q) = getValueByPath (getValueByPath data p) q /\
  (forall c', separator c' = true ->
              getValueByPath data (p +:+ String c' q) = getValueByPath data (p +:+ String c q)) /\
  getValueByPath data (p +:+ String c "") = getValueByPath data p /\
  getValueByPath data "" = data /\
  getValueByPath VUndefined q = VUndefined.
Proof.
  intros Hc.
  assert (Hjoin : forall c' q', separator c' = true ->
            getValueByPath data (p +:+ String c' q')
            = getValueByPath (getValueByPath data p) q').
  { intros c' q' Hc'. apply getValueByPath_parts. by apply path_parts_separator. }
  split; [by apply Hjoin|]. split; [|split; [|split]].
  - intros c' Hc'. by rewrite !Hjoin.
  - by rewrite Hjoin.
  - reflexivity.
  - unfold getValueByPath. by destruct (path_parts q).
Qed.

Lemma getValueByPath_composes_witness :
  let data := VObject 0 [("a", VArray 1 [Some (number 7); Some (number 9)] [])] in
  getValueByPath data ("a" +:+ String "[" "1]") = number 9 /\
  getValueByPath (getValueByPath data "a") "1]" = number 9.
Proof.
  intros data. split; [reflexivity|].
  rewrite <- (proj1 (getValueByPath_composes data "a" "1]" "[" eq_refl)). reflexivity.
Defined.

(** ** view-sync.ts: [bind] and [syncToSab] *)

Lemma written_through_includes (paths : option (list string)) (prop : string) :
  written_through paths prop <->
  match paths with
  | Some ps => negb (existsb (String.eqb prop) ps)
  | None => false
  end = false.
Proof.
  destruct paths as [ps|]; cbn; [|done].
  rewrite negb_false_iff, existsb_exists. split.
  - intros Hin. exists prop. split; [by apply list_elem_of_In | apply String.eqb_refl].
  - intros (x & Hin & Heq). apply String.eqb_eq in Heq as ->. by apply list_elem_of_In.
Qed.

(** X20 (view-sync, bind): the [set] trap of the bound proxy.  An
    assignment to a property that [paths] does not list only assigns to
    the variable, and the segment is as it was, also for [undefined].  For
    a property that is written through, [undefined] is refused before
    anything happens; any other value goes to [view.set] first: when that
    throws, its error comes out and the variable is not assigned; when the
    assignment comes back, the segment is the one [view.set] left, and its
    version is one more, modulo [2^32]. *)
Theorem bound_set_writes_through (P : Platform) (this : ViewSync) (sample : value)
    (paths : option (list string)) (target : value) (prop : string) (v : value) (w : world) :
  schema (sync_view this) = inferSchema P sample ->
  (~ written_through paths prop ->
   bound_set this paths target prop v w = from_M (lift (set_property target prop v)) w /\
   (bound_set this paths target prop v w).2 = w) /\
  (written_through paths prop ->
   (v = VUndefined ->
    bound_set this paths target prop v w = (Threw UndefinedValuesNotAllowed, w)) /\
   (v <> VUndefined ->
    (forall e w', View_set (sync_view this) prop v w = (Throw e, w') ->
       bound_set this paths target prop v w = (Threw (Thrown e), w')) /\
    (forall target' w', bound_set this paths target prop v w = (Returned target', w') ->
       View_set (sync_view this) prop v w = (Normal tt, w') /\
       set_property target prop v = Normal target' /\
       version w' = (version w + 1) mod 2 ^ 32))).
Proof.
  intros Hschema. split.
  - intros Hun. unfold bound_set.
    destruct (match paths with
              | Some ps => negb (existsb (String.eqb prop) ps)
              | None => false
              end) eqn:E.
    + split; [done|]. unfold from_M, lift. by destruct (set_property target prop v).
    + exfalso. apply Hun. by apply written_through_includes.
  - intros Hin. apply written_through_includes in Hin. unfold bound_set. rewrite Hin.
    split.
    + by intros ->.
    + intros Hdef.
      destruct (strict_equals v VUndefined) eqn:E.
      { by apply strict_equals_undefined in E. }
      split.
      * intros e w' Hset. unfold and_then, from_M. by rewrite Hset.
      * intros target' w'. unfold and_then. unfold from_M at 1.
        destruct (View_set (sync_view this) prop v w) as [[[]|e] w1] eqn:Hset; [|done].
        unfold from_M, lift.
        destruct (set_property target prop v) as [t|e] eqn:Hassign; [|done].
        intros [= <- <-]. split; [done|]. split; [done|].
        by apply (bumps_View_set P (sync_view this) sample Hschema prop v w tt w1).
Qed.

Lemma bound_set_writes_through_witness :
  let this := {| sync_view := num_str_view; sync_sab := 3; boundVariable := None;
                 boundPaths := ∅; lastVersion := 0; onUpdate := None; pollHandle := None |} in
  (bound_set this (Some ["num"]) num_str "str" VUndefined (fresh_segment 40)).2
  = fresh_segment 40 /\
  bound_set this (Some ["num"]) num_str "num" VUndefined (fresh_segment 40)
  = (Threw UndefinedValuesNotAllowed, fresh_segment 40).
Proof.
  intros this. split.
  - apply (bound_set_writes_through plain_platform this num_str _ _ _ _ _ eq_refl).
    cbn. rewrite list_elem_of_singleton. done.
  - apply (bound_set_writes_through plain_platform this num_str _ _ _ _ _ eq_refl);
      [cbn; by apply list_elem_of_singleton | reflexivity].
Defined.

(** X21 (view-sync, syncToSab, bind, destroy): [syncToSab] needs a bound
    variable.  On a handle that has been destroyed, whatever had been
    bound to it, it throws and the segment is as it was; so it does on a
    handle to which nothing is bound.  Straight after [bind] it is
    [view.encode] of the whole variable that was bound, whether or not
    [bind] was given paths. *)
Theorem syncToSab_needs_binding (h : N) (rt : Runtime) (this : ViewSync) :
  instances rt !! h = Some this ->
  (exists this', instances (ViewSync_destroy h rt) !! h = Some this' /\
                 forall w, ViewSync_syncToSab this' w = (Threw NoBoundVariable, w)) /\
  (boundVariable this = None ->
   forall w, ViewSync_syncToSab this w = (Threw NoBoundVariable, w)) /\
  (forall variable paths w,
     ViewSync_syncToSab (ViewSync_bind variable paths this) w
     = from_M (View_encode (sync_view this) variable) w).
Proof.
  intros Hthis. split; [|split].
  - eexists. split; [by apply ViewSync_destroy_instance|]. done.
  - intros Hnone w. unfold ViewSync_syncToSab. by rewrite Hnone.
  - done.
Qed.

Lemma syncToSab_needs_binding_witness :
  let this := {| sync_view := num_str_view; sync_sab := 3; boundVariable := Some num_str;
                 boundPaths := ∅; lastVersion := 0; onUpdate := None; pollHandle := None |} in
  exists this',
    instances (ViewSync_destroy 7 (with_instance 7 this empty_runtime)) !! 7%N = Some this' /\
    ViewSync_syncToSab this' (fresh_segment 40) = (Threw NoBoundVariable, fresh_segment 40).
Proof.
  intros this.
  destruct (proj1 (syncToSab_needs_binding 7 (with_instance 7 this empty_runtime) this
                     eq_refl)) as (this' & Hthis' & Hthrows).
  exists this'. split; [exact Hthis' | apply Hthrows].
Defined.
